(** * Knowledge-base search engine: ingestion and retrieval core

    A shallow embedding of [app/utils.py], [app/db.py], [app/pdf_loader.py],
    [app/rag.py], [app/api.py] and the two buttons of
    [frontend/streamlit_app.py], together with the properties stated for
    them.

    Conventions of the embedding.
    - A Python [str] is a list of Unicode code points ([list N]); slicing,
      [len], [strip] and the regular expression [\s+] all work on code
      points, exactly as in CPython.
    - Python [int]s are unbounded, hence [Z].
    - A [while] loop is a fuelled [Fixpoint]: [None] means that the fuel ran
      out before the loop left, [Some r] that the function returned [r]. The
      loop of [chunk_text] appends one chunk per turn, so its fuel is also
      the number of chunks that the list may hold: a caller that runs it with
      the memory it has reads [None] as [MemoryError].
    - Code that raises returns a [result]; code that talks to a collaborator
      (Gemini, MongoDB) runs in a small state-and-exception monad whose state
      holds the collection, the log of collaborator requests and the global
      of [app/db.py]. *)

From Stdlib Require Import String Ascii DecimalString.
From Stdlib Require PrimFloat.
From Stdlib Require Import List ZArith NArith Lia Bool Sorted Permutation.
Import ListNotations.

(* ================================================================== *)
(** * Python strings                                                   *)
(* ================================================================== *)

Module PyStr.

(** A character is a code point, a string a sequence of them. *)
Definition char := N.
Definition str := list char.

(** A string literal of the source, written as a Rocq string (ASCII only). *)
Definition lit (s : string) : str := map N_of_ascii (list_ascii_of_string s).

Definition space : char := 32%N.
Definition newline : char := 10%N.

(** [str.isspace] on one character, which is also what [\s] matches in a
    [str] pattern and what [str.strip()] removes: CPython's
    [_PyUnicode_IsWhitespace]. *)
Definition isspace (c : char) : bool :=
  (((9 <=? c) && (c <=? 13)) || ((28 <=? c) && (c <=? 32))
   || (c =? 133) || (c =? 160) || (c =? 5760)
   || ((8192 <=? c) && (c <=? 8202))
   || (c =? 8232) || (c =? 8233) || (c =? 8239) || (c =? 8287)
   || (c =? 12288))%N.

(** [len(s)] *)
Definition len (s : str) : Z := Z.of_nat (length s).

(** Normalisation of one slice bound against a length, as [PySlice_AdjustIndices]
    does for step 1: a negative bound counts from the end, and both are
    clamped to [0 .. len]. *)
Definition adjust_index (n i : Z) : Z :=
  if (i <? 0)%Z then Z.max 0 (i + n) else Z.min i n.

(** [s[lo:hi]] *)
Definition slice (s : str) (lo hi : Z) : str :=
  let lo' := adjust_index (len s) lo in
  let hi' := adjust_index (len s) hi in
  firstn (Z.to_nat (hi' - lo')) (skipn (Z.to_nat lo') s).

(** [s.lstrip()] *)
Fixpoint lstrip (s : str) : str :=
  match s with
  | [] => []
  | c :: r => if isspace c then lstrip r else s
  end.

(** [s.rstrip()]: a character is kept when it is not white space or when
    something after it is kept. *)
Fixpoint rstrip (s : str) : str :=
  match s with
  | [] => []
  | c :: r =>
      match rstrip r with
      | [] => if isspace c then [] else [c]
      | r' => c :: r'
      end
  end.

(** [s.strip()] *)
Definition strip (s : str) : str := rstrip (lstrip s).

(** [str(i)] for an [int]. *)
Definition str_of_int (i : Z) : str := lit (NilEmpty.string_of_int (Z.to_int i)).

(** [sep.join(parts)] *)
Fixpoint join (sep : str) (parts : list str) : str :=
  match parts with
  | [] => []
  | [p] => p
  | p :: rest => p ++ sep ++ join sep rest
  end.

End PyStr.

Import PyStr.

(* ================================================================== *)
(** * app/utils.py                                                     *)
(* ================================================================== *)

(** [WHITESPACE_RE.sub(repl, txt)] for [WHITESPACE_RE = re.compile(r"\s+")]:
    every maximal run of white space is replaced by [repl].  The flag tells
    whether the previous character already belonged to the current run. *)
Fixpoint ws_sub (in_run : bool) (repl : str) (txt : str) : str :=
  match txt with
  | [] => []
  | c :: r =>
      if isspace c
      then (if in_run then ws_sub true repl r else repl ++ ws_sub true repl r)
      else c :: ws_sub false repl r
  end.

Definition WHITESPACE_RE_sub (repl txt : str) : str := ws_sub false repl txt.

(** [clean_text] *)
Definition clean_text (txt : str) : str :=
  strip (WHITESPACE_RE_sub (lit " ") txt).

(** The [while start < n] loop of [chunk_text]; [chunks] is the list built so
    far. One unit of fuel is one evaluation of the loop condition. *)
Fixpoint chunk_loop (fuel : nat) (text : str) (n chunk_size overlap : Z)
         (start : Z) (chunks : list str) : option (list str) :=
  match fuel with
  | O => None
  | S fuel' =>
      if (start <? n)%Z then
        let end_ := Z.min (start + chunk_size) n in
        let chunks := chunks ++ [slice text start end_] in
        if (end_ =? n)%Z then Some chunks
        else chunk_loop fuel' text n chunk_size overlap
                        (Z.max 0 (end_ - overlap)) chunks
      else Some chunks
  end.

(** [chunk_text(text, chunk_size, overlap)] *)
Definition chunk_text (fuel : nat) (text : str) (chunk_size overlap : Z)
  : option (list str) :=
  let text := strip text in
  match text with
  | [] => Some []
  | _ => chunk_loop fuel text (len text) chunk_size overlap 0 []
  end.

(** The defaults of the signature. *)
Definition default_chunk_size : Z := 1200.
Definition default_overlap : Z := 200.

(** De-overlapping a chunk list: every chunk but the first loses its first
    [overlap] characters, and the pieces are concatenated. *)
Definition drop_overlaps (overlap : Z) (chunks : list str) : str :=
  concat (map (skipn (Z.to_nat overlap)) chunks).

Definition deoverlap (overlap : Z) (chunks : list str) : str :=
  match chunks with
  | [] => []
  | c :: rest => c ++ drop_overlaps overlap rest
  end.

(* ================================================================== *)
(** * hashlib.sha256 and str.encode                                    *)
(* ================================================================== *)

(** What a Python call evaluates to: a value or a raised exception. *)
Inductive service := Embedding | Generation | Store.

(** [ServiceError s] stands for whatever a request to the collaborator [s]
    raises; [ConfigurationError] is what [MongoClient(uri)] raises on a URI
    that it does not accept, [ValueError] what the [text] accessor of a
    generated response raises when the response holds no text part, and
    [MemoryError] what a list that cannot grow any more raises. *)
Inductive exn :=
| RuntimeError (msg : str)
| UnicodeEncodeError
| IndexError
| ValueError
| MemoryError
| ConfigurationError
| ServiceError (s : service).

Inductive result (A : Type) :=
| Ok (a : A)
| Raise (e : exn).
Arguments Ok {A} a.
Arguments Raise {A} e.

(** Bytes are numbers below 256. *)
Definition bytes := list N.

(** [chr(c).encode("utf-8")]. A surrogate code point (U+D800..U+DFFF) cannot
    be encoded and raises; code points end at U+10FFFF. *)
Definition encode_char (c : char) : result bytes :=
  let cont (k : N) := N.lor 128 (N.land (N.shiftr c k) 63) in
  (if c <? 128 then Ok [c]
   else if c <? 2048 then Ok [N.lor 192 (N.shiftr c 6); cont 0]
   else if c <? 65536 then
     if (55296 <=? c) && (c <=? 57343) then Raise UnicodeEncodeError
     else Ok [N.lor 224 (N.shiftr c 12); cont 6; cont 0]
   else if c <=? 1114111 then
     Ok [N.lor 240 (N.shiftr c 18); cont 12; cont 6; cont 0]
   else Raise UnicodeEncodeError)%N.

(** [s.encode("utf-8")] *)
Fixpoint encode_utf8 (s : str) : result bytes :=
  match s with
  | [] => Ok []
  | c :: r =>
      match encode_char c with
      | Raise e => Raise e
      | Ok b => match encode_utf8 r with
                | Raise e => Raise e
                | Ok bs => Ok (b ++ bs)
                end
      end
  end.

(** SHA-256 of FIPS 180-4, which is what [hashlib.sha256] computes. Words are
    32-bit numbers; every sum is reduced modulo 2^32. *)
Module SHA256.
Local Open Scope N_scope.

Definition wrap (x : N) : N := x mod 4294967296.
Definition add32 (x y : N) : N := wrap (x + y).
Definition rotr (n x : N) : N := N.lor (N.shiftr x n) (wrap (N.shiftl x (32 - n))).
Definition not32 (x : N) : N := N.lxor x 4294967295.

Definition Ch (x y z : N) := N.lxor (N.land x y) (N.land (not32 x) z).
Definition Maj (x y z : N) :=
  N.lxor (N.lxor (N.land x y) (N.land x z)) (N.land y z).
Definition Sigma0 (x : N) := N.lxor (N.lxor (rotr 2 x) (rotr 13 x)) (rotr 22 x).
Definition Sigma1 (x : N) := N.lxor (N.lxor (rotr 6 x) (rotr 11 x)) (rotr 25 x).
Definition sigma0 (x : N) := N.lxor (N.lxor (rotr 7 x) (rotr 18 x)) (N.shiftr x 3).
Definition sigma1 (x : N) := N.lxor (N.lxor (rotr 17 x) (rotr 19 x)) (N.shiftr x 10).

(** The constants of 4.2.2 and 5.3.3 are defined from the first 64 primes:
    the first 32 bits of the fractional part of the cube root (for [K]) and
    of the square root (for the initial hash value, first 8 primes). *)
Definition first_primes : list N :=
  [ 2; 3; 5; 7; 11; 13; 17; 19; 23; 29; 31; 37; 41; 43; 47; 53;
    59; 61; 67; 71; 73; 79; 83; 89; 97; 101; 103; 107; 109; 113; 127; 131;
    137; 139; 149; 151; 157; 163; 167; 173; 179; 181; 191; 193; 197; 199; 211; 223;
    227; 229; 233; 239; 241; 251; 257; 263; 269; 271; 277; 281; 283; 293; 307; 311 ].

(** Integer cube root of [n], built bit by bit from bit [bits - 1] down. *)
Fixpoint cube_root_bits (bits : nat) (n r : N) : N :=
  match bits with
  | O => r
  | S b =>
      let c := r + 2 ^ N.of_nat b in
      cube_root_bits b n (if c * c * c <=? n then c else r)
  end.

Definition frac_cube_root (p : N) : N := wrap (cube_root_bits 40 (p * 2 ^ 96) 0).
Definition frac_sqrt (p : N) : N := wrap (N.sqrt (p * 2 ^ 64)).

Definition K : list N := Eval vm_compute in map frac_cube_root first_primes.

(** The eight working variables, also used for the running hash value. *)
Record regs := Regs { ra : N; rb : N; rc : N; rd : N; re : N; rf : N; rg : N; rh : N }.

Definition initial_hash : regs :=
  Eval vm_compute in
    Regs (frac_sqrt 2) (frac_sqrt 3) (frac_sqrt 5) (frac_sqrt 7)
         (frac_sqrt 11) (frac_sqrt 13) (frac_sqrt 17) (frac_sqrt 19).

(** [k] bytes of [x], most significant first. *)
Fixpoint be_bytes (k : nat) (x : N) : bytes :=
  match k with
  | O => []
  | S k' => N.land (N.shiftr x (8 * N.of_nat k')) 255 :: be_bytes k' x
  end.

Definition be_word (bs : bytes) : N :=
  fold_left (fun acc b => N.lor (N.shiftl acc 8) b) bs 0.

(** Padding (5.1.1): a one bit, zero bits up to 56 modulo 64 bytes, then
    the length in bits on eight bytes. *)
Definition pad (msg : bytes) : bytes :=
  let l := length msg in
  let zeros := ((64 - (l + 9) mod 64) mod 64)%nat in
  msg ++ [128] ++ repeat 0 zeros ++ be_bytes 8 (8 * N.of_nat l).

(** Cutting a byte string into pieces of [k] bytes. *)
Fixpoint pieces (fuel k : nat) (bs : bytes) : list bytes :=
  match fuel, bs with
  | _, [] => []
  | O, _ => []
  | S fuel', _ => firstn k bs :: pieces fuel' k (skipn k bs)
  end.

(** Message schedule (6.2.2 step 1), most recent word first. *)
Fixpoint schedule (steps : nat) (wrev : list N) : list N :=
  match steps with
  | O => wrev
  | S steps' =>
      let w := add32 (add32 (sigma1 (nth 1 wrev 0)) (nth 6 wrev 0))
                     (add32 (sigma0 (nth 14 wrev 0)) (nth 15 wrev 0)) in
      schedule steps' (w :: wrev)
  end.

(** One round (6.2.2 step 3). *)
Definition round (r : regs) (kw : N * N) : regs :=
  let t1 := add32 (add32 (add32 (rh r) (Sigma1 (re r)))
                         (add32 (Ch (re r) (rf r) (rg r)) (fst kw))) (snd kw) in
  let t2 := add32 (Sigma0 (ra r)) (Maj (ra r) (rb r) (rc r)) in
  Regs (add32 t1 t2) (ra r) (rb r) (rc r) (add32 (rd r) t1) (re r) (rf r) (rg r).

Definition compress (h : regs) (block : bytes) : regs :=
  let w := rev (schedule 48 (rev (map be_word (pieces 16 4 block)))) in
  let r := fold_left round (combine K w) h in
  Regs (add32 (ra h) (ra r)) (add32 (rb h) (rb r)) (add32 (rc h) (rc r))
       (add32 (rd h) (rd r)) (add32 (re h) (re r)) (add32 (rf h) (rf r))
       (add32 (rg h) (rg r)) (add32 (rh h) (rh r)).

Definition digest (msg : bytes) : bytes :=
  let padded := pad msg in
  let h := fold_left compress (pieces (length padded) 64 padded) initial_hash in
  concat (map (be_bytes 4) [ra h; rb h; rc h; rd h; re h; rf h; rg h; rh h]).

(** Lower-case hexadecimal, as [hexdigest] prints it. *)
Definition hex_digit (d : N) : char := if d <? 10 then 48 + d else 87 + d.

Definition hex (bs : bytes) : str :=
  flat_map (fun b => [hex_digit (N.shiftr b 4); hex_digit (N.land b 15)]) bs.

End SHA256.

(** A [hashlib.sha256()] object: [update] appends to the message (the
    library documents repeated calls as one call on the concatenation) and
    [hexdigest] hashes what was fed so far. *)
Record sha256_obj := { fed : bytes }.
Definition hashlib_sha256 : sha256_obj := {| fed := [] |}.
Definition update (m : sha256_obj) (data : bytes) : sha256_obj :=
  {| fed := fed m ++ data |}.
Definition hexdigest (m : sha256_obj) : str := SHA256.hex (SHA256.digest (fed m)).

(** The [for p in parts: m.update(str(p).encode("utf-8"))] loop of
    [deterministic_id]; the parts are strings, on which [str] is the identity. *)
Fixpoint feed_parts (m : sha256_obj) (parts : list str) : result sha256_obj :=
  match parts with
  | [] => Ok m
  | p :: rest =>
      match encode_utf8 p with
      | Raise e => Raise e
      | Ok b => feed_parts (update m b) rest
      end
  end.

(** [deterministic_id], called with the tuple [parts] *)
Definition deterministic_id (parts : list str) : result str :=
  match feed_parts hashlib_sha256 parts with
  | Raise e => Raise e
  | Ok m => Ok (slice (hexdigest m) 0 16)
  end.

(* ================================================================== *)
(** * app/prompts.py and the data of app/rag.py                        *)
(* ================================================================== *)

Definition SYSTEM_RAG_INSTRUCTIONS : str :=
  lit "You are a precise, citation-focused assistant."
  ++ lit " Answer ONLY from the provided context."
  ++ lit " If the answer is not in context, say you don't know."
  ++ lit " Provide short, clear answers first, then a concise explanation."
  ++ lit " Cite sources by (Doc, Page) when possible.".

(** Python [float]s are binary64 numbers; the pipeline only carries them. *)
Definition float := PrimFloat.float.
Definition vector := list float.

(** A [metadata] dictionary; a key may be absent. *)
Record metadata := { md_doc_name : option str; md_page : option Z }.

(** A document of the chunk collection, with the five fields that
    [upsert_chunks] sets. *)
Record chunk_doc := {
  cd_doc_id : str;
  cd_chunk_id : str;
  cd_text : str;
  cd_embedding : vector;
  cd_metadata : metadata
}.

(** [UpdateOne(filt, update, upsert=True)] with
    [filt = {doc_id, chunk_id}] and [update = {"$set": ...}]. *)
Record UpdateOne := {
  filt_doc_id : str;
  filt_chunk_id : str;
  set_fields : chunk_doc
}.

(** A retrieval hit: the dictionary that the [$project] stage returns. Each
    of its keys may be absent; [text] may also be present and empty. *)
Record hit := {
  hit_text : option str;
  hit_metadata : option metadata;
  hit_score : option float
}.

(** The object returned by [generate_content], looked at through
    [getattr(resp, "text", "")]: the attribute is absent, it is [None], it
    is a string, or reading it raises. The last case is that of a response
    without text part (no candidate, or a blocked one): the SDK's [text] is a
    property that raises [ValueError] then, and the default of [getattr]
    only replaces an [AttributeError]. *)
Inductive response :=
| NoTextAttr
| TextNone
| Text (s : str)
| TextRaises.

(** One entry of ["sources"], and the dictionary [synthesize_answer] returns.
    [None] in [src_doc] or [src_page] is Python's [None]. *)
Record source := { src_doc : option str; src_page : option Z; src_score : float }.
Record answer_dict := { answer : str; sources : list source }.

(** Requests that leave the process. *)
Inductive event :=
| GenaiConfigure (api_key : str)
| EmbedContent (model content : str)
| GenerateContent (model prompt : str)
| BulkWrite (ops : list UpdateOne)
| Aggregate (queryVector : vector) (numCandidates limit : Z).

(** A [MongoClient]: constructing one opens no connection; it records the
    URI it was given ([None] when [MONGODB_URI] is not set). *)
Record MongoClient := { client_uri : option str }.

(** The module state of [app/db.py]: the global [_client], and how many
    times the constructor [MongoClient(...)] has been called. *)
Record db_module := { _client : option MongoClient; clients_made : nat }.

(** The handle [client[DB_NAME][COL_NAME]]. *)
Record collection_handle := {
  ch_client : MongoClient;
  ch_db : str;
  ch_col : str
}.

(** The environment variables read at import time and the collaborators.
    A collaborator call that raises is [None].
    - [MongoClient_accepts uri] tells whether the constructor of the client
      accepts the URI; it raises on one that it cannot parse.
    - [mongo_bulk_write col ops] is how the server carries out an unordered
      bulk write of [ops] on the collection [col]: the operations that it
      applies, in the order in which it applies them, each given as its
      position among the operations still pending, and whether the write is
      acknowledged without error. The server is free in the order, and a
      failure may leave any part of the operations applied. *)
Record Env := {
  GEMINI_API_KEY : str;
  EMBED_MODEL : str;
  GEN_MODEL : str;
  MONGODB_URI : option str;
  DB_NAME : str;
  COL_NAME : str;
  genai_embed_content : str -> str -> option vector;
  genai_generate_content : str -> str -> option response;
  atlas_vector_search : list chunk_doc -> vector -> Z -> Z -> option (list hit);
  MongoClient_accepts : option str -> bool;
  mongo_bulk_write : list chunk_doc -> list UpdateOne -> list nat * bool
}.

(** What a run can change: the chunk collection, the log of requests in the
    order in which they were issued, and the global of [app/db.py]. *)
Record state := { collection : list chunk_doc; log : list event; db : db_module }.

(** ** The state-and-exception monad *)

Definition M (A : Type) : Type := state -> result A * state.

Definition ret {A} (a : A) : M A := fun st => (Ok a, st).
Definition raise {A} (e : exn) : M A := fun st => (Raise e, st).
Definition bind {A B} (c : M A) (k : A -> M B) : M B :=
  fun st => match c st with
            | (Ok a, st') => k a st'
            | (Raise e, st') => (Raise e, st')
            end.
Definition emit (e : event) : M unit :=
  fun st => (Ok tt, {| collection := collection st; log := log st ++ [e]; db := db st |}).
Definition lift {A} (r : result A) : M A := fun st => (r, st).

Declare Scope py_scope.
Delimit Scope py_scope with py.
Notation "x <- c ;; k" := (bind c (fun x => k))
  (at level 61, c at next level, right associativity) : py_scope.
Notation "c ;;; k" := (bind c (fun _ => k))
  (at level 61, right associativity) : py_scope.
Local Open Scope py_scope.

(** ** The collection *)

Fixpoint str_eqb (a b : str) : bool :=
  match a, b with
  | [], [] => true
  | x :: a', y :: b' => N.eqb x y && str_eqb a' b'
  | _, _ => false
  end.

Definition matches_filter (op : UpdateOne) (d : chunk_doc) : bool :=
  str_eqb (filt_doc_id op) (cd_doc_id d) && str_eqb (filt_chunk_id op) (cd_chunk_id d).

(** The first document that matches the filter gets the [$set] fields;
    [None] when no document matches. *)
Fixpoint update_first (op : UpdateOne) (col : list chunk_doc) : option (list chunk_doc) :=
  match col with
  | [] => None
  | d :: rest =>
      if matches_filter op d then Some (set_fields op :: rest)
      else option_map (cons d) (update_first op rest)
  end.

(** One upserting [UpdateOne]: update the match or insert the document. *)
Definition apply_UpdateOne (col : list chunk_doc) (op : UpdateOne) : list chunk_doc :=
  match update_first op col with
  | Some col' => col'
  | None => col ++ [set_fields op]
  end.

(** Taking the element at position [i] out of a list. *)
Fixpoint pick {A} (i : nat) (l : list A) {struct l} : option (A * list A) :=
  match l with
  | [] => None
  | x :: r =>
      match i with
      | O => Some (x, r)
      | S i' =>
          match pick i' r with
          | Some (y, r') => Some (y, x :: r')
          | None => None
          end
      end
  end.

(** The operations that the server applies, in order, and those that stay
    pending, when it picks from the pending ones as [sched] tells; a pick
    beyond the pending operations is skipped. *)
Fixpoint run_schedule (pending : list UpdateOne) (sched : list nat)
  : list UpdateOne * list UpdateOne :=
  match sched with
  | [] => ([], pending)
  | i :: rest =>
      match pick i pending with
      | Some (op, pending') =>
          let (applied, left) := run_schedule pending' rest in
          (op :: applied, left)
      | None => run_schedule pending rest
      end
  end.

(** [col.bulk_write(ops, ordered=False)]: the request is logged, the server
    applies the operations it applies, and the call returns when all of them
    were applied and acknowledged; otherwise it raises, with the operations
    applied so far left in the collection. *)
Definition bulk_write (env : Env) (col : collection_handle) (ops : list UpdateOne) : M unit :=
  fun st =>
    let (sched, acknowledged) := mongo_bulk_write env (collection st) ops in
    let (applied, pending) := run_schedule ops sched in
    let st' := {| collection := fold_left apply_UpdateOne applied (collection st);
                  log := log st ++ [BulkWrite ops];
                  db := db st |} in
    match pending, acknowledged with
    | [], true => (Ok tt, st')
    | _, _ => (Raise (ServiceError Store), st')
    end.

(* ================================================================== *)
(** * app/db.py                                                        *)
(* ================================================================== *)

(** [get_client]: the client is constructed when the global holds none, and
    kept in the global; a constructor that raises leaves the global empty
    (the call of the constructor is counted all the same). *)
Definition get_client (env : Env) : M MongoClient :=
  fun st =>
    match _client (db st) with
    | Some c => (Ok c, st)
    | None =>
        let made := S (clients_made (db st)) in
        if MongoClient_accepts env (MONGODB_URI env)
        then
          let c := {| client_uri := MONGODB_URI env |} in
          (Ok c, {| collection := collection st; log := log st;
                    db := {| _client := Some c; clients_made := made |} |})
        else
          (Raise ConfigurationError,
           {| collection := collection st; log := log st;
              db := {| _client := None; clients_made := made |} |})
    end.

(** [get_collection] *)
Definition get_collection (env : Env) : M collection_handle :=
  client <- get_client env ;;
  ret {| ch_client := client; ch_db := DB_NAME env; ch_col := COL_NAME env |}.


(* ================================================================== *)
(** * app/pdf_loader.py and app/rag.py                                 *)
(* ================================================================== *)

Definition nl : str := [newline].

Definition missing_key_message : str :=
  lit "GEMINI_API_KEY missing. Add it to your .env before running embeddings or generation.".

(** [_ensure_gemini_configured] *)
Definition _ensure_gemini_configured (env : Env) : M unit :=
  match GEMINI_API_KEY env with
  | [] => raise (RuntimeError missing_key_message)
  | key => emit (GenaiConfigure key)
  end.

(** [_get_generative_model]: the handle is the model name. *)
Definition _get_generative_model (env : Env) : M str :=
  _ensure_gemini_configured env ;;;
  ret (GEN_MODEL env).

(** [genai.embed_content(model=EMBED_MODEL, content=t)["embedding"]] *)
Definition embed_content (env : Env) (t : str) : M vector :=
  emit (EmbedContent (EMBED_MODEL env) t) ;;;
  match genai_embed_content env (EMBED_MODEL env) t with
  | None => raise (ServiceError Embedding)
  | Some v => ret v
  end.

(** The [for t in texts] loop of [embed_texts], [out] being the list so far. *)
Fixpoint embed_loop (env : Env) (texts : list str) (out : list vector) : M (list vector) :=
  match texts with
  | [] => ret out
  | t :: rest =>
      v <- embed_content env t ;;
      embed_loop env rest (out ++ [v])
  end.

(** [embed_texts] *)
Definition embed_texts (env : Env) (texts : list str) : M (list vector) :=
  _ensure_gemini_configured env ;;;
  embed_loop env texts [].

(** The identifier of a chunk, as [upsert_chunks] computes it. *)
Definition chunk_id_of (doc_id : str) (page : Z) (text : str) : result str :=
  deterministic_id [doc_id; str_of_int page; slice text 0 64].

(** The [for (page, text), emb in zip(chunks, vecs)] loop of [upsert_chunks]. *)
Fixpoint build_ops (doc_id doc_name : str) (pairs : list ((Z * str) * vector))
         (ops : list UpdateOne) : result (list UpdateOne) :=
  match pairs with
  | [] => Ok ops
  | ((page, text), emb) :: rest =>
      match chunk_id_of doc_id page text with
      | Raise e => Raise e
      | Ok chunk_id =>
          let update :=
            {| cd_doc_id := doc_id;
               cd_chunk_id := chunk_id;
               cd_text := text;
               cd_embedding := emb;
               cd_metadata := {| md_doc_name := Some doc_name; md_page := Some page |} |} in
          build_ops doc_id doc_name rest
            (ops ++ [{| filt_doc_id := doc_id; filt_chunk_id := chunk_id;
                        set_fields := update |}])
      end
  end.

(** [upsert_chunks(doc_id, doc_name, chunks)], called without [col] as
    everywhere in the repository: [col or get_collection()] is
    [get_collection()]. *)
Definition upsert_chunks (env : Env) (doc_id doc_name : str) (chunks : list (Z * str)) : M Z :=
  col <- get_collection env ;;
  match chunks with
  | [] => ret 0%Z
  | _ =>
      let texts := map snd chunks in
      vecs <- embed_texts env texts ;;
      ops <- lift (build_ops doc_id doc_name (combine chunks vecs) []) ;;
      match ops with
      | [] => ret tt
      | _ => bulk_write env col ops
      end ;;;
      ret (Z.of_nat (length ops))
  end.

(** A page as [extract_pdf_text] returns it. *)
Record page_dict := { pg_page : Z; pg_text : str }.

(** [extract_pdf_text]: [pdf] lists what [page.extract_text()] gives for each
    page of the file, [None] for a page without text. *)
Fixpoint enumerate_pages (i : Z) (pdf : list (option str)) : list page_dict :=
  match pdf with
  | [] => []
  | t :: rest =>
      let txt := match t with Some x => x | None => [] end in
      {| pg_page := i; pg_text := clean_text txt |} :: enumerate_pages (i + 1) rest
  end.

Definition extract_pdf_text (pdf : list (option str)) : list page_dict :=
  enumerate_pages 1 pdf.

(** The [for p in pages] loop of [ingest_pdf]: pages without text are
    skipped, the others are chunked. [None] when a call of [chunk_text]
    does not return within the fuel. *)
Fixpoint collect_chunks (fuel : nat) (pages : list page_dict) (chunk_size overlap : Z)
         (all_chunks : list (Z * str)) : option (list (Z * str)) :=
  match pages with
  | [] => Some all_chunks
  | p :: rest =>
      match pg_text p with
      | [] => collect_chunks fuel rest chunk_size overlap all_chunks
      | txt =>
          match chunk_text fuel txt chunk_size overlap with
          | None => None
          | Some chs =>
              collect_chunks fuel rest chunk_size overlap
                (all_chunks ++ map (fun ch => (pg_page p, ch)) chs)
          end
      end
  end.

(** [ingest_pdf], run with room for [mem] chunks in a list: a call of
    [chunk_text] whose loop has not left after [mem] turns has filled the
    memory, and the next [append] raises [MemoryError]. *)
Definition ingest_pdf (mem : nat) (env : Env) (pdf : list (option str))
           (doc_id doc_name : str) (chunk_size overlap : Z) : M Z :=
  match collect_chunks mem (extract_pdf_text pdf) chunk_size overlap [] with
  | None => raise MemoryError
  | Some all_chunks => upsert_chunks env doc_id doc_name all_chunks
  end.

(** [col.aggregate(pipeline)] with the [$vectorSearch] stage. *)
Definition aggregate (env : Env) (col : collection_handle) (qvec : vector)
           (numCandidates limit : Z) : M (list hit) :=
  emit (Aggregate qvec numCandidates limit) ;;;
  fun st =>
    match atlas_vector_search env (collection st) qvec numCandidates limit with
    | None => (Raise (ServiceError Store), st)
    | Some hits => (Ok hits, st)
    end.

(** [vector_search(query, k)], called without [col]. *)
Definition vector_search (env : Env) (query : str) (k : Z) : M (list hit) :=
  col <- get_collection env ;;
  vecs <- embed_texts env [clean_text query] ;;
  match vecs with
  | [] => raise IndexError
  | qvec :: _ => aggregate env col qvec (Z.max 50 (k * 10)) k
  end.

(** One turn of the loop of [build_context]: the header and the text. *)
Definition context_part (r : hit) : str :=
  let meta := match hit_metadata r with
              | Some m => m
              | None => {| md_doc_name := None; md_page := None |}
              end in
  let name := match md_doc_name meta with Some n => n | None => lit "Doc" end in
  let page := match md_page meta with Some p => str_of_int p | None => lit "?" end in
  let header := lit "[Source: " ++ name ++ lit ", Page " ++ page ++ lit "]" ++ nl in
  header ++ match hit_text r with Some t => t | None => [] end.

(** [build_context] *)
Definition build_context (results : list hit) : str :=
  let ctx_parts := fold_left (fun parts r => parts ++ [context_part r]) results [] in
  join (nl ++ nl) ctx_parts.

(** One entry of the [sources] comprehension of [synthesize_answer]. *)
Definition source_of (r : hit) : source :=
  {| src_doc := match hit_metadata r with Some m => md_doc_name m | None => None end;
     src_page := match hit_metadata r with Some m => md_page m | None => None end;
     src_score := match hit_score r with Some s => s | None => PrimFloat.zero end |}.

(** [getattr(resp, "text", "") or ""] *)
Definition text_or_empty (resp : response) : result str :=
  match resp with
  | Text s => Ok s
  | NoTextAttr | TextNone => Ok []
  | TextRaises => Raise ValueError
  end.

(** The [prompt] of [synthesize_answer]. *)
Definition rag_prompt (question context : str) : str :=
  SYSTEM_RAG_INSTRUCTIONS
  ++ (nl ++ nl ++ lit "Using ONLY the context below, answer succinctly." ++ nl ++ nl)
  ++ (lit "# Question" ++ nl ++ question ++ nl ++ nl ++ lit "# Context" ++ nl ++ context).

(** [synthesize_answer] *)
Definition synthesize_answer (env : Env) (question : str) (results : list hit) : M answer_dict :=
  model <- _get_generative_model env ;;
  let context := build_context results in
  let prompt := rag_prompt question context in
  emit (GenerateContent model prompt) ;;;
  match genai_generate_content env model prompt with
  | None => raise (ServiceError Generation)
  | Some resp =>
      answer_text <- lift (text_or_empty resp) ;;
      ret {| answer := answer_text; sources := map source_of results |}
  end.

(** [rag_query] *)
Definition rag_query (env : Env) (question : str) (k : Z) : M answer_dict :=
  hits <- vector_search env question k ;;
  synthesize_answer env question hits.

(* ================================================================== *)
(** * app/api.py                                                       *)
(* ================================================================== *)

(** [ingest_endpoint]: the uploaded file is its name and, for each page,
    the text that the extraction gives; the answer is the pair of
    ["doc_id"] and ["chunks"]. The sizes are the defaults of [ingest_pdf]. *)
Definition ingest_endpoint (mem : nat) (env : Env) (filename : str)
           (pdf : list (option str)) : M (str * Z) :=
  doc_id <- lift (deterministic_id [filename]) ;;
  count <- ingest_pdf mem env pdf doc_id filename default_chunk_size default_overlap ;;
  ret (doc_id, count).

(** [query_endpoint] *)
Definition query_endpoint (env : Env) (q : str) (k : Z) : M answer_dict :=
  rag_query env q k.

(* ================================================================== *)
(** * frontend/streamlit_app.py                                        *)
(* ================================================================== *)

(** What the page shows in reaction to a button. *)
Inductive ui_message :=
| UiError (msg : str)
| UiTraceback (e : exn)
| UiWrite (msg : str).

(** A value that [st.slider(label, min, max, value, step)] can return. *)
Definition slider_value (lo hi step v : Z) : Prop :=
  (lo <= v <= hi)%Z /\ ((v - lo) mod step = 0)%Z.

(** The two sliders of the sidebar. *)
Definition chunk_size_slider (v : Z) : Prop := slider_value 600 2400 100 v.
Definition overlap_slider (v : Z) : Prop := slider_value 0 600 50 v.

(** The [for f in files] loop of the "Build / Update Index" button, inside
    its [try]: [total] is [total_chunks] so far and [shown] what [st.write]
    has shown so far; the first exception ends the loop. The ellipsis and
    the arrow of the messages are the code points 8230 and 8594. *)
Fixpoint index_loop (mem : nat) (env : Env) (files : list (str * list (option str)))
         (chunk_size overlap : Z) (total : Z) (shown : list ui_message) (st : state)
  : (result Z * list ui_message) * state :=
  match files with
  | [] => ((Ok total, shown), st)
  | (name, pdf) :: rest =>
      let shown := shown ++ [UiWrite (lit "Processing **" ++ name ++ lit "** " ++ [8230%N])] in
      match deterministic_id [name] with
      | Raise e => ((Raise e, shown), st)
      | Ok doc_id =>
          match ingest_pdf mem env pdf doc_id name chunk_size overlap st with
          | (Raise e, st') => ((Raise e, shown), st')
          | (Ok count, st') =>
              index_loop mem env rest chunk_size overlap (total + count)
                (shown ++ [UiWrite ([8594%N] ++ lit " " ++ str_of_int count
                                    ++ lit " chunks added/updated")])
                st'
          end
      end
  end.

(** The "Build / Update Index" button: what is shown, and the state. The
    [except Exception] of the button catches every exception of the model,
    [MemoryError] included. *)
Definition on_build_index (mem : nat) (env : Env) (files : list (str * list (option str)))
           (chunk_size overlap : Z) (st : state)
  : list ui_message * state :=
  match files with
  | [] => ([UiError (lit "Please upload at least one PDF.")], st)
  | _ =>
      match index_loop mem env files chunk_size overlap 0 [] st with
      | ((Ok total, shown), st') =>
          (shown
           ++ [UiWrite (lit "Indexed " ++ str_of_int (Z.of_nat (length files))
                        ++ lit " file(s), " ++ str_of_int total
                        ++ lit " chunks total in this run.")], st')
      | ((Raise e, shown), st') =>
          (shown
           ++ [UiWrite (lit "Indexing failed");
               UiError (lit "Something went wrong while indexing. See details below.");
               UiTraceback e], st')
      end
  end.

(** The "Search & Synthesize" button: the new [session_state.last_out], what
    is shown, and the state. *)
Definition on_search (env : Env) (q : str) (k : Z) (last_out : option answer_dict)
           (st : state) : (option answer_dict * list ui_message) * state :=
  match strip q with
  | [] => ((last_out, [UiError (lit "Please enter a question.")]), st)
  | _ =>
      match rag_query env q k st with
      | (Ok out, st') => ((Some out, []), st')
      | (Raise e, st') =>
          ((last_out,
            [UiError (lit "Something went wrong while answering. See details below.");
             UiTraceback e]), st')
      end
  end.

(* ================================================================== *)
(** * Vocabulary of the properties                                     *)
(* ================================================================== *)

(** Every white-space character of [s] is a space and no two are adjacent;
    [after_ws] tells whether a white-space character precedes [s]. *)
Fixpoint single_spaced (after_ws : bool) (s : str) : Prop :=
  match s with
  | [] => True
  | c :: r =>
      if isspace c then c = space /\ after_ws = false /\ single_spaced true r
      else single_spaced false r
  end.

(** [s.split()]: the maximal runs of visible characters; [cur] is the word
    being read. *)
Fixpoint split_ws (cur : str) (s : str) : list str :=
  match s with
  | [] => match cur with [] => [] | _ => [cur] end
  | c :: r =>
      if isspace c
      then match cur with
           | [] => split_ws [] r
           | _ => cur :: split_ws [] r
           end
      else split_ws (cur ++ [c]) r
  end.

Definition words (s : str) : list str := split_ws [] s.

(** The characters that are not white space, in order. *)
Definition visible (s : str) : str := filter (fun c => negb (isspace c)) s.

(** A string that [encode("utf-8")] accepts: code points up to U+10FFFF that
    are not surrogates. *)
Definition encodable_char (c : char) : Prop :=
  (c < 55296 \/ 57343 < c <= 1114111)%N.
Definition encodable (s : str) : Prop := Forall encodable_char s.

(** The code point that a UTF-8 byte string starts with, and the bytes after
    it: the inverse of [encode_char]. *)
Definition decode_char (bs : bytes) : option (char * bytes) :=
  match bs with
  | [] => None
  | b0 :: r0 =>
      if b0 <? 128 then Some (b0, r0)
      else if b0 <? 224 then
        match r0 with
        | b1 :: r1 => Some ((b0 - 192) * 64 + (b1 - 128), r1)
        | _ => None
        end
      else if b0 <? 240 then
        match r0 with
        | b1 :: b2 :: r2 => Some ((b0 - 224) * 4096 + (b1 - 128) * 64 + (b2 - 128), r2)
        | _ => None
        end
      else
        match r0 with
        | b1 :: b2 :: b3 :: r3 =>
            Some ((b0 - 240) * 262144 + (b1 - 128) * 4096 + (b2 - 128) * 64 + (b3 - 128), r3)
        | _ => None
        end
  end%N.

(** A lower-case hexadecimal digit. *)
Definition hex_char (c : char) : Prop :=
  (48 <= c <= 57 \/ 97 <= c <= 102)%N.

(** The operation that [upsert_chunks] builds for one chunk and its vector. *)
Definition op_of_chunk (doc_id doc_name : str) (pr : (Z * str) * vector) (op : UpdateOne) : Prop :=
  let '((page, text), emb) := pr in
  chunk_id_of doc_id page text = Ok (filt_chunk_id op)
  /\ filt_doc_id op = doc_id
  /\ set_fields op
     = {| cd_doc_id := doc_id;
          cd_chunk_id := filt_chunk_id op;
          cd_text := text;
          cd_embedding := emb;
          cd_metadata := {| md_doc_name := Some doc_name; md_page := Some page |} |}.

(** The two texts of a page used to illustrate re-ingestion: 1300 characters,
    of which the one at offset 100 changes. *)
Definition page_before : str := repeat 97%N 1300.
Definition page_after : str := repeat 97%N 100 ++ [98%N] ++ repeat 97%N 1199.

(** Context assembly in the words of the specification: the label of the
    document and of the page with their placeholders, the header line, and
    the blocks joined by a blank line. The header format is a parameter. *)
Definition doc_label (r : hit) : str :=
  match hit_metadata r with
  | Some {| md_doc_name := Some name |} => name
  | _ => lit "Doc"
  end.

Definition page_label (r : hit) : str :=
  match hit_metadata r with
  | Some {| md_page := Some p |} => str_of_int p
  | _ => lit "?"
  end.

Definition raw_text (r : hit) : str :=
  match hit_text r with Some t => t | None => [] end.

Definition plain_header (r : hit) : str :=
  lit "Source: " ++ doc_label r ++ lit ", Page " ++ page_label r.

Definition bracketed_header (r : hit) : str :=
  lit "[" ++ plain_header r ++ lit "]".

Definition assemble (header : hit -> str) (hits : list hit) : str :=
  join (nl ++ nl) (map (fun r => header r ++ nl ++ raw_text r) hits).

(** The state after some more requests. *)
Definition logged (st : state) (evs : list event) : state :=
  {| collection := collection st; log := log st ++ evs; db := db st |}.

(** A request that writes to the collection. *)
Definition is_write (e : event) : Prop :=
  match e with
  | BulkWrite _ => True
  | _ => False
  end.

(** A request to the embedding collaborator. *)
Definition is_embed_request (e : event) : Prop :=
  match e with
  | EmbedContent _ _ => True
  | _ => False
  end.

(** The embedding step of an ingestion fails: the key is absent, or the
    collaborator raises on one of the texts. *)
Definition embedding_fails (env : Env) (texts : list str) : Prop :=
  GEMINI_API_KEY env = []
  \/ Exists (fun t => genai_embed_content env (EMBED_MODEL env) t = None) texts.

(** Environments for the examples: collaborators that always answer, a
    server that applies the operations in the order of the list, and the
    key, the generated response and the URI check as given. *)
Definition env_with (key : str) (resp : response) (uri_ok : bool) : Env :=
  {| GEMINI_API_KEY := key;
     EMBED_MODEL := lit "text-embedding-004";
     GEN_MODEL := lit "gemini-2.5-flash";
     MONGODB_URI := Some (lit "mongodb://localhost:27017");
     DB_NAME := lit "kb_rag";
     COL_NAME := lit "chunks";
     genai_embed_content := fun _ _ => Some [];
     genai_generate_content := fun _ _ => Some resp;
     atlas_vector_search := fun _ _ _ _ => Some [];
     MongoClient_accepts := fun _ => uri_ok;
     mongo_bulk_write := fun _ ops => (repeat 0%nat (length ops), true) |}.

Definition env_ok : Env := env_with (lit "key") (Text (lit "ok")) true.
Definition env_no_key : Env := env_with [] (Text (lit "ok")) true.


(** A URI that the client refuses. *)
Definition env_bad_uri : Env := env_with (lit "key") (Text (lit "ok")) false.

(** A server that applies the operations last to first, and one that
    applies the first operation only and then fails. *)
Definition env_reversed : Env :=
  {| GEMINI_API_KEY := lit "key";
     EMBED_MODEL := lit "text-embedding-004";
     GEN_MODEL := lit "gemini-2.5-flash";
     MONGODB_URI := Some (lit "mongodb://localhost:27017");
     DB_NAME := lit "kb_rag";
     COL_NAME := lit "chunks";
     genai_embed_content := fun _ _ => Some [];
     genai_generate_content := fun _ _ => Some (Text (lit "ok"));
     atlas_vector_search := fun _ _ _ _ => Some [];
     MongoClient_accepts := fun _ => true;
     mongo_bulk_write := fun _ ops => (rev (seq 0 (length ops)), true) |}.

Definition env_failing_write : Env :=
  {| GEMINI_API_KEY := lit "key";
     EMBED_MODEL := lit "text-embedding-004";
     GEN_MODEL := lit "gemini-2.5-flash";
     MONGODB_URI := Some (lit "mongodb://localhost:27017");
     DB_NAME := lit "kb_rag";
     COL_NAME := lit "chunks";
     genai_embed_content := fun _ _ => Some [];
     genai_generate_content := fun _ _ => Some (Text (lit "ok"));
     atlas_vector_search := fun _ _ _ _ => Some [];
     MongoClient_accepts := fun _ => true;
     mongo_bulk_write := fun _ _ => ([0%nat], false) |}.

(** The client and the handle of these environments. *)
Definition client0 : MongoClient :=
  {| client_uri := Some (lit "mongodb://localhost:27017") |}.
Definition handle0 : collection_handle :=
  {| ch_client := client0; ch_db := lit "kb_rag"; ch_col := lit "chunks" |}.

(** A process that has just started, and one that has made its client;
    both with an empty collection. *)
Definition st_fresh : state :=
  {| collection := []; log := []; db := {| _client := None; clients_made := 0 |} |}.
Definition st0 : state :=
  {| collection := []; log := []; db := {| _client := Some client0; clients_made := 1 |} |}.

Definition hit_of (name : str) (page : Z) (text : str) : hit :=
  {| hit_text := Some text;
     hit_metadata := Some {| md_doc_name := Some name; md_page := Some page |};
     hit_score := Some PrimFloat.one |}.

(** A string made of white space only (the empty string included). *)
Definition blank (s : str) : Prop := Forall (fun c => isspace c = true) s.

(** The key of a stored document and the key that an operation filters on. *)
Definition doc_key (d : chunk_doc) : str * str := (cd_doc_id d, cd_chunk_id d).
Definition op_key (op : UpdateOne) : str * str := (filt_doc_id op, filt_chunk_id op).

(** An operation whose [$set] writes the key it filters on, as the
    operations of [upsert_chunks] do. *)
Definition self_keyed (op : UpdateOne) : Prop := doc_key (set_fields op) = op_key op.

(** A collection that holds one document of another file. *)
Definition other_doc : chunk_doc :=
  {| cd_doc_id := lit "other"; cd_chunk_id := lit "x";
     cd_text := lit "kept"; cd_embedding := [];
     cd_metadata := {| md_doc_name := None; md_page := None |} |}.

Definition st_other : state :=
  {| collection := [other_doc]; log := [];
     db := {| _client := Some client0; clients_made := 1 |} |}.

(** The write of [ops] on the collection [col] goes through: the server
    applies every operation and acknowledges. *)
Definition write_acknowledged (env : Env) (col : list chunk_doc) (ops : list UpdateOne) : Prop :=
  exists sched applied,
    mongo_bulk_write env col ops = (sched, true)
    /\ run_schedule ops sched = (applied, []).

(** The identifiers that [upsert_chunks] gives to the chunks, or the
    exception in place of one. *)
Definition chunk_ids (doc_id : str) (chunks : list (Z * str)) : list (result str) :=
  map (fun c => chunk_id_of doc_id (fst c) (snd c)) chunks.

(** The bytes that [deterministic_id] hashes for a chunk. *)
Definition chunk_id_message (doc_id : str) (page : Z) (text : str) : result bytes :=
  encode_utf8 (doc_id ++ str_of_int page ++ slice text 0 64).

(** The messages that the page shows for an exception. *)
Definition shows_exception (e : exn) (shown : list ui_message) : Prop :=
  In (UiTraceback e) shown.

(** The normalised text of a page, from what [extract_text] gave for it. *)
Definition page_text (raw : option str) : str :=
  clean_text (match raw with Some x => x | None => [] end).

(** The chunks of one page, as the loop of [ingest_pdf] gets them: none for
    a page without text, those of [chunk_text] otherwise. *)
Definition page_group (fuel : nat) (chunk_size overlap : Z)
           (raw : option str) (chs : list str) : Prop :=
  match page_text raw with
  | [] => chs = []
  | t => chunk_text fuel t chunk_size overlap = Some chs
  end.

(** The chunks of consecutive pages, each with its page number, from page
    [i] on. *)
Fixpoint tagged (i : Z) (groups : list (list str)) : list (Z * str) :=
  match groups with
  | [] => []
  | g :: rest => map (pair i) g ++ tagged (i + 1) rest
  end.

(** The chunks that carry page number [q]. *)
Definition chunks_of_page (q : Z) (all_chunks : list (Z * str)) : list str :=
  map snd (filter (fun pc => (fst pc =? q)%Z) all_chunks).

(* ================================================================== *)
(** * Checks by evaluation                                             *)
(* ================================================================== *)

(** The constants, against the tables of FIPS 180-4. *)
Example sha256_constants :
  firstn 4 SHA256.K = [0x428a2f98; 0x71374491; 0xb5c0fbcf; 0xe9b5dba5]%N
  /\ skipn 62 SHA256.K = [0xbef9a3f7; 0xc67178f2]%N
  /\ SHA256.ra SHA256.initial_hash = 0x6a09e667%N
  /\ SHA256.rh SHA256.initial_hash = 0x5be0cd19%N.
Proof. repeat split. Qed.

Example sha256_abc :
  hexdigest (update hashlib_sha256 (lit "abc"))
  = lit "ba7816bf8f01cfea414140de5dae2223b00361a396177a9cb410ff61f20015ad".
Proof. vm_compute. reflexivity. Qed.

Example sha256_empty :
  hexdigest hashlib_sha256
  = lit "e3b0c44298fc1c149afbf4c8996fb92427ae41e4649b934ca495991b7852b855".
Proof. vm_compute. reflexivity. Qed.

(** A message of two blocks (FIPS 180-4 test vector), and the encoder on
    characters of two, three and four bytes. *)
Example sha256_two_blocks :
  hexdigest (update hashlib_sha256
               (lit "abcdbcdecdefdefgefghfghighijhijkijkljklmklmnlmnomnopnopq"))
  = lit "248d6a61d20638b8e5c026930c3e6039a33ce45964ff2167f6ecedd419db06c1".
Proof. vm_compute. reflexivity. Qed.

Example encode_utf8_examples :
  encode_utf8 [233; 8364; 128512]%N
  = Ok [195; 169; 226; 130; 172; 240; 159; 152; 128]%N
  /\ encode_utf8 [55296%N] = Raise UnicodeEncodeError
  /\ deterministic_id [[233; 8364; 128512]%N] = Ok (lit "df9226927fd572c1").
Proof. vm_compute. repeat split. Qed.

(** Scenarios A and C of the specification, by evaluation. *)
Example scenario_A :
  chunk_text 10 (lit "abcdefghij") 4 1
  = Some [lit "abcd"; lit "defg"; lit "ghij"].
Proof. reflexivity. Qed.

Example scenario_C :
  clean_text ([space; space] ++ lit "a" ++ [newline; 9%N] ++ lit "b   c ")
  = lit "a b c".
Proof. reflexivity. Qed.

(* ================================================================== *)
(** * Strings: strip                                                   *)
(* ================================================================== *)

Lemma lstrip_length (s : str) : (length (lstrip s) <= length s)%nat.
Proof.
  induction s as [|c r IH]; simpl; [lia|].
  destruct (isspace c); simpl; lia.
Qed.

Lemma lstrip_idem (s : str) : lstrip (lstrip s) = lstrip s.
Proof.
  induction s as [|c r IH]; simpl; [reflexivity|].
  destruct (isspace c) eqn:Hc; [exact IH|].
  simpl. now rewrite Hc.
Qed.

Lemma rstrip_idem (s : str) : rstrip (rstrip s) = rstrip s.
Proof.
  induction s as [|c r IH]; simpl; [reflexivity|].
  destruct (rstrip r) as [|x l] eqn:Hr.
  - destruct (isspace c) eqn:Hc; simpl; [reflexivity|now rewrite Hc].
  - change (rstrip (c :: x :: l)) with
      (match rstrip (x :: l) with
       | [] => if isspace c then [] else [c]
       | r' => c :: r'
       end).
    now rewrite IH.
Qed.

(** A string without leading white space keeps that property under [rstrip]. *)
Lemma lstrip_rstrip_fixed (s : str) : lstrip s = s -> lstrip (rstrip s) = rstrip s.
Proof.
  destruct s as [|c r]; [reflexivity|].
  simpl. destruct (isspace c) eqn:Hc.
  - intros H. pose proof (lstrip_length r) as Hl. rewrite H in Hl. simpl in Hl. lia.
  - intros _. destruct (rstrip r); simpl; now rewrite Hc.
Qed.

Lemma strip_idem (s : str) : strip (strip s) = strip s.
Proof.
  unfold strip.
  rewrite (lstrip_rstrip_fixed (lstrip s) (lstrip_idem s)).
  apply rstrip_idem.
Qed.

Lemma lstrip_app (a b : str) :
  lstrip (a ++ b) = match lstrip a with [] => lstrip b | x => x ++ b end.
Proof.
  induction a as [|c r IH]; simpl.
  - destruct (lstrip b); reflexivity.
  - destruct (isspace c); [exact IH|reflexivity].
Qed.

(** [rstrip] is [lstrip] read from the right. *)
Lemma rstrip_rev (s : str) : rstrip s = rev (lstrip (rev s)).
Proof.
  induction s as [|c r IH]; simpl; [reflexivity|].
  rewrite lstrip_app, IH.
  destruct (lstrip (rev r)) as [|x l] eqn:Hl; simpl.
  - destruct (isspace c); reflexivity.
  - rewrite rev_app_distr. simpl.
    destruct (rev l ++ [x]) eqn:E; [|reflexivity].
    destruct (rev l); discriminate.
Qed.

Lemma visible_lstrip (s : str) : visible (lstrip s) = visible s.
Proof.
  induction s as [|c r IH]; simpl; [reflexivity|].
  destruct (isspace c) eqn:Hc; simpl; rewrite ?Hc; simpl; [exact IH|reflexivity].
Qed.

Lemma visible_rstrip (s : str) : visible (rstrip s) = visible s.
Proof.
  induction s as [|c r IH]; simpl; [reflexivity|].
  destruct (rstrip r) as [|x l] eqn:Hr.
  - rewrite <- IH. destruct (isspace c) eqn:Hc; simpl; rewrite ?Hc; reflexivity.
  - change (visible (c :: x :: l)) with
      (if negb (isspace c) then c :: visible (x :: l) else visible (x :: l)).
    now rewrite IH.
Qed.

(* ================================================================== *)
(** * clean_text                                                       *)
(* ================================================================== *)

Lemma ws_sub_single_spaced (s : str) (b : bool) :
  single_spaced b (ws_sub b (lit " ") s).
Proof.
  revert b. induction s as [|c r IH]; intros b; simpl; [trivial|].
  destruct (isspace c) eqn:Hc.
  - destruct b; [apply IH|].
    change (single_spaced false (space :: ws_sub true (lit " ") r)).
    simpl. repeat split. apply IH.
  - simpl. rewrite Hc. apply IH.
Qed.

Lemma ws_sub_fixed (s : str) (b : bool) :
  single_spaced b s -> ws_sub b (lit " ") s = s.
Proof.
  revert b. induction s as [|c r IH]; intros b; simpl; [reflexivity|].
  destruct (isspace c) eqn:Hc.
  - intros (-> & -> & H). change (lit " " ++ ?x) with (space :: x).
    now rewrite (IH true H).
  - intros H. now rewrite (IH false H).
Qed.

Lemma single_spaced_lstrip (s : str) (b : bool) :
  single_spaced b s -> single_spaced false (lstrip s).
Proof.
  revert b. induction s as [|c r IH]; intros b; simpl; [trivial|].
  destruct (isspace c) eqn:Hc.
  - intros (_ & _ & H). exact (IH true H).
  - intros H. simpl. now rewrite Hc.
Qed.

Lemma single_spaced_rstrip (s : str) (b : bool) :
  single_spaced b s -> single_spaced b (rstrip s).
Proof.
  revert b. induction s as [|c r IH]; intros b; simpl; [trivial|].
  destruct (isspace c) eqn:Hc.
  - intros (H1 & H2 & H). specialize (IH true H).
    destruct (rstrip r) as [|x l]; [exact I|].
    change (single_spaced b (c :: x :: l)) with
      (if isspace c then c = space /\ b = false /\ single_spaced true (x :: l)
       else single_spaced false (x :: l)).
    rewrite Hc. auto.
  - intros H. specialize (IH false H).
    destruct (rstrip r) as [|x l].
    + simpl. now rewrite Hc.
    + change (single_spaced b (c :: x :: l)) with
        (if isspace c then c = space /\ b = false /\ single_spaced true (x :: l)
         else single_spaced false (x :: l)).
      now rewrite Hc.
Qed.

Lemma clean_text_single_spaced (x : str) : single_spaced false (clean_text x).
Proof.
  unfold clean_text, strip, WHITESPACE_RE_sub.
  apply single_spaced_rstrip.
  apply (single_spaced_lstrip _ false).
  apply ws_sub_single_spaced.
Qed.

Lemma visible_ws_sub (s : str) (b : bool) : visible (ws_sub b (lit " ") s) = visible s.
Proof.
  revert b. induction s as [|c r IH]; intros b; simpl; [reflexivity|].
  destruct (isspace c) eqn:Hc; simpl.
  - destruct b; apply IH.
  - rewrite Hc. simpl. now rewrite IH.
Qed.

Lemma split_ws_ws_sub (s : str) :
  (forall cur, split_ws cur (ws_sub false (lit " ") s) = split_ws cur s)
  /\ split_ws [] (ws_sub true (lit " ") s) = split_ws [] s.
Proof.
  induction s as [|c r [IH1 IH2]]; [split; reflexivity|].
  simpl. destruct (isspace c) eqn:Hc.
  - split; [|exact IH2].
    intros cur. change (lit " " ++ ?x) with (space :: x).
    simpl. rewrite IH2. reflexivity.
  - split; [intros cur|]; simpl; rewrite Hc; apply IH1.
Qed.

Lemma split_ws_lstrip (s : str) : split_ws [] (lstrip s) = split_ws [] s.
Proof.
  induction s as [|c r IH]; simpl; [reflexivity|].
  destruct (isspace c) eqn:Hc; [exact IH|].
  simpl. now rewrite Hc.
Qed.

Lemma split_ws_rstrip (s : str) : forall cur, split_ws cur (rstrip s) = split_ws cur s.
Proof.
  induction s as [|c r IH]; intros cur; [reflexivity|].
  change (rstrip (c :: r)) with
    (match rstrip r with
     | [] => if isspace c then [] else [c]
     | r' => c :: r'
     end).
  destruct (rstrip r) as [|x l] eqn:Hr.
  - destruct (isspace c) eqn:Hc; simpl; rewrite Hc.
    + rewrite <- (IH []). reflexivity.
    + rewrite <- (IH (cur ++ [c])). reflexivity.
  - change (split_ws cur (c :: x :: l)) with
      (if isspace c
       then match cur with
            | [] => split_ws [] (x :: l)
            | _ => cur :: split_ws [] (x :: l)
            end
       else split_ws (cur ++ [c]) (x :: l)).
    rewrite !IH. reflexivity.
Qed.

Lemma words_clean_text (x : str) : words (clean_text x) = words x.
Proof.
  unfold words, clean_text, strip, WHITESPACE_RE_sub.
  rewrite split_ws_rstrip, split_ws_lstrip. apply split_ws_ws_sub.
Qed.

(** C9. [clean_text] is idempotent, and its result is in normal form: every
    white-space character left is a single space between two visible
    characters, nothing is left to trim, and the words of the input (its
    runs of visible characters) are all there, in order. *)
Theorem clean_text_idempotent (x : str) :
  clean_text (clean_text x) = clean_text x
  /\ single_spaced false (clean_text x)
  /\ strip (clean_text x) = clean_text x
  /\ words (clean_text x) = words x
  /\ visible (clean_text x) = visible x.
Proof.
  assert (Hs := clean_text_single_spaced x).
  split; [|split; [exact Hs|split; [|split]]].
  - unfold clean_text at 1. unfold WHITESPACE_RE_sub.
    rewrite (ws_sub_fixed _ _ Hs).
    unfold clean_text. apply strip_idem.
  - unfold clean_text. apply strip_idem.
  - apply words_clean_text.
  - unfold clean_text, strip, WHITESPACE_RE_sub.
    now rewrite visible_rstrip, visible_lstrip, visible_ws_sub.
Qed.

(** The words of Scenario C. *)
Example scenario_C_words :
  words ([space; space] ++ lit "a" ++ [newline; 9%N] ++ lit "b   c ")
  = [lit "a"; lit "b"; lit "c"].
Proof. reflexivity. Qed.

(* ================================================================== *)
(** * Slices                                                           *)
(* ================================================================== *)

Lemma slice_in_range (s : str) (lo hi : Z) :
  (0 <= lo <= hi)%Z -> (hi <= len s)%Z ->
  slice s lo hi = firstn (Z.to_nat (hi - lo)) (skipn (Z.to_nat lo) s).
Proof.
  intros H1 H2. unfold slice, adjust_index.
  destruct (Z.ltb_spec lo 0); [lia|].
  destruct (Z.ltb_spec hi 0); [lia|].
  now rewrite !Z.min_l by lia.
Qed.

Lemma len_slice (s : str) (lo hi : Z) :
  (0 <= lo <= hi)%Z -> (hi <= len s)%Z -> len (slice s lo hi) = (hi - lo)%Z.
Proof.
  intros H1 H2. rewrite slice_in_range by assumption.
  unfold len in *. rewrite length_firstn, length_skipn. lia.
Qed.

(** Two adjacent windows of a string: what is left of [s[a:c]] after its
    first [b - a] characters, followed by [s[c:]], is [s[b:]]. *)
Lemma skipn_slice_app (s : str) (a b c : Z) :
  (0 <= a <= b)%Z -> (b <= c)%Z -> (c <= len s)%Z ->
  skipn (Z.to_nat (b - a)) (slice s a c) ++ skipn (Z.to_nat c) s
  = skipn (Z.to_nat b) s.
Proof.
  intros H1 H2 H3. rewrite slice_in_range by lia.
  rewrite skipn_firstn_comm, skipn_skipn.
  replace (Z.to_nat (b - a) + Z.to_nat a)%nat with (Z.to_nat b) by lia.
  replace (Z.to_nat c) with (Z.to_nat (c - a) - Z.to_nat (b - a) + Z.to_nat b)%nat by lia.
  rewrite <- skipn_skipn. apply firstn_skipn.
Qed.

(* ================================================================== *)
(** * chunk_text                                                       *)
(* ================================================================== *)

Section ChunkLoop.

Variable text : str.
Variables chunk_size overlap : Z.

Let n := len text.

(** With [0 <= overlap < chunk_size] the window moves right at every turn:
    the loop leaves within [n - start] turns, and what it appends covers
    the rest of the text. *)
Lemma chunk_loop_covers :
  (0 <= overlap < chunk_size)%Z ->
  forall (fuel : nat) (start : Z) (acc : list str),
    (0 <= start < n)%Z -> (n - start <= Z.of_nat fuel)%Z ->
    exists rest,
      chunk_loop fuel text n chunk_size overlap start acc
      = Some (acc ++ slice text start (Z.min (start + chunk_size) n) :: rest)
      /\ drop_overlaps overlap rest
         = skipn (Z.to_nat (Z.min (start + chunk_size) n)) text
      /\ Forall (fun c => (len c <= chunk_size)%Z) rest
      /\ exists s, (start <= s < n)%Z
                   /\ last (slice text start (Z.min (start + chunk_size) n) :: rest) []
                      = slice text s n.
Proof.
  intros Hov. induction fuel as [|fuel IH]; intros start acc Hs Hf; [lia|].
  simpl. destruct (Z.ltb_spec start n) as [_|]; [|lia].
  destruct (Z.eqb_spec (Z.min (start + chunk_size) n) n) as [He|He].
  - exists []. rewrite He. repeat split.
    + unfold drop_overlaps. simpl. symmetry. apply skipn_all2. subst n. unfold len. lia.
    + constructor.
    + exists start. split; [lia|reflexivity].
  - assert (Hend : Z.min (start + chunk_size) n = (start + chunk_size)%Z) by lia.
    rewrite Hend in *.
    assert (Hnext : Z.max 0 (start + chunk_size - overlap) = (start + chunk_size - overlap)%Z) by lia.
    rewrite Hnext.
    set (start' := (start + chunk_size - overlap)%Z).
    destruct (IH start' (acc ++ [slice text start (start + chunk_size)]))
      as (rest & Hrun & Hcov & Hlen & s & Hs' & Hlast); [subst start'; lia..|].
    set (w' := slice text start' (Z.min (start' + chunk_size) n)) in *.
    exists (w' :: rest). repeat split.
    + rewrite Hrun, <- app_assoc. reflexivity.
    + unfold drop_overlaps in *. simpl. rewrite Hcov.
      replace (Z.to_nat overlap) with (Z.to_nat (start + chunk_size - start')) by (subst start'; f_equal; lia).
      subst w'. apply skipn_slice_app; subst start' n; lia.
    + constructor; [|assumption].
      subst w'. rewrite len_slice; subst start' n; lia.
    + exists s. split; [subst start'; lia|exact Hlast].
Qed.

(** With [chunk_size <= overlap] and a text longer than one chunk, [start]
    is reset to 0 at every turn: the loop never leaves. *)
Lemma chunk_loop_stuck :
  (0 < chunk_size <= overlap)%Z -> (chunk_size < n)%Z ->
  forall (fuel : nat) (acc : list str),
    chunk_loop fuel text n chunk_size overlap 0 acc = None.
Proof.
  intros Hov Hn. induction fuel as [|fuel IH]; intros acc; [reflexivity|].
  simpl. destruct (Z.ltb_spec 0 n) as [_|]; [|lia].
  rewrite Z.min_l by lia.
  destruct (Z.eqb_spec chunk_size n) as [|_]; [lia|].
  rewrite Z.max_l by lia. apply IH.
Qed.

(** More fuel does not change what the loop returns. *)
Lemma chunk_loop_more_fuel (fuel fuel' : nat) (start : Z) (acc r : list str) :
  (fuel <= fuel')%nat ->
  chunk_loop fuel text n chunk_size overlap start acc = Some r ->
  chunk_loop fuel' text n chunk_size overlap start acc = Some r.
Proof.
  revert fuel' start acc. induction fuel as [|fuel IH]; intros fuel' start acc Hle; [discriminate|].
  destruct fuel' as [|fuel']; [lia|]. simpl.
  destruct (start <? n)%Z; [|trivial].
  destruct (Z.min (start + chunk_size) n =? n)%Z; [trivial|].
  apply IH. lia.
Qed.

End ChunkLoop.

(** [chunk_text] never returns when [overlap >= chunk_size] and the trimmed
    text is longer than one chunk. *)
Lemma chunk_text_never_returns (text : str) (chunk_size overlap : Z) :
  (0 < chunk_size <= overlap)%Z -> (chunk_size < len (strip text))%Z ->
  forall fuel, chunk_text fuel text chunk_size overlap = None.
Proof.
  intros Hov Hn fuel. unfold chunk_text.
  destruct (strip text) as [|c r] eqn:E; [unfold len in Hn; simpl in Hn; lia|].
  now apply chunk_loop_stuck.
Qed.

(** C1 (as amended). For [0 <= overlap < chunk_size], [chunk_text] returns
    (any fuel from the length of the trimmed text on is enough), and its
    chunks, de-overlapped, give back the text trimmed of leading and trailing
    white space, hence the text itself when it has none; no chunk is longer
    than [chunk_size]; and the last chunk ends at the length of the trimmed
    text. *)
Theorem chunk_text_coverage (text : str) (chunk_size overlap : Z) :
  (0 <= overlap < chunk_size)%Z ->
  exists chunks,
    (forall fuel, (length (strip text) <= fuel)%nat ->
                  chunk_text fuel text chunk_size overlap = Some chunks)
    /\ deoverlap overlap chunks = strip text
    /\ (strip text = text -> deoverlap overlap chunks = text)
    /\ Forall (fun c => (len c <= chunk_size)%Z) chunks
    /\ (strip text <> [] ->
        exists s, (0 <= s < len (strip text))%Z
                  /\ last chunks [] = slice (strip text) s (len (strip text))).
Proof.
  intros Hov. unfold chunk_text.
  destruct (strip text) as [|c r] eqn:E.
  - exists []. repeat split; auto. congruence.
  - set (t := c :: r) in *.
    assert (Hpos : (0 <= 0 < len t)%Z) by (unfold len; simpl; lia).
    destruct (chunk_loop_covers t chunk_size overlap Hov (length t) 0 [] Hpos)
      as (rest & Hrun & Hcov & Hlen & s & Hs & Hlast); [unfold len; lia|].
    set (w := slice t 0 (Z.min (0 + chunk_size) (len t))) in *.
    assert (Hrec : deoverlap overlap (w :: rest) = t).
    { simpl. rewrite Hcov. subst w.
      rewrite slice_in_range by lia. rewrite Z.sub_0_r. simpl skipn at 1.
      apply firstn_skipn. }
    exists (w :: rest). repeat split.
    + intros fuel Hfuel.
      now apply (chunk_loop_more_fuel t chunk_size overlap (length t)).
    + exact Hrec.
    + intros <-. exact Hrec.
    + constructor; [|assumption]. subst w. rewrite len_slice; lia.
    + intros _. exists s. split; [lia|exact Hlast].
Qed.

(** The theorem at Scenario A. *)
Lemma chunk_text_coverage_witness :
  (0 <= 1 < 4)%Z
  /\ exists chunks,
       (forall fuel, (length (strip (lit "abcdefghij")) <= fuel)%nat ->
                     chunk_text fuel (lit "abcdefghij") 4 1 = Some chunks)
       /\ deoverlap 1 chunks = strip (lit "abcdefghij")
       /\ (strip (lit "abcdefghij") = lit "abcdefghij" ->
           deoverlap 1 chunks = lit "abcdefghij")
       /\ Forall (fun c => (len c <= 4)%Z) chunks
       /\ (strip (lit "abcdefghij") <> [] ->
           exists s, (0 <= s < len (strip (lit "abcdefghij")))%Z
                     /\ last chunks []
                        = slice (strip (lit "abcdefghij")) s (len (strip (lit "abcdefghij")))).
Proof.
  split; [lia|].
  apply (chunk_text_coverage (lit "abcdefghij") 4 1). lia.
Defined.

(** C1, as it was stated, fails on a text that ends with white space:
    [chunk_text] trims it first, so the chunks of ["a "] (length 2) give
    back ["a"], and the only chunk ends at position 1: it is no [text[s:2]]. *)
Lemma chunk_text_untrimmed_not_reconstructed :
  chunk_text 1 (lit "a ") default_chunk_size default_overlap = Some [lit "a"]
  /\ forall fuel chunks,
       chunk_text fuel (lit "a ") default_chunk_size default_overlap = Some chunks ->
       deoverlap default_overlap chunks <> lit "a "
       /\ forall s, (0 <= s < len (lit "a "))%Z ->
                    last chunks [] <> slice (lit "a ") s (len (lit "a ")).
Proof.
  split; [reflexivity|].
  intros [|fuel] chunks; [discriminate|].
  vm_compute chunk_text. intros [= <-]. split; [discriminate|].
  intros s Hs. change (len (lit "a ")) with 2%Z in *.
  assert (Hcases : s = 0%Z \/ s = 1%Z) by lia.
  destruct Hcases as [-> | ->]; discriminate.
Qed.

(** C2. With [chunk_size = overlap = 2] the call [chunk_text("abc", 2, 2)]
    does not return, whatever the fuel: [start] goes back to 0 after the
    first chunk and the list of chunks grows for ever. *)
Theorem chunk_text_overlap_ge_size_diverges :
  forall fuel, chunk_text fuel (lit "abc") 2 2 = None.
Proof.
  apply chunk_text_never_returns; [lia|vm_compute; reflexivity].
Qed.

(** The same with the default chunk size, when the overlap is set to it. *)
Lemma chunk_text_default_size_diverges :
  forall fuel,
    chunk_text fuel (repeat 97%N 1201) default_chunk_size default_chunk_size = None.
Proof.
  apply chunk_text_never_returns; [unfold default_chunk_size; lia|vm_compute; reflexivity].
Qed.

(* ================================================================== *)
(** * deterministic_id                                                 *)
(* ================================================================== *)

Lemma encode_char_encodable (c : char) :
  encodable_char c -> exists b, encode_char c = Ok b.
Proof.
  unfold encodable_char, encode_char. intros H.
  destruct (N.ltb_spec c 128); [eauto|].
  destruct (N.ltb_spec c 2048); [eauto|].
  destruct (N.ltb_spec c 65536).
  - destruct (N.leb_spec 55296 c); simpl; [|eauto].
    destruct (N.leb_spec c 57343); [lia|eauto].
  - destruct (N.leb_spec c 1114111); [eauto|lia].
Qed.

Lemma encode_utf8_encodable (s : str) :
  encodable s -> exists b, encode_utf8 s = Ok b.
Proof.
  induction 1 as [|c r Hc _ (bs & IH)]; simpl; [eauto|].
  destruct (encode_char_encodable c Hc) as (b & ->). rewrite IH. eauto.
Qed.

(** Encoding distributes over concatenation, errors included. *)
Lemma encode_utf8_app (a b : str) :
  encode_utf8 (a ++ b)
  = match encode_utf8 a with
    | Raise e => Raise e
    | Ok x => match encode_utf8 b with
              | Raise e => Raise e
              | Ok y => Ok (x ++ y)
              end
    end.
Proof.
  induction a as [|c r IH]; simpl.
  - destruct (encode_utf8 b); reflexivity.
  - destruct (encode_char c); [|reflexivity].
    rewrite IH. destruct (encode_utf8 r); [|reflexivity].
    destruct (encode_utf8 b); [|reflexivity].
    now rewrite app_assoc.
Qed.

(** Feeding the parts one by one is feeding their concatenation. *)
Lemma feed_parts_concat (parts : list str) (m : sha256_obj) :
  feed_parts m parts
  = match encode_utf8 (concat parts) with
    | Raise e => Raise e
    | Ok b => Ok (update m b)
    end.
Proof.
  revert m. induction parts as [|p rest IH]; intros m; simpl.
  - unfold update. rewrite app_nil_r. now destruct m.
  - rewrite encode_utf8_app. destruct (encode_utf8 p) as [b|e]; [|reflexivity].
    rewrite IH. destruct (encode_utf8 (concat rest)) as [bs|e]; [|reflexivity].
    unfold update. simpl. now rewrite app_assoc.
Qed.

Lemma deterministic_id_concat (parts : list str) :
  deterministic_id parts
  = match encode_utf8 (concat parts) with
    | Raise e => Raise e
    | Ok b => Ok (slice (SHA256.hex (SHA256.digest b)) 0 16)
    end.
Proof.
  unfold deterministic_id. rewrite feed_parts_concat.
  destruct (encode_utf8 (concat parts)); reflexivity.
Qed.

Lemma be_bytes_length (k : nat) (x : N) : length (SHA256.be_bytes k x) = k.
Proof. induction k; simpl; congruence. Qed.

Lemma be_bytes_small (k : nat) (x : N) :
  Forall (fun b => (b < 256)%N) (SHA256.be_bytes k x).
Proof.
  induction k; simpl; constructor; [|assumption].
  change 255%N with (N.ones 8). rewrite N.land_ones.
  apply N.mod_lt. discriminate.
Qed.

Lemma be_words_length (ws : list N) :
  length (concat (map (SHA256.be_bytes 4) ws)) = (4 * length ws)%nat.
Proof.
  induction ws as [|x r IH]; [reflexivity|].
  cbn [map concat length]. rewrite length_app, be_bytes_length, IH. lia.
Qed.

Lemma be_words_small (ws : list N) :
  Forall (fun b => (b < 256)%N) (concat (map (SHA256.be_bytes 4) ws)).
Proof.
  induction ws as [|x r IH]; [constructor|].
  cbn [map concat]. apply Forall_app. split; [apply be_bytes_small|exact IH].
Qed.

Lemma digest_length (msg : bytes) : length (SHA256.digest msg) = 32%nat.
Proof. unfold SHA256.digest. cbv zeta. rewrite be_words_length. reflexivity. Qed.

Lemma digest_small (msg : bytes) : Forall (fun b => (b < 256)%N) (SHA256.digest msg).
Proof. unfold SHA256.digest. cbv zeta. apply be_words_small. Qed.

Lemma hex_digit_hex (d : N) : (d < 16)%N -> hex_char (SHA256.hex_digit d).
Proof.
  unfold hex_char, SHA256.hex_digit. intros H.
  destruct (N.ltb_spec d 10); lia.
Qed.

Lemma hex_length (bs : bytes) : length (SHA256.hex bs) = (2 * length bs)%nat.
Proof.
  unfold SHA256.hex. induction bs as [|b r IH]; [reflexivity|].
  cbn [flat_map]. rewrite length_app, IH. cbn [length]. lia.
Qed.

Lemma hex_hex (bs : bytes) :
  Forall (fun b => (b < 256)%N) bs -> Forall hex_char (SHA256.hex bs).
Proof.
  unfold SHA256.hex. induction 1 as [|b r Hb _ IH]; [constructor|].
  cbn [flat_map app].
  constructor; [|constructor; [|exact IH]]; apply hex_digit_hex.
  - rewrite N.shiftr_div_pow2. change (2 ^ 4)%N with 16%N.
    apply N.Div0.div_lt_upper_bound. lia.
  - change 15%N with (N.ones 4). rewrite N.land_ones. apply N.mod_lt. discriminate.
Qed.

Lemma Forall_prefix {A} (P : A -> Prop) (k : nat) (l : list A) :
  Forall P l -> Forall P (firstn k l).
Proof.
  revert l. induction k as [|k IH]; intros l H; [constructor|].
  destruct H; simpl; constructor; auto.
Qed.

Lemma hexdigest_prefix (m : sha256_obj) :
  length (slice (hexdigest m) 0 16) = 16%nat
  /\ Forall hex_char (slice (hexdigest m) 0 16).
Proof.
  assert (Hl : length (hexdigest m) = 64%nat).
  { unfold hexdigest. rewrite hex_length, digest_length. reflexivity. }
  rewrite slice_in_range by (unfold len; lia). simpl skipn. split.
  - rewrite length_firstn, Hl. reflexivity.
  - apply Forall_prefix. unfold hexdigest. apply hex_hex, digest_small.
Qed.

(** C8. [deterministic_id] is a function of its parts alone: on parts that
    can be encoded it returns one identifier, the first 16 hexadecimal digits
    of the SHA-256 of the encoded concatenation; and it is sensitive to the
    order of the parts, as on ["a"], ["b"]. *)
Theorem deterministic_id_stable_and_order_sensitive :
  (forall parts : list str, Forall encodable parts ->
     exists id b,
       deterministic_id parts = Ok id
       /\ encode_utf8 (concat parts) = Ok b
       /\ id = slice (SHA256.hex (SHA256.digest b)) 0 16
       /\ length id = 16%nat
       /\ Forall hex_char id)
  /\ deterministic_id [lit "a"; lit "b"] = Ok (lit "fb8e20fc2e4c3f24")
  /\ deterministic_id [lit "b"; lit "a"] = Ok (lit "970f519c2cadbcef")
  /\ deterministic_id [lit "a"; lit "b"] <> deterministic_id [lit "b"; lit "a"].
Proof.
  split.
  - intros parts Hparts.
    assert (Henc : encodable (concat parts)).
    { unfold encodable in *. induction Hparts; simpl; [constructor|].
      apply Forall_app. auto. }
    destruct (encode_utf8_encodable _ Henc) as (b & Hb).
    exists (slice (SHA256.hex (SHA256.digest b)) 0 16), b.
    rewrite deterministic_id_concat, Hb.
    destruct (hexdigest_prefix {| fed := b |}) as (Hl & Hh).
    repeat split; assumption.
  - assert (Hab : deterministic_id [lit "a"; lit "b"] = Ok (lit "fb8e20fc2e4c3f24"))
      by (vm_compute; reflexivity).
    assert (Hba : deterministic_id [lit "b"; lit "a"] = Ok (lit "970f519c2cadbcef"))
      by (vm_compute; reflexivity).
    split; [exact Hab|]. split; [exact Hba|].
    rewrite Hab, Hba. discriminate.
Qed.

(** The theorem used on the parts of a chunk identifier. *)
Lemma deterministic_id_stable_witness :
  exists id b,
    deterministic_id [lit "doc"; lit "1"; lit "some text"] = Ok id
    /\ encode_utf8 (concat [lit "doc"; lit "1"; lit "some text"]) = Ok b
    /\ id = slice (SHA256.hex (SHA256.digest b)) 0 16
    /\ length id = 16%nat
    /\ Forall hex_char id.
Proof.
  apply (proj1 deterministic_id_stable_and_order_sensitive).
  repeat constructor; unfold encodable_char; vm_compute; left; reflexivity.
Defined.

(** C10. Only the concatenation of the parts counts: part lists with the
    same concatenation get the same result, which is that of the
    concatenation passed as a single part. *)
Theorem deterministic_id_part_boundaries (ps qs : list str) :
  concat ps = concat qs ->
  deterministic_id ps = deterministic_id qs
  /\ deterministic_id ps = deterministic_id [concat ps].
Proof.
  intros H. rewrite !deterministic_id_concat. simpl concat.
  rewrite app_nil_r, H. split; reflexivity.
Qed.

Lemma deterministic_id_part_boundaries_witness :
  deterministic_id [lit "ab"; lit "c"] = deterministic_id [lit "a"; lit "bc"]
  /\ deterministic_id [lit "ab"; lit "c"] = deterministic_id [lit "abc"].
Proof.
  apply (deterministic_id_part_boundaries [lit "ab"; lit "c"] [lit "a"; lit "bc"]).
  reflexivity.
Defined.

(* ================================================================== *)
(** * Chunk identifiers                                                *)
(* ================================================================== *)

(** The identifier reads the text through its first 64 characters only. *)
Lemma chunk_id_of_prefix (doc_id : str) (page : Z) (text text' : str) :
  slice text 0 64 = slice text' 0 64 ->
  chunk_id_of doc_id page text = chunk_id_of doc_id page text'.
Proof. unfold chunk_id_of. now intros ->. Qed.

Lemma build_ops_spec (doc_id doc_name : str) (pairs : list ((Z * str) * vector)) :
  forall acc ops,
    build_ops doc_id doc_name pairs acc = Ok ops ->
    exists new, ops = acc ++ new /\ Forall2 (op_of_chunk doc_id doc_name) pairs new.
Proof.
  induction pairs as [|[[page text] emb] rest IH]; intros acc ops; simpl.
  - intros [= <-]. exists []. now rewrite app_nil_r.
  - destruct (chunk_id_of doc_id page text) as [cid|e] eqn:Hcid; [|discriminate].
    intros H. destruct (IH _ _ H) as (new & -> & Hnew).
    eexists (_ :: new). rewrite <- app_assoc. split; [reflexivity|].
    constructor; [|exact Hnew]. simpl. auto.
Qed.

Lemma Forall2_nth_error_left {A B} (R : A -> B -> Prop) (l : list A) (l' : list B) :
  Forall2 R l l' ->
  forall j x, nth_error l j = Some x -> exists y, nth_error l' j = Some y /\ R x y.
Proof.
  induction 1 as [|x0 y0 l l' Hxy _ IH]; intros [|j] x; simpl; try discriminate.
  - intros [= <-]. eauto.
  - apply IH.
Qed.

Lemma Ok_inj {A} (a b : A) : Ok a = Ok b -> a = b.
Proof. now intros [= ->]. Qed.

(** A property of the numbers below [n], checked on each of them. *)
Lemma N_below_check (P : N -> bool) (n : nat) :
  forallb P (map N.of_nat (seq 0 n)) = true ->
  forall y, (y < N.of_nat n)%N -> P y = true.
Proof.
  intros H y Hy. rewrite forallb_forall in H. apply H.
  apply in_map_iff. exists (N.to_nat y). split; [apply N2Nat.id|].
  apply in_seq. lia.
Qed.

Lemma lor_lead (a y : N) (n : nat) :
  forallb (fun y => N.lor a y =? a + y)%N (map N.of_nat (seq 0 n)) = true ->
  (y < N.of_nat n)%N -> N.lor a y = (a + y)%N.
Proof.
  intros H Hy. apply N.eqb_eq.
  exact (N_below_check (fun y => N.lor a y =? a + y)%N n H y Hy).
Qed.

Lemma cont_byte (x : N) : N.lor 128 (N.land x 63) = (128 + x mod 64)%N.
Proof.
  change 63%N with (N.ones 6). rewrite N.land_ones. change (2 ^ 6)%N with 64%N.
  apply (lor_lead 128 _ 64); [vm_compute; reflexivity|].
  change (N.of_nat 64) with 64%N. apply N.mod_lt. discriminate.
Qed.

(** UTF-8 can be decoded: the bytes of a code point, followed by any bytes,
    give back the code point and those bytes. *)
Lemma decode_encode_char (c : char) (b rest : bytes) :
  encode_char c = Ok b -> decode_char (b ++ rest) = Some (c, rest).
Proof.
  unfold encode_char. cbv zeta. rewrite !cont_byte, N.shiftr_0_r.
  replace (N.shiftr c 12) with (N.shiftr (N.shiftr c 6) 6) by now rewrite N.shiftr_shiftr.
  replace (N.shiftr c 18) with (N.shiftr (N.shiftr (N.shiftr c 6) 6) 6)
    by now rewrite !N.shiftr_shiftr.
  rewrite !(N.shiftr_div_pow2 _ 6). change (2 ^ 6)%N with 64%N.
  pose proof (N.Div0.div_mod c 64) as H1.
  pose proof (N.mod_lt c 64 ltac:(discriminate)) as H1'.
  pose proof (N.Div0.div_mod (c / 64) 64) as H2.
  pose proof (N.mod_lt (c / 64) 64 ltac:(discriminate)) as H2'.
  pose proof (N.Div0.div_mod (c / 64 / 64) 64) as H3.
  pose proof (N.mod_lt (c / 64 / 64) 64 ltac:(discriminate)) as H3'.
  set (q1 := (c / 64)%N) in *. set (r1 := (c mod 64)%N) in *.
  set (q2 := (q1 / 64)%N) in *. set (r2 := (q1 mod 64)%N) in *.
  set (q3 := (q2 / 64)%N) in *. set (r3 := (q2 mod 64)%N) in *.
  clearbody q1 r1 q2 r2 q3 r3.
  destruct (N.ltb_spec c 128) as [Ha|Ha].
  { intros H. apply Ok_inj in H. subst b. cbn [app]. unfold decode_char.
    destruct (N.ltb_spec c 128); [reflexivity|lia]. }
  destruct (N.ltb_spec c 2048) as [Hb|Hb].
  { intros H. apply Ok_inj in H. subst b. cbn [app]. unfold decode_char.
    rewrite (lor_lead 192 q1 32) by (try (vm_compute; reflexivity); lia).
    destruct (N.ltb_spec (192 + q1) 128); [lia|].
    destruct (N.ltb_spec (192 + q1) 224); [|lia].
    f_equal. f_equal. lia. }
  destruct (N.ltb_spec c 65536) as [Hc|Hc].
  { destruct ((55296 <=? c)%N && (c <=? 57343)%N); [discriminate|].
    intros H. apply Ok_inj in H. subst b. cbn [app]. unfold decode_char.
    rewrite (lor_lead 224 q2 16) by (try (vm_compute; reflexivity); lia).
    destruct (N.ltb_spec (224 + q2) 128); [lia|].
    destruct (N.ltb_spec (224 + q2) 224); [lia|].
    destruct (N.ltb_spec (224 + q2) 240); [|lia].
    f_equal. f_equal. lia. }
  destruct (N.leb_spec c 1114111) as [Hd|Hd]; [|discriminate].
  intros H. apply Ok_inj in H. subst b. cbn [app]. unfold decode_char.
  rewrite (lor_lead 240 q3 8) by (try (vm_compute; reflexivity); lia).
  destruct (N.ltb_spec (240 + q3) 128); [lia|].
  destruct (N.ltb_spec (240 + q3) 224); [lia|].
  destruct (N.ltb_spec (240 + q3) 240); [lia|].
  f_equal. f_equal. lia.
Qed.

(** Hence [encode("utf-8")] is injective: different strings have different
    encodings. *)
Lemma encode_utf8_inj (s : str) :
  forall s' b, encode_utf8 s = Ok b -> encode_utf8 s' = Ok b -> s = s'.
Proof.
  induction s as [|c r IH]; intros [|c' r'] b; cbn [encode_utf8].
  - reflexivity.
  - intros H. apply Ok_inj in H. subst b.
    destruct (encode_char c') as [bc|] eqn:Hc; [|discriminate].
    destruct (encode_utf8 r') as [bs|]; [|discriminate].
    intros H. apply Ok_inj in H.
    pose proof (decode_encode_char c' bc bs Hc) as Hd. rewrite H in Hd. discriminate.
  - destruct (encode_char c) as [bc|] eqn:Hc; [|discriminate].
    destruct (encode_utf8 r) as [bs|]; [|discriminate].
    intros H H'. apply Ok_inj in H, H'. subst b.
    pose proof (decode_encode_char c bc bs Hc) as Hd. rewrite <- H' in Hd. discriminate.
  - destruct (encode_char c) as [bc|] eqn:Hc; [|discriminate].
    destruct (encode_utf8 r) as [bs|] eqn:Hr; [|discriminate].
    destruct (encode_char c') as [bc'|] eqn:Hc'; [|discriminate].
    destruct (encode_utf8 r') as [bs'|] eqn:Hr'; [|discriminate].
    intros H H'. apply Ok_inj in H, H'. subst b.
    pose proof (decode_encode_char c bc bs Hc) as Hd.
    pose proof (decode_encode_char c' bc' bs' Hc') as Hd'.
    rewrite H', Hd in Hd'. injection Hd' as -> ->.
    f_equal. now apply (IH r' bs').
Qed.

Lemma cons_inj {A} (x y : A) (l l' : list A) : x :: l = y :: l' -> x = y /\ l = l'.
Proof. now intros [= -> ->]. Qed.

(** Hexadecimal printing loses nothing either. *)
Lemma hex_firstn (k : nat) (bs : bytes) :
  firstn (2 * k) (SHA256.hex bs) = SHA256.hex (firstn k bs).
Proof.
  unfold SHA256.hex. revert bs. induction k as [|k IH]; intros [|b bs]; try reflexivity.
  replace (2 * S k)%nat with (S (S (2 * k))) by lia.
  cbn [flat_map firstn app]. now rewrite IH.
Qed.

Lemma hex_digit_inj (d d' : N) :
  (d < 16)%N -> (d' < 16)%N -> SHA256.hex_digit d = SHA256.hex_digit d' -> d = d'.
Proof.
  unfold SHA256.hex_digit. intros Hd Hd'.
  destruct (N.ltb_spec d 10); destruct (N.ltb_spec d' 10); lia.
Qed.

Lemma hex_inj (bs : bytes) :
  Forall (fun b => (b < 256)%N) bs ->
  forall bs', Forall (fun b => (b < 256)%N) bs' ->
              SHA256.hex bs = SHA256.hex bs' -> bs = bs'.
Proof.
  unfold SHA256.hex.
  induction 1 as [|b bs Hb _ IH]; intros bs' Hs'; destruct Hs' as [|b' bs' Hb' Hs'];
    cbn [flat_map app]; try discriminate; [reflexivity|].
  intros H. apply cons_inj in H. destruct H as (Hhi & H).
  apply cons_inj in H. destruct H as (Hlo & Hrest).
  rewrite !N.shiftr_div_pow2 in Hhi. change (2 ^ 4)%N with 16%N in Hhi.
  change 15%N with (N.ones 4) in Hlo. rewrite !N.land_ones in Hlo.
  change (2 ^ 4)%N with 16%N in Hlo.
  apply hex_digit_inj in Hhi;
    [|apply N.Div0.div_lt_upper_bound; lia|apply N.Div0.div_lt_upper_bound; lia].
  apply hex_digit_inj in Hlo; [|apply N.mod_lt; discriminate|apply N.mod_lt; discriminate].
  f_equal; [|now apply IH].
  rewrite (N.Div0.div_mod b 16), (N.Div0.div_mod b' 16). congruence.
Qed.

(** Two identifiers are equal exactly when the digests, of which they print
    the first 8 bytes, agree on these bytes. *)
Lemma digest_prefix_inj (b b' : bytes) :
  slice (SHA256.hex (SHA256.digest b)) 0 16 = slice (SHA256.hex (SHA256.digest b')) 0 16
  <-> firstn 8 (SHA256.digest b) = firstn 8 (SHA256.digest b').
Proof.
  assert (Hs : forall x, slice (SHA256.hex (SHA256.digest x)) 0 16
                         = SHA256.hex (firstn 8 (SHA256.digest x))).
  { intros x. rewrite slice_in_range;
      [|lia|unfold len; rewrite hex_length, digest_length; simpl; lia].
    change (Z.to_nat (16 - 0)) with (2 * 8)%nat. change (Z.to_nat 0) with 0%nat.
    cbn [skipn]. apply hex_firstn. }
  rewrite !Hs. split; [|now intros ->].
  apply hex_inj; apply Forall_prefix, digest_small.
Qed.

Lemma chunk_id_of_message (doc_id : str) (page : Z) (text : str) :
  chunk_id_of doc_id page text
  = match chunk_id_message doc_id page text with
    | Raise e => Raise e
    | Ok msg => Ok (slice (SHA256.hex (SHA256.digest msg)) 0 16)
    end.
Proof.
  unfold chunk_id_of, chunk_id_message. rewrite deterministic_id_concat.
  cbn [concat]. now rewrite app_nil_r.
Qed.

(** C4 (as amended). Take the operations that [upsert_chunks] builds for two
    ingestions of a document, and a position at which both have a chunk of
    the same page. The identifier of each chunk prints the first 8 bytes of
    the SHA-256 of the UTF-8 encoding of the document identifier, the page
    number and the first 64 characters of the chunk. The two encodings are
    the same exactly when the first 64 characters are the same, and the two
    identifiers are the same exactly when the two digests agree on their
    first 8 bytes. So a chunk keeps its identifier when its first 64
    characters are unchanged (an unchanged chunk, or one changed only
    further on), and a chunk whose first 64 characters changed gets a new
    identifier unless SHA-256 agrees on the first 8 bytes for the two
    different messages. *)
Theorem reingest_chunk_ids
  (doc_id doc_name doc_name' : str) (pairs pairs' : list ((Z * str) * vector))
  (ops ops' : list UpdateOne) :
  build_ops doc_id doc_name pairs [] = Ok ops ->
  build_ops doc_id doc_name' pairs' [] = Ok ops' ->
  forall j page text emb text' emb',
    nth_error pairs j = Some ((page, text), emb) ->
    nth_error pairs' j = Some ((page, text'), emb') ->
    exists op op' msg msg',
      nth_error ops j = Some op /\ nth_error ops' j = Some op'
      /\ chunk_id_of doc_id page text = Ok (filt_chunk_id op)
      /\ chunk_id_of doc_id page text' = Ok (filt_chunk_id op')
      /\ cd_chunk_id (set_fields op) = filt_chunk_id op
      /\ cd_chunk_id (set_fields op') = filt_chunk_id op'
      /\ chunk_id_message doc_id page text = Ok msg
      /\ chunk_id_message doc_id page text' = Ok msg'
      /\ filt_chunk_id op = slice (SHA256.hex (SHA256.digest msg)) 0 16
      /\ filt_chunk_id op' = slice (SHA256.hex (SHA256.digest msg')) 0 16
      /\ (slice text 0 64 = slice text' 0 64 <-> msg = msg')
      /\ (filt_chunk_id op = filt_chunk_id op'
          <-> firstn 8 (SHA256.digest msg) = firstn 8 (SHA256.digest msg'))
      /\ (slice text 0 64 = slice text' 0 64 -> filt_chunk_id op = filt_chunk_id op').
Proof.
  intros Hops Hops' j page text emb text' emb' Hj Hj'.
  destruct (build_ops_spec _ _ _ _ _ Hops) as (new & -> & Hnew).
  destruct (build_ops_spec _ _ _ _ _ Hops') as (new' & -> & Hnew').
  destruct (Forall2_nth_error_left _ _ _ Hnew _ _ Hj) as (op & Hop & Hid & _ & Hset).
  destruct (Forall2_nth_error_left _ _ _ Hnew' _ _ Hj') as (op' & Hop' & Hid' & _ & Hset').
  pose proof Hid as Hm. pose proof Hid' as Hm'.
  rewrite chunk_id_of_message in Hm, Hm'.
  destruct (chunk_id_message doc_id page text) as [msg|] eqn:Hmsg; [|discriminate].
  destruct (chunk_id_message doc_id page text') as [msg'|] eqn:Hmsg'; [|discriminate].
  apply Ok_inj in Hm, Hm'.
  assert (Hsame : slice text 0 64 = slice text' 0 64 <-> msg = msg').
  { split.
    - intros Hpre. unfold chunk_id_message in Hmsg, Hmsg'. rewrite Hpre in Hmsg. congruence.
    - intros <-. unfold chunk_id_message in Hmsg, Hmsg'.
      pose proof (encode_utf8_inj _ _ _ Hmsg Hmsg') as H.
      now apply app_inv_head, app_inv_head in H. }
  assert (Hids : filt_chunk_id op = filt_chunk_id op'
                 <-> firstn 8 (SHA256.digest msg) = firstn 8 (SHA256.digest msg')).
  { rewrite <- Hm, <- Hm'. apply digest_prefix_inj. }
  exists op, op', msg, msg'. cbn [nth_error app].
  rewrite Hset, Hset'. cbn [cd_chunk_id].
  repeat (split; [first [assumption|reflexivity|now symmetry]|]).
  intros Hpre. apply Hids. now rewrite (proj1 Hsame Hpre).
Qed.

(** The theorem on Scenario E: a chunk whose text changes inside its first 64
    characters. *)
Lemma reingest_chunk_ids_witness :
  exists id id' msg msg',
    chunk_id_of (lit "doc") 1 (lit "the quick brown fox") = Ok id
    /\ chunk_id_of (lit "doc") 1 (lit "the quick brown cat") = Ok id'
    /\ chunk_id_message (lit "doc") 1 (lit "the quick brown fox") = Ok msg
    /\ chunk_id_message (lit "doc") 1 (lit "the quick brown cat") = Ok msg'
    /\ (slice (lit "the quick brown fox") 0 64 = slice (lit "the quick brown cat") 0 64
        <-> msg = msg')
    /\ (id = id' <-> firstn 8 (SHA256.digest msg) = firstn 8 (SHA256.digest msg')).
Proof.
  destruct (build_ops (lit "doc") (lit "a.pdf") [((1%Z, lit "the quick brown fox"), [])] [])
    as [ops|e] eqn:Hops; [|vm_compute in Hops; discriminate].
  destruct (build_ops (lit "doc") (lit "a.pdf") [((1%Z, lit "the quick brown cat"), [])] [])
    as [ops'|e] eqn:Hops'; [|vm_compute in Hops'; discriminate].
  destruct (reingest_chunk_ids _ _ _ _ _ _ _ Hops Hops' 0 1%Z _ [] _ [] eq_refl eq_refl)
    as (op & op' & msg & msg' & _ & _ & Hid & Hid' & _ & _ & Hmsg & Hmsg' & _ & _
        & Hsame & Hids & _).
  exists (filt_chunk_id op), (filt_chunk_id op'), msg, msg'. auto 6.
Defined.

(** C4, as it was stated, fails when the change lies beyond the first 64
    characters. With the default sizes a page of 1300 characters gives two
    chunks; changing the character at offset 100 changes the first chunk and
    nothing else, and that chunk keeps its identifier. Two different chunks
    of one page can therefore share an identifier. *)
Lemma changed_chunk_keeps_id :
  exists c0 c0' c1,
    chunk_text 2 page_before default_chunk_size default_overlap = Some [c0; c1]
    /\ chunk_text 2 page_after default_chunk_size default_overlap = Some [c0'; c1]
    /\ c0 <> c0'
    /\ chunk_id_of (lit "doc") 1 c0' = chunk_id_of (lit "doc") 1 c0
    /\ c0 <> c1
    /\ chunk_id_of (lit "doc") 1 c1 = chunk_id_of (lit "doc") 1 c0.
Proof.
  exists (repeat 97%N 1200), (repeat 97%N 100 ++ [98%N] ++ repeat 97%N 1099), (repeat 97%N 300).
  split; [vm_compute; reflexivity|]. split; [vm_compute; reflexivity|].
  split; [|split; [|split]].
  - intros H. apply (f_equal (fun l => nth 100 l 0%N)) in H.
    vm_compute in H. discriminate.
  - apply chunk_id_of_prefix. vm_compute. reflexivity.
  - intros H. apply (f_equal (@length N)) in H.
    vm_compute in H. discriminate.
  - apply chunk_id_of_prefix. vm_compute. reflexivity.
Qed.

(** Scenario E on a change inside the first 64 characters: the identifier
    changes. *)
Example scenario_E :
  chunk_id_of (lit "doc") 1 (lit "the quick brown fox") = Ok (lit "b694c901c353a671")
  /\ chunk_id_of (lit "doc") 1 (lit "the quick brown cat") = Ok (lit "7d0118120fc5578c").
Proof. vm_compute. split; reflexivity. Qed.

(* ================================================================== *)
(** * build_context                                                    *)
(* ================================================================== *)

Lemma fold_left_snoc_map {A B} (f : A -> B) (l : list A) (acc : list B) :
  fold_left (fun parts r => parts ++ [f r]) l acc = acc ++ map f l.
Proof.
  revert acc. induction l as [|x r IH]; intros acc; simpl.
  - now rewrite app_nil_r.
  - rewrite IH, <- app_assoc. reflexivity.
Qed.

Lemma context_part_block (r : hit) :
  context_part r = bracketed_header r ++ nl ++ raw_text r.
Proof.
  unfold context_part, bracketed_header, plain_header, doc_label, page_label, raw_text.
  destruct (hit_metadata r) as [[[name|] [p|]]|]; cbn [md_doc_name md_page];
    rewrite <- ?app_assoc; reflexivity.
Qed.

Lemma join_app (sep : str) (a b : list str) :
  a <> [] -> b <> [] -> join sep (a ++ b) = join sep a ++ sep ++ join sep b.
Proof.
  intros Ha Hb. induction a as [|x r IH]; [congruence|].
  destruct r as [|y r].
  - simpl. destruct b; [congruence|reflexivity].
  - change (join sep ((x :: y :: r) ++ b)) with (x ++ sep ++ join sep ((y :: r) ++ b)).
    rewrite IH by discriminate.
    change (join sep (x :: y :: r)) with (x ++ sep ++ join sep (y :: r)).
    now rewrite <- !app_assoc.
Qed.

(** C6 (as amended). [build_context] renders one block per hit, in the order
    of the hits and without merging repeated ones; a block is the header
    line [[Source: <doc_name>, Page <page>]], in square brackets, then the
    text of the hit; blocks are separated by a blank line; ["Doc"] and ["?"]
    stand for a missing name or page. *)
Theorem build_context_blocks (results : list hit) :
  build_context results = assemble bracketed_header results
  /\ (forall more, results <> [] -> more <> [] ->
       build_context (results ++ more)
       = build_context results ++ (nl ++ nl) ++ build_context more)
  /\ (forall r, hit_metadata r = None ->
       build_context [r] = lit "[Source: Doc, Page ?]" ++ nl ++ raw_text r)
  /\ (forall r, build_context [r; r]
       = (bracketed_header r ++ nl ++ raw_text r) ++ (nl ++ nl)
         ++ (bracketed_header r ++ nl ++ raw_text r)).
Proof.
  assert (Hmap : forall l, build_context l = assemble bracketed_header l).
  { intros l. unfold build_context, assemble. rewrite fold_left_snoc_map. simpl app.
    f_equal. apply map_ext. exact context_part_block. }
  split; [apply Hmap|]. split; [|split].
  - intros more H1 H2. rewrite !Hmap. unfold assemble. rewrite map_app.
    apply join_app; destruct results, more; simpl; congruence.
  - intros r Hr. rewrite Hmap. unfold assemble. cbn [map join].
    unfold bracketed_header, plain_header, doc_label, page_label.
    rewrite Hr. reflexivity.
  - intros r. rewrite Hmap. reflexivity.
Qed.

(** C6, as it was stated, fails on the header: the line that [build_context]
    writes has square brackets around it. *)
Lemma build_context_header_is_bracketed :
  build_context [hit_of (lit "a.pdf") 1 (lit "hello")]
  = lit "[Source: a.pdf, Page 1]" ++ nl ++ lit "hello"
  /\ build_context [hit_of (lit "a.pdf") 1 (lit "hello")]
     <> assemble plain_header [hit_of (lit "a.pdf") 1 (lit "hello")].
Proof. split; [reflexivity|vm_compute; discriminate]. Qed.

(* ================================================================== *)
(** * The Gemini client: configuration and embeddings                  *)
(* ================================================================== *)

Lemma logged_nil (st : state) : logged st [] = st.
Proof. unfold logged. rewrite app_nil_r. now destruct st. Qed.

Lemma logged_logged (st : state) (a b : list event) :
  logged (logged st a) b = logged st (a ++ b).
Proof. unfold logged. simpl. now rewrite app_assoc. Qed.

Lemma ensure_without_key (env : Env) (st : state) :
  GEMINI_API_KEY env = [] ->
  _ensure_gemini_configured env st = (Raise (RuntimeError missing_key_message), st).
Proof. unfold _ensure_gemini_configured. now intros ->. Qed.

Lemma ensure_with_key (env : Env) (st : state) :
  GEMINI_API_KEY env <> [] ->
  _ensure_gemini_configured env st
  = (Ok tt, logged st [GenaiConfigure (GEMINI_API_KEY env)]).
Proof.
  unfold _ensure_gemini_configured. destruct (GEMINI_API_KEY env); [congruence|reflexivity].
Qed.

Lemma embed_content_run (env : Env) (t : str) (st : state) :
  embed_content env t st
  = (match genai_embed_content env (EMBED_MODEL env) t with
     | None => Raise (ServiceError Embedding)
     | Some v => Ok v
     end, logged st [EmbedContent (EMBED_MODEL env) t]).
Proof.
  unfold embed_content, bind, emit, logged. simpl.
  destruct (genai_embed_content env (EMBED_MODEL env) t); reflexivity.
Qed.

(** The loop of [embed_texts] sends one request per text, in order, until
    one fails; it touches nothing else. *)
Lemma embed_loop_run (env : Env) (texts : list str) :
  forall (out : list vector) (st : state),
  exists r evs,
    embed_loop env texts out st = (r, logged st evs)
    /\ Forall is_embed_request evs
    /\ (Exists (fun t => genai_embed_content env (EMBED_MODEL env) t = None) texts ->
        r = Raise (ServiceError Embedding))
    /\ (Forall (fun t => genai_embed_content env (EMBED_MODEL env) t <> None) texts ->
        evs = map (EmbedContent (EMBED_MODEL env)) texts
        /\ exists vs, r = Ok (out ++ vs) /\ length vs = length texts).
Proof.
  induction texts as [|t rest IH]; intros out st.
  - exists (Ok out), []. rewrite logged_nil.
    split; [reflexivity|]. split; [constructor|]. split.
    + intros H. inversion H.
    + intros _. split; [reflexivity|]. exists []. now rewrite app_nil_r.
  - simpl. unfold bind. rewrite embed_content_run.
    destruct (genai_embed_content env (EMBED_MODEL env) t) as [v|] eqn:Hv.
    + destruct (IH (out ++ [v]) (logged st [EmbedContent (EMBED_MODEL env) t]))
        as (r & evs & Hrun & Hevs & Hfail & Hok).
      exists r, (EmbedContent (EMBED_MODEL env) t :: evs).
      rewrite Hrun, logged_logged.
      split; [reflexivity|]. split; [constructor; [exact I|exact Hevs]|]. split.
      * intros H. apply Exists_cons in H. destruct H as [H|H]; [congruence|auto].
      * intros H. apply Forall_cons_iff in H. destruct H as [_ H].
        destruct (Hok H) as (-> & vs & -> & Hl). split; [reflexivity|].
        exists (v :: vs). rewrite <- app_assoc. simpl. auto.
    + exists (Raise (ServiceError Embedding)), [EmbedContent (EMBED_MODEL env) t].
      split; [reflexivity|]. split; [constructor; [exact I|constructor]|]. split.
      * reflexivity.
      * intros H. apply Forall_cons_iff in H. destruct H as [H _]. congruence.
Qed.

Lemma embed_texts_without_key (env : Env) (texts : list str) (st : state) :
  GEMINI_API_KEY env = [] ->
  embed_texts env texts st = (Raise (RuntimeError missing_key_message), st).
Proof.
  intros H. unfold embed_texts, bind. now rewrite ensure_without_key.
Qed.

Lemma embed_texts_with_key (env : Env) (texts : list str) (st : state) :
  GEMINI_API_KEY env <> [] ->
  embed_texts env texts st
  = embed_loop env texts [] (logged st [GenaiConfigure (GEMINI_API_KEY env)]).
Proof.
  intros H. unfold embed_texts, bind. now rewrite ensure_with_key.
Qed.

(* ================================================================== *)
(** * app/db.py: obtaining the collection                              *)
(* ================================================================== *)

Lemma get_collection_run (env : Env) (st : state) :
  get_collection env st
  = match _client (db st) with
    | Some c =>
        (Ok {| ch_client := c; ch_db := DB_NAME env; ch_col := COL_NAME env |}, st)
    | None =>
        if MongoClient_accepts env (MONGODB_URI env)
        then
          (Ok {| ch_client := {| client_uri := MONGODB_URI env |};
                 ch_db := DB_NAME env; ch_col := COL_NAME env |},
           {| collection := collection st; log := log st;
              db := {| _client := Some {| client_uri := MONGODB_URI env |};
                       clients_made := S (clients_made (db st)) |} |})
        else
          (Raise ConfigurationError,
           {| collection := collection st; log := log st;
              db := {| _client := None; clients_made := S (clients_made (db st)) |} |})
    end.
Proof.
  unfold get_collection, get_client, bind, ret.
  destruct (_client (db st)); [reflexivity|].
  destruct (MongoClient_accepts env (MONGODB_URI env)); reflexivity.
Qed.

(** Obtaining the collection sends no request and touches no document; it
    can only fail in the constructor of the client. *)
Lemma get_collection_quiet (env : Env) (st st1 : state) (r : result collection_handle) :
  get_collection env st = (r, st1) ->
  collection st1 = collection st
  /\ log st1 = log st
  /\ (forall e, r = Raise e -> e = ConfigurationError).
Proof.
  rewrite get_collection_run.
  destruct (_client (db st)); [|destruct (MongoClient_accepts env (MONGODB_URI env))];
    intros [= <- <-]; repeat split; try discriminate.
  now intros e [= <-].
Qed.

(** Once obtained, the collection is obtained again without any change. *)
Lemma get_collection_again (env : Env) (st st1 : state) (col : collection_handle) :
  get_collection env st = (Ok col, st1) ->
  get_collection env st1 = (Ok col, st1) /\ _client (db st1) <> None.
Proof.
  rewrite !get_collection_run.
  destruct (_client (db st)) as [c|] eqn:Hc.
  - intros [= <- <-]. rewrite Hc. split; [reflexivity|discriminate].
  - destruct (MongoClient_accepts env (MONGODB_URI env)); [|discriminate].
    intros [= <- <-]. simpl. split; [reflexivity|discriminate].
Qed.

Lemma get_collection_cached (env : Env) (st : state) :
  _client (db st) <> None -> exists col, get_collection env st = (Ok col, st).
Proof.
  rewrite get_collection_run. destruct (_client (db st)); [eauto|congruence].
Qed.

(* ================================================================== *)
(** * The unordered bulk write                                         *)
(* ================================================================== *)

Lemma pick_Permutation {A} (i : nat) (l : list A) :
  forall x r, pick i l = Some (x, r) -> Permutation l (x :: r).
Proof.
  revert i. induction l as [|y l IH]; intros i x r; simpl; [discriminate|].
  destruct i as [|i].
  - intros [= <- <-]. reflexivity.
  - destruct (pick i l) as [[z r']|] eqn:Hp; [|discriminate].
    intros [= <- <-]. rewrite (IH _ _ _ Hp). apply perm_swap.
Qed.

(** What the server applies and what it leaves pending are, together, the
    operations submitted. *)
Lemma run_schedule_Permutation (sched : list nat) :
  forall ops applied pending,
    run_schedule ops sched = (applied, pending) ->
    Permutation ops (applied ++ pending).
Proof.
  induction sched as [|i sched IH]; intros ops applied pending; simpl.
  - intros [= <- <-]. reflexivity.
  - destruct (pick i ops) as [[op ops']|] eqn:Hp; [|apply IH].
    destruct (run_schedule ops' sched) as [a p] eqn:Hr.
    intros [= <- <-]. rewrite (pick_Permutation _ _ _ _ Hp). simpl.
    constructor. now apply IH.
Qed.

(** A server that takes the first pending operation each time applies the
    operations in the order of the list. *)
Lemma run_schedule_in_order (ops : list UpdateOne) :
  run_schedule ops (repeat 0%nat (length ops)) = (ops, []).
Proof.
  induction ops as [|op ops IH]; [reflexivity|]. simpl. now rewrite IH.
Qed.

Lemma bulk_write_run (env : Env) (col : collection_handle) (ops : list UpdateOne) (st : state) :
  exists applied pending r,
    bulk_write env col ops st
    = (r, {| collection := fold_left apply_UpdateOne applied (collection st);
             log := log st ++ [BulkWrite ops];
             db := db st |})
    /\ Permutation ops (applied ++ pending)
    /\ (r = Ok tt /\ pending = [] \/ r = Raise (ServiceError Store)).
Proof.
  unfold bulk_write.
  destruct (mongo_bulk_write env (collection st) ops) as [sched ack].
  destruct (run_schedule ops sched) as [applied pending] eqn:Hr.
  exists applied, pending.
  pose proof (run_schedule_Permutation _ _ _ _ Hr) as Hperm.
  destruct pending as [|p pending]; [destruct ack|]; eauto 6.
Qed.

Lemma bulk_write_acknowledged (env : Env) (col : collection_handle) (ops : list UpdateOne)
      (st : state) :
  write_acknowledged env (collection st) ops ->
  exists applied,
    bulk_write env col ops st
    = (Ok tt, {| collection := fold_left apply_UpdateOne applied (collection st);
                 log := log st ++ [BulkWrite ops];
                 db := db st |})
    /\ Permutation ops applied.
Proof.
  intros (sched & applied & Hw & Hr). unfold bulk_write. rewrite Hw, Hr.
  exists applied. split; [reflexivity|].
  apply run_schedule_Permutation in Hr. now rewrite app_nil_r in Hr.
Qed.

(* ================================================================== *)
(** * upsert_chunks and ingest_pdf                                     *)
(* ================================================================== *)

Lemma embed_request_not_write (evs : list event) :
  Forall is_embed_request evs -> Forall (fun ev => ~ is_write ev) evs.
Proof.
  induction 1 as [|ev evs Hev _ IH]; constructor; [|exact IH].
  destruct ev; simpl in *; tauto.
Qed.

(** [upsert_chunks] starts by obtaining the collection, and stops there
    when the client cannot be constructed. *)
Lemma upsert_chunks_unconnected
  (env : Env) (doc_id doc_name : str) (chunks : list (Z * str)) (st st1 : state) (e : exn) :
  get_collection env st = (Raise e, st1) ->
  upsert_chunks env doc_id doc_name chunks st = (Raise e, st1).
Proof. intros H. unfold upsert_chunks, bind. now rewrite H. Qed.

Lemma upsert_chunks_no_chunks
  (env : Env) (doc_id doc_name : str) (st st1 : state) (col : collection_handle) :
  get_collection env st = (Ok col, st1) ->
  upsert_chunks env doc_id doc_name [] st = (Ok 0%Z, st1).
Proof. intros H. unfold upsert_chunks, bind. now rewrite H. Qed.

Lemma upsert_chunks_connected
  (env : Env) (doc_id doc_name : str) (chunks : list (Z * str)) (st st1 : state)
  (col : collection_handle) :
  get_collection env st = (Ok col, st1) ->
  chunks <> [] ->
  upsert_chunks env doc_id doc_name chunks st
  = match embed_texts env (map snd chunks) st1 with
    | (Raise e, st2) => (Raise e, st2)
    | (Ok vecs, st2) =>
        match build_ops doc_id doc_name (combine chunks vecs) [] with
        | Raise e => (Raise e, st2)
        | Ok [] => (Ok 0%Z, st2)
        | Ok ops =>
            match bulk_write env col ops st2 with
            | (Raise e, st3) => (Raise e, st3)
            | (Ok _, st3) => (Ok (Z.of_nat (length ops)), st3)
            end
        end
    end.
Proof.
  intros H Hne. unfold upsert_chunks, bind. rewrite H.
  destruct chunks as [|c rest]; [congruence|].
  destruct (embed_texts env (map snd (c :: rest)) st1) as [[vecs|e] st2]; [|reflexivity].
  unfold lift.
  destruct (build_ops doc_id doc_name (combine (c :: rest) vecs) []) as [[|op ops]|e];
    reflexivity.
Qed.

(** C3 (as amended). When the embedding step fails (no API key, or the
    collaborator raises on one of the texts), [upsert_chunks] leaves the
    collection as it was and issues no write. On a non-empty chunk list it
    raises: the error of the missing key or that of the collaborator, or,
    before either, that of the client of the store when it cannot be
    constructed. On an empty chunk list it returns 0 without any request,
    unless the client cannot be constructed. [ingest_pdf] does what
    [upsert_chunks] does on the chunks it collected. *)
Theorem upsert_chunks_embedding_failure
  (env : Env) (doc_id doc_name : str) (chunks : list (Z * str)) (st : state) :
  embedding_fails env (map snd chunks) ->
  exists r st' evs,
    upsert_chunks env doc_id doc_name chunks st = (r, st')
    /\ collection st' = collection st
    /\ log st' = log st ++ evs
    /\ Forall (fun ev => ~ is_write ev) evs
    /\ (chunks <> [] ->
        r = Raise (RuntimeError missing_key_message)
        \/ r = Raise (ServiceError Embedding)
        \/ r = Raise ConfigurationError)
    /\ (chunks = [] -> (r = Ok 0%Z \/ r = Raise ConfigurationError) /\ evs = [])
    /\ (r = Raise ConfigurationError
        <-> fst (get_collection env st) = Raise ConfigurationError)
    /\ (forall mem pdf chunk_size overlap,
          collect_chunks mem (extract_pdf_text pdf) chunk_size overlap [] = Some chunks ->
          ingest_pdf mem env pdf doc_id doc_name chunk_size overlap st = (r, st')).
Proof.
  intros Hfail.
  assert (Hingest : forall r st',
            upsert_chunks env doc_id doc_name chunks st = (r, st') ->
            forall mem pdf chunk_size overlap,
              collect_chunks mem (extract_pdf_text pdf) chunk_size overlap [] = Some chunks ->
              ingest_pdf mem env pdf doc_id doc_name chunk_size overlap st = (r, st')).
  { intros r st' Hrun mem pdf cs ov Hc. unfold ingest_pdf. now rewrite Hc. }
  destruct (get_collection env st) as [[col|e] st1] eqn:Hcol.
  - destruct (get_collection_quiet _ _ _ _ Hcol) as (Hc1 & Hl1 & _).
    destruct chunks as [|c rest].
    + exists (Ok 0%Z), st1, []. rewrite app_nil_r.
      pose proof (upsert_chunks_no_chunks env doc_id doc_name st st1 col Hcol) as Hrun.
      split; [exact Hrun|]. split; [exact Hc1|]. split; [exact Hl1|].
      split; [constructor|]. split; [congruence|]. split; [auto|].
      split; [split; discriminate|]. now apply Hingest.
    + set (chunks := c :: rest) in *.
      assert (Hne : chunks <> []) by discriminate.
      pose proof (upsert_chunks_connected env doc_id doc_name chunks st st1 col Hcol Hne)
        as Hrun.
      destruct (GEMINI_API_KEY env) as [|k0 key] eqn:Hkey.
      * rewrite embed_texts_without_key in Hrun by assumption.
        exists (Raise (RuntimeError missing_key_message)), st1, []. rewrite app_nil_r.
        split; [exact Hrun|]. split; [exact Hc1|]. split; [exact Hl1|].
        split; [constructor|]. split; [auto|]. split; [discriminate|].
        split; [split; discriminate|]. now apply Hingest.
      * destruct Hfail as [Hno|Hex]; [congruence|].
        destruct (embed_loop_run env (map snd chunks) []
                    (logged st1 [GenaiConfigure (GEMINI_API_KEY env)]))
          as (r & evs & Hloop & Hevs & Hraise & _).
        specialize (Hraise Hex). subst r.
        rewrite embed_texts_with_key, Hloop, logged_logged in Hrun by congruence.
        exists (Raise (ServiceError Embedding)),
               (logged st1 (GenaiConfigure (GEMINI_API_KEY env) :: evs)),
               (GenaiConfigure (GEMINI_API_KEY env) :: evs).
        split; [exact Hrun|]. split; [exact Hc1|].
        split; [simpl; now rewrite Hl1|].
        split; [constructor; [simpl; tauto|now apply embed_request_not_write]|].
        split; [auto|]. split; [discriminate|].
        split; [split; discriminate|]. now apply Hingest.
  - destruct (get_collection_quiet _ _ _ _ Hcol) as (Hc1 & Hl1 & He).
    rewrite (He e eq_refl) in *.
    pose proof (upsert_chunks_unconnected env doc_id doc_name chunks st st1 _ Hcol) as Hrun.
    exists (Raise ConfigurationError), st1, []. rewrite app_nil_r.
    split; [exact Hrun|]. split; [exact Hc1|]. split; [exact Hl1|].
    split; [constructor|]. split; [auto|]. split; [auto|].
    split; [split; reflexivity|]. now apply Hingest.
Qed.

(** The theorem on one chunk, without a key. *)
Lemma upsert_chunks_embedding_failure_witness :
  exists r st' evs,
    upsert_chunks env_no_key (lit "doc") (lit "a.pdf") [(1%Z, lit "hello")] st0 = (r, st')
    /\ collection st' = collection st0
    /\ log st' = log st0 ++ evs
    /\ Forall (fun ev => ~ is_write ev) evs
    /\ ([(1%Z, lit "hello")] <> [] ->
        r = Raise (RuntimeError missing_key_message)
        \/ r = Raise (ServiceError Embedding)
        \/ r = Raise ConfigurationError)
    /\ ([(1%Z, lit "hello")] = [] -> (r = Ok 0%Z \/ r = Raise ConfigurationError) /\ evs = [])
    /\ (r = Raise ConfigurationError
        <-> fst (get_collection env_no_key st0) = Raise ConfigurationError)
    /\ (forall mem pdf chunk_size overlap,
          collect_chunks mem (extract_pdf_text pdf) chunk_size overlap []
          = Some [(1%Z, lit "hello")] ->
          ingest_pdf mem env_no_key pdf (lit "doc") (lit "a.pdf") chunk_size overlap st0
          = (r, st')).
Proof.
  apply (upsert_chunks_embedding_failure env_no_key (lit "doc") (lit "a.pdf")
           [(1%Z, lit "hello")] st0).
  left. reflexivity.
Defined.

(** C3, as it was stated, fails on a document without chunks: the key is
    absent, and neither [upsert_chunks] nor [ingest_pdf] raises; they
    return 0. *)
Lemma no_chunks_no_key_returns_zero :
  GEMINI_API_KEY env_no_key = []
  /\ upsert_chunks env_no_key (lit "doc") (lit "a.pdf") [] st0 = (Ok 0%Z, st0)
  /\ ingest_pdf 1 env_no_key [None; Some (lit "   ")] (lit "doc") (lit "a.pdf")
       default_chunk_size default_overlap st0
     = (Ok 0%Z, st0).
Proof. repeat split. Qed.

(** A successful ingestion, for comparison: one page, one chunk, one write. *)
Example ingest_one_page :
  (fun out => (fst out, map cd_chunk_id (collection (snd out)),
               map cd_text (collection (snd out)), length (log (snd out))))
    (ingest_pdf 5 env_ok [Some (lit "hello  world")] (lit "doc") (lit "a.pdf")
       default_chunk_size default_overlap st0)
  = (Ok 1%Z, [lit "54d44a06d09cd5c3"], [lit "hello world"], 3%nat).
Proof. vm_compute. reflexivity. Qed.

(* ================================================================== *)
(** * vector_search                                                    *)
(* ================================================================== *)

Lemma aggregate_run (env : Env) (col : collection_handle) (qvec : vector)
      (numCandidates limit : Z) (st : state) :
  aggregate env col qvec numCandidates limit st
  = (match atlas_vector_search env (collection st) qvec numCandidates limit with
     | None => Raise (ServiceError Store)
     | Some hits => Ok hits
     end, logged st [Aggregate qvec numCandidates limit]).
Proof.
  unfold aggregate, bind, emit, logged. simpl.
  destruct (atlas_vector_search env (collection st) qvec numCandidates limit); reflexivity.
Qed.

(** A run of [vector_search], from the state [st1] in which the collection
    has been obtained. *)
Lemma vector_search_connected
  (env : Env) (query : str) (k : Z) (st st1 : state) (col : collection_handle) :
  get_collection env st = (Ok col, st1) ->
  vector_search env query k st
  = match GEMINI_API_KEY env with
    | [] => (Raise (RuntimeError missing_key_message), st1)
    | key =>
        let requests := [GenaiConfigure key;
                         EmbedContent (EMBED_MODEL env) (clean_text query)] in
        match genai_embed_content env (EMBED_MODEL env) (clean_text query) with
        | None => (Raise (ServiceError Embedding), logged st1 requests)
        | Some qvec =>
            (match atlas_vector_search env (collection st) qvec (Z.max 50 (k * 10)) k with
             | None => Raise (ServiceError Store)
             | Some hits => Ok hits
             end,
             logged st1 (requests ++ [Aggregate qvec (Z.max 50 (k * 10)) k]))
        end
    end.
Proof.
  intros Hcol. destruct (get_collection_quiet _ _ _ _ Hcol) as (Hc1 & _).
  unfold vector_search, bind. rewrite Hcol.
  destruct (GEMINI_API_KEY env) as [|c key] eqn:Hkey.
  - now rewrite embed_texts_without_key.
  - cbv zeta. rewrite embed_texts_with_key by congruence. rewrite Hkey.
    simpl embed_loop. unfold bind. rewrite embed_content_run.
    destruct (genai_embed_content env (EMBED_MODEL env) (clean_text query)) as [qvec|].
    + simpl ret. unfold ret. rewrite aggregate_run, !logged_logged.
      simpl collection. rewrite Hc1. reflexivity.
    + rewrite logged_logged. reflexivity.
Qed.

Lemma vector_search_unconnected
  (env : Env) (query : str) (k : Z) (st st1 : state) (e : exn) :
  get_collection env st = (Raise e, st1) ->
  vector_search env query k st = (Raise e, st1).
Proof. intros H. unfold vector_search, bind. now rewrite H. Qed.

(** C5 (as amended). [vector_search] does not validate the question. It
    obtains the collection, which sends no request and fails only when the
    client of the store cannot be constructed; then it normalises the
    question, which maps the empty question to the empty string, and asks
    for its embedding like for any other text: without an API key it raises
    the [RuntimeError] of the missing key before any request; with a key it
    issues the embedding request for the normalised question, and, when that
    returns a vector, the store query with [numCandidates = max(50, 10 k)]
    and [limit = k], whose hits it returns. *)
Theorem vector_search_requests (env : Env) (query : str) (k : Z) (st : state) :
  clean_text [] = []
  /\ log (snd (get_collection env st)) = log st
  /\ match get_collection env st with
     | (Raise e, st1) =>
         e = ConfigurationError /\ vector_search env query k st = (Raise e, st1)
     | (Ok _, st1) =>
         (GEMINI_API_KEY env = [] ->
          vector_search env query k st = (Raise (RuntimeError missing_key_message), st1))
         /\ (GEMINI_API_KEY env <> [] ->
             let requests := [GenaiConfigure (GEMINI_API_KEY env);
                              EmbedContent (EMBED_MODEL env) (clean_text query)] in
             match genai_embed_content env (EMBED_MODEL env) (clean_text query) with
             | None =>
                 vector_search env query k st
                 = (Raise (ServiceError Embedding), logged st1 requests)
             | Some qvec =>
                 vector_search env query k st
                 = (match atlas_vector_search env (collection st) qvec
                            (Z.max 50 (k * 10)) k with
                    | None => Raise (ServiceError Store)
                    | Some hits => Ok hits
                    end,
                    logged st1 (requests ++ [Aggregate qvec (Z.max 50 (k * 10)) k]))
             end)
     end.
Proof.
  split; [reflexivity|].
  destruct (get_collection env st) as [[col|e] st1] eqn:Hcol;
    destruct (get_collection_quiet _ _ _ _ Hcol) as (_ & Hl1 & He);
    (split; [exact Hl1|]).
  - rewrite (vector_search_connected env query k st st1 col Hcol). split.
    + now intros ->.
    + intros Hkey. destruct (GEMINI_API_KEY env) as [|c key]; [congruence|].
      cbv zeta.
      destruct (genai_embed_content env (EMBED_MODEL env) (clean_text query)); reflexivity.
  - split; [now apply He|]. now apply vector_search_unconnected.
Qed.

(** The theorem on the empty question, with a key and collaborators that
    answer. *)
Lemma vector_search_requests_witness :
  vector_search env_ok [] 5 st0
  = (Ok [],
     logged st0 [GenaiConfigure (lit "key");
                 EmbedContent (lit "text-embedding-004") [];
                 Aggregate [] 50 5]).
Proof.
  refine (proj2 (proj2 (proj2 (vector_search_requests env_ok [] 5 st0))) _).
  discriminate.
Defined.

(** C5, as it was stated, fails: the empty question is not rejected. With a
    key, [vector_search] sends the embedding request for the empty string and
    the store query, and [rag_query] goes on to the generative collaborator
    and returns an answer. *)
Lemma empty_question_reaches_collaborators :
  vector_search env_ok [] 5 st0
  = (Ok [],
     {| collection := [];
        log := [GenaiConfigure (lit "key");
                EmbedContent (lit "text-embedding-004") [];
                Aggregate [] 50 5];
        db := db st0 |})
  /\ fst (rag_query env_ok [] 5 st0) = Ok {| answer := lit "ok"; sources := [] |}
  /\ map (fun ev => match ev with
                    | GenaiConfigure _ => 0 | EmbedContent _ _ => 1
                    | Aggregate _ _ _ => 2 | GenerateContent _ _ => 3
                    | BulkWrite _ => 4
                    end%nat)
         (log (snd (rag_query env_ok [] 5 st0)))
     = [0; 1; 2; 0; 3]%nat.
Proof. vm_compute. repeat split. Qed.

(* ================================================================== *)
(** * synthesize_answer                                                *)
(* ================================================================== *)

Lemma synthesize_answer_run (env : Env) (question : str) (results : list hit) (st : state) :
  synthesize_answer env question results st
  = match GEMINI_API_KEY env with
    | [] => (Raise (RuntimeError missing_key_message), st)
    | key =>
        let prompt := rag_prompt question (build_context results) in
        (match genai_generate_content env (GEN_MODEL env) prompt with
         | None => Raise (ServiceError Generation)
         | Some resp =>
             match text_or_empty resp with
             | Raise e => Raise e
             | Ok a => Ok {| answer := a; sources := map source_of results |}
             end
         end,
         logged st [GenaiConfigure key; GenerateContent (GEN_MODEL env) prompt])
    end.
Proof.
  unfold synthesize_answer, _get_generative_model, _ensure_gemini_configured, bind.
  destruct (GEMINI_API_KEY env) as [|c key]; [reflexivity|].
  unfold emit, ret, raise, logged, lift. simpl. rewrite <- app_assoc. simpl.
  destruct (genai_generate_content env (GEN_MODEL env)
              (rag_prompt question (build_context results))) as [resp|]; [|reflexivity].
  destruct (text_or_empty resp); reflexivity.
Qed.




(* ================================================================== *)
(** * Further scenarios                                                *)
(* ================================================================== *)

(** The chunking of [ingest_pdf] ends whenever [0 <= overlap < chunk_size]:
    the fuel of the longest page is enough for every page. *)
Lemma rstrip_length (s : str) : (length (rstrip s) <= length s)%nat.
Proof.
  induction s as [|c r IH]; simpl; [lia|].
  destruct (rstrip r); [destruct (isspace c)|]; simpl in *; lia.
Qed.

Lemma strip_length (s : str) : (length (strip s) <= length s)%nat.
Proof.
  unfold strip. pose proof (rstrip_length (lstrip s)). pose proof (lstrip_length s). lia.
Qed.

Lemma chunk_text_returns (text : str) (chunk_size overlap : Z) (fuel : nat) :
  (0 <= overlap < chunk_size)%Z -> (length (strip text) <= fuel)%nat ->
  exists chunks, chunk_text fuel text chunk_size overlap = Some chunks.
Proof.
  intros Hov. unfold chunk_text.
  destruct (strip text) as [|c r]; intros Hfuel; [eauto|].
  destruct (chunk_loop_covers (c :: r) chunk_size overlap Hov fuel 0 [])
    as (rest & -> & _); [unfold len; simpl in *; lia..|eauto].
Qed.

Lemma collect_chunks_returns (fuel : nat) (chunk_size overlap : Z) (pages : list page_dict) :
  (0 <= overlap < chunk_size)%Z ->
  Forall (fun p => (length (pg_text p) <= fuel)%nat) pages ->
  forall acc, exists all_chunks,
    collect_chunks fuel pages chunk_size overlap acc = Some all_chunks.
Proof.
  intros Hov. induction 1 as [|p rest Hp _ IH]; intros acc; simpl; [eauto|].
  destruct (pg_text p) as [|c r] eqn:Ht; [apply IH|].
  destruct (chunk_text_returns (c :: r) chunk_size overlap fuel Hov) as (chs & ->);
    [pose proof (strip_length (c :: r)); lia|].
  apply IH.
Qed.

(** Scenario B: a page of 1300 characters and a page that is empty once
    normalised give the two chunks of the first page. *)
Example scenario_B :
  collect_chunks 2 (extract_pdf_text [Some (repeat 97%N 1300); Some (lit "   ")])
    default_chunk_size default_overlap []
  = Some [(1%Z, repeat 97%N 1200); (1%Z, repeat 97%N 300)].
Proof. vm_compute. reflexivity. Qed.

(** The two chunks of that page start with the same 64 characters, hence
    share their identifier: the ingestion reports 2 chunks and the second
    write replaces the first. *)
Example colliding_chunks_overwrite :
  (fun out => (fst out, map cd_text (collection (snd out))))
    (ingest_pdf 2 env_ok [Some (repeat 97%N 1300)] (lit "doc") (lit "a.pdf")
       default_chunk_size default_overlap st0)
  = (Ok 2%Z, [repeat 97%N 300]).
Proof. vm_compute. reflexivity. Qed.

(** With a server that applies the operations last to first, the first
    chunk is the one that stays. *)
Example colliding_chunks_reversed :
  (fun out => (fst out, map cd_text (collection (snd out))))
    (ingest_pdf 2 env_reversed [Some (repeat 97%N 1300)] (lit "doc") (lit "a.pdf")
       default_chunk_size default_overlap st0)
  = (Ok 2%Z, [repeat 97%N 1200]).
Proof. vm_compute. reflexivity. Qed.

(** [str] of an integer. *)
Example str_of_int_examples :
  str_of_int 0 = lit "0" /\ str_of_int 12 = lit "12" /\ str_of_int (-5) = lit "-5".
Proof. repeat split. Qed.

(** The theorem on two hits. *)
Lemma build_context_blocks_witness :
  build_context ([hit_of (lit "a.pdf") 1 (lit "x")] ++ [hit_of (lit "a.pdf") 1 (lit "x")])
  = build_context [hit_of (lit "a.pdf") 1 (lit "x")] ++ (nl ++ nl)
    ++ build_context [hit_of (lit "a.pdf") 1 (lit "x")].
Proof.
  apply (proj1 (proj2 (build_context_blocks [hit_of (lit "a.pdf") 1 (lit "x")])));
    discriminate.
Defined.

(* ================================================================== *)
(** * chunk_text: windows, chunk count, termination                    *)
(* ================================================================== *)

Lemma lstrip_nil_blank (s : str) : lstrip s = [] <-> blank s.
Proof.
  unfold blank. induction s as [|c r IH]; simpl.
  - split; [constructor|reflexivity].
  - destruct (isspace c) eqn:Hc.
    + rewrite IH. split; [now constructor|]. intros H. now apply Forall_cons_iff in H.
    + split; [discriminate|]. intros H. apply Forall_cons_iff in H. destruct H. congruence.
Qed.

Lemma rstrip_nil_blank (s : str) : rstrip s = [] <-> blank s.
Proof.
  unfold blank. induction s as [|c r IH]; simpl.
  - split; [constructor|reflexivity].
  - destruct (rstrip r) as [|x l] eqn:Hr.
    + destruct (isspace c) eqn:Hc.
      * split; [|reflexivity]. intros _. constructor; [exact Hc|now apply IH].
      * split; [discriminate|]. intros H. apply Forall_cons_iff in H. destruct H. congruence.
    + split; [discriminate|]. intros H. apply Forall_cons_iff in H.
      destruct H as [_ H]. apply IH in H. discriminate.
Qed.

Lemma blank_lstrip (s : str) : blank (lstrip s) -> blank s.
Proof.
  unfold blank. induction s as [|c r IH]; simpl; [trivial|].
  destruct (isspace c) eqn:Hc; [|trivial].
  intros H. constructor; auto.
Qed.

Lemma strip_nil_blank (s : str) : strip s = [] <-> blank s.
Proof.
  unfold strip. rewrite rstrip_nil_blank. split; [apply blank_lstrip|].
  intros H. apply lstrip_nil_blank in H. rewrite H. constructor.
Qed.

Section ChunkWindows.

Variable text : str.
Variables chunk_size overlap : Z.

Let n := len text.

(** Whatever the parameters, the loop only appends, and it appends at least
    one chunk when it is entered. *)
Lemma chunk_loop_appends (fuel : nat) :
  forall (start : Z) (acc r : list str),
    chunk_loop fuel text n chunk_size overlap start acc = Some r ->
    exists new, r = acc ++ new /\ ((start < n)%Z -> new <> []).
Proof.
  induction fuel as [|fuel IH]; intros start acc r; [discriminate|].
  simpl. destruct (Z.ltb_spec start n) as [Hlt|Hge].
  - destruct (Z.min (start + chunk_size) n =? n)%Z.
    + intros [= <-]. eexists. split; [reflexivity|]. discriminate.
    + intros H. destruct (IH _ _ _ H) as (new & -> & _).
      eexists. rewrite <- app_assoc. split; [reflexivity|]. discriminate.
  - intros [= <-]. exists []. rewrite app_nil_r. split; [reflexivity|lia].
Qed.

(** With [overlap < chunk_size] the loop leaves, also for a negative overlap
    and for a start beyond the end. *)
Lemma chunk_loop_terminates :
  (overlap < chunk_size)%Z ->
  forall (fuel : nat) (start : Z) (acc : list str),
    (0 <= start)%Z -> (0 < fuel)%nat -> (n - start < Z.of_nat fuel)%Z ->
    exists r, chunk_loop fuel text n chunk_size overlap start acc = Some r.
Proof.
  intros Hov. induction fuel as [|fuel IH]; intros start acc Hs Hpos Hf.
  - lia.
  - simpl. destruct (Z.ltb_spec start n) as [Hlt|Hge]; [|eauto].
    destruct (Z.eqb_spec (Z.min (start + chunk_size) n) n) as [He|He]; [eauto|].
    apply IH; lia.
Qed.

(** With [chunk_size <= overlap] and a text longer than [chunk_size] (of any
    sign), [start] comes back to 0: the loop never leaves. *)
Lemma chunk_loop_stuck_at_zero :
  (chunk_size <= overlap)%Z -> (chunk_size < n)%Z -> (0 < n)%Z ->
  forall (fuel : nat) (acc : list str),
    chunk_loop fuel text n chunk_size overlap 0 acc = None.
Proof.
  intros Hov Hn Hpos. induction fuel as [|fuel IH]; intros acc; [reflexivity|].
  simpl. destruct (Z.ltb_spec 0 n) as [_|]; [|lia].
  rewrite Z.min_l by lia.
  destruct (Z.eqb_spec chunk_size n) as [|_]; [lia|].
  rewrite Z.max_l by lia. apply IH.
Qed.

(** With [0 <= overlap < chunk_size], the chunk number [k] appended from
    [start] on is the window that starts [k] steps further; a chunk that is
    not the last lies within the text; the last one reaches its end. *)
Lemma chunk_loop_windows :
  (0 <= overlap < chunk_size)%Z ->
  forall (fuel : nat) (start : Z) (acc r : list str),
    (0 <= start < n)%Z ->
    chunk_loop fuel text n chunk_size overlap start acc = Some r ->
    exists new,
      r = acc ++ new
      /\ (forall k c, nth_error new k = Some c ->
            let lo := (start + Z.of_nat k * (chunk_size - overlap))%Z in
            (lo < n)%Z /\ c = slice text lo (Z.min (lo + chunk_size) n))
      /\ (forall k, (S k < length new)%nat ->
            (start + Z.of_nat k * (chunk_size - overlap) + chunk_size < n)%Z)
      /\ (0 < length new)%nat
      /\ (n <= start + (Z.of_nat (length new) - 1) * (chunk_size - overlap) + chunk_size)%Z.
Proof.
  intros Hov. induction fuel as [|fuel IH]; intros start acc r Hs; [discriminate|].
  simpl. destruct (Z.ltb_spec start n) as [_|]; [|lia].
  destruct (Z.eqb_spec (Z.min (start + chunk_size) n) n) as [He|He].
  - intros [= <-]. exists [slice text start (Z.min (start + chunk_size) n)].
    split; [reflexivity|]. split; [|split; [|split]].
    + intros [|k] c; simpl; [|destruct k; discriminate].
      intros [= <-]. rewrite Z.add_0_r. split; [lia|reflexivity].
    + simpl. intros k Hk. lia.
    + simpl. lia.
    + simpl. lia.
  - assert (Hend : Z.min (start + chunk_size) n = (start + chunk_size)%Z) by lia.
    rewrite Hend.
    replace (Z.max 0 (start + chunk_size - overlap))
      with (start + (chunk_size - overlap))%Z by lia.
    intros Hrun.
    destruct (IH (start + (chunk_size - overlap))%Z _ _ ltac:(lia) Hrun)
      as (new & -> & Hwin & Hin & Hpos & Hlast).
    exists (slice text start (start + chunk_size) :: new).
    split; [now rewrite <- app_assoc|]. split; [|split; [|split]].
    + intros [|k] c; cbn [nth_error]; cbv zeta.
      * intros [= <-]. change (Z.of_nat 0) with 0%Z.
        rewrite Z.mul_0_l, Z.add_0_r, Hend. split; [lia|reflexivity].
      * intros Hk. destruct (Hwin k c Hk) as (Hlo & Hc).
        replace (start + Z.of_nat (S k) * (chunk_size - overlap))%Z
          with (start + (chunk_size - overlap) + Z.of_nat k * (chunk_size - overlap))%Z
          by lia.
        split; assumption.
    + intros [|k] Hk; cbn [length] in Hk.
      * change (Z.of_nat 0) with 0%Z. lia.
      * specialize (Hin k ltac:(lia)).
        replace (start + Z.of_nat (S k) * (chunk_size - overlap) + chunk_size)%Z
          with (start + (chunk_size - overlap) + Z.of_nat k * (chunk_size - overlap)
                + chunk_size)%Z by lia.
        exact Hin.
    + cbn [length]. lia.
    + cbn [length]. lia.
Qed.

End ChunkWindows.

Lemma slice_clamp (s : str) (lo hi : Z) :
  (0 <= hi)%Z -> slice s lo (Z.min hi (len s)) = slice s lo hi.
Proof.
  intros H. unfold slice, adjust_index.
  destruct (Z.ltb_spec (Z.min hi (len s)) 0) as [H1|H1];
    [unfold len in *; lia|].
  destruct (Z.ltb_spec hi 0); [lia|].
  now rewrite Z.min_l by lia.
Qed.

Lemma skipn_slice (s : str) (lo hi a : Z) :
  (0 <= lo)%Z -> (0 <= a)%Z -> (lo + a <= hi)%Z -> (hi <= len s)%Z ->
  skipn (Z.to_nat a) (slice s lo hi) = slice s (lo + a) hi.
Proof.
  intros H1 H2 H3 H4. rewrite !slice_in_range by lia.
  rewrite skipn_firstn_comm, skipn_skipn. f_equal; [lia|f_equal; lia].
Qed.

Lemma firstn_slice (s : str) (lo hi b : Z) :
  (0 <= lo)%Z -> (0 <= b)%Z -> (lo + b <= hi)%Z -> (hi <= len s)%Z ->
  firstn (Z.to_nat b) (slice s lo hi) = slice s lo (lo + b).
Proof.
  intros H1 H2 H3 H4. rewrite !slice_in_range by lia.
  rewrite firstn_firstn. f_equal. lia.
Qed.

(** X1. A text whose trimmed form is not empty and not longer than
    [chunk_size] gives exactly one chunk, the trimmed text, whatever the
    overlap (also an overlap of [chunk_size] or more). *)
Theorem chunk_text_single_chunk (text : str) (chunk_size overlap : Z) (fuel : nat) :
  strip text <> [] -> (len (strip text) <= chunk_size)%Z -> (0 < fuel)%nat ->
  chunk_text fuel text chunk_size overlap = Some [strip text].
Proof.
  intros Hne Hfit Hfuel. unfold chunk_text.
  destruct (strip text) as [|c r] eqn:E; [congruence|].
  destruct fuel as [|fuel]; [lia|].
  set (t := c :: r) in *. simpl.
  assert (Hn : (0 < len t)%Z) by (unfold len; simpl; lia).
  destruct (Z.ltb_spec 0 (len t)) as [_|]; [|lia].
  rewrite Z.min_r by lia. rewrite Z.eqb_refl.
  rewrite slice_in_range by lia. simpl skipn.
  rewrite Z.sub_0_r. unfold len. rewrite Nat2Z.id, firstn_all. reflexivity.
Qed.

Lemma chunk_text_single_chunk_witness :
  chunk_text 1 (lit "  short page ") 1200 5000 = Some [strip (lit "  short page ")].
Proof.
  apply chunk_text_single_chunk; [discriminate|vm_compute; discriminate|lia].
Defined.

(** X2. [chunk_text] returns the empty list exactly on a text made of white
    space only (the empty text included), whatever the sizes and the fuel. *)
Theorem chunk_text_empty_iff (text : str) (chunk_size overlap : Z) (fuel : nat) :
  chunk_text fuel text chunk_size overlap = Some [] <-> blank text.
Proof.
  unfold chunk_text. rewrite <- strip_nil_blank.
  destruct (strip text) as [|c r] eqn:E.
  - split; reflexivity.
  - split; [|discriminate]. intros H.
    destruct (chunk_loop_appends (c :: r) chunk_size overlap fuel 0 [] [] H)
      as (new & Hnew & Hne).
    simpl in Hnew. subst new. exfalso. apply Hne; [|reflexivity].
    unfold len. simpl. lia.
Qed.

(** X3. For [0 <= overlap < chunk_size], chunk number [k] (from 0) of the
    list that [chunk_text] returns is the window
    [t[k*step : k*step + chunk_size]] of the trimmed text [t], with
    [step = chunk_size - overlap]; it starts inside the text, so it is never
    empty. *)
Theorem chunk_text_windows
  (text : str) (chunk_size overlap : Z) (fuel : nat) (chunks : list str) :
  (0 <= overlap < chunk_size)%Z ->
  chunk_text fuel text chunk_size overlap = Some chunks ->
  forall k c, nth_error chunks k = Some c ->
    let lo := (Z.of_nat k * (chunk_size - overlap))%Z in
    (lo < len (strip text))%Z
    /\ c = slice (strip text) lo (lo + chunk_size)
    /\ c <> [].
Proof.
  intros Hov. unfold chunk_text.
  destruct (strip text) as [|c0 r] eqn:E.
  - intros [= <-] [|k] c; discriminate.
  - set (t := c0 :: r) in *. intros Hrun k c Hk. cbv zeta.
    assert (Hpos : (0 <= 0 < len t)%Z) by (unfold len; simpl; lia).
    destruct (chunk_loop_windows t chunk_size overlap Hov fuel 0 [] chunks Hpos Hrun)
      as (new & Hnew & Hwin & _).
    simpl in Hnew. subst new.
    destruct (Hwin k c Hk) as (Hlo & Hc). rewrite Z.add_0_l in Hlo, Hc.
    rewrite slice_clamp in Hc by nia.
    split; [exact Hlo|]. split; [exact Hc|].
    intros ->. apply (f_equal len) in Hc.
    rewrite <- slice_clamp in Hc by nia.
    rewrite len_slice in Hc by nia. unfold len in Hc at 1. simpl in Hc. lia.
Qed.

Lemma chunk_text_windows_witness :
  (Z.of_nat 1 * (4 - 1) < len (strip (lit "abcdefghij")))%Z
  /\ lit "defg" = slice (strip (lit "abcdefghij")) (Z.of_nat 1 * (4 - 1)) (Z.of_nat 1 * (4 - 1) + 4)
  /\ lit "defg" <> [].
Proof.
  apply (chunk_text_windows (lit "abcdefghij") 4 1 10
           [lit "abcd"; lit "defg"; lit "ghij"]); [lia|reflexivity|reflexivity].
Defined.

(** X4. For [0 <= overlap < chunk_size] and a trimmed text of [n > 0]
    characters, [chunk_text] returns [max(1, (n - overlap - 1) // step + 1)]
    chunks, with [step = chunk_size - overlap]: one chunk up to [chunk_size]
    characters, then one more for every [step] characters begun. *)
Theorem chunk_text_count
  (text : str) (chunk_size overlap : Z) (fuel : nat) (chunks : list str) :
  (0 <= overlap < chunk_size)%Z ->
  strip text <> [] ->
  chunk_text fuel text chunk_size overlap = Some chunks ->
  Z.of_nat (length chunks)
  = Z.max 1 ((len (strip text) - overlap - 1) / (chunk_size - overlap) + 1).
Proof.
  intros Hov Hne. unfold chunk_text.
  destruct (strip text) as [|c0 r] eqn:E; [congruence|].
  set (t := c0 :: r) in *. intros Hrun.
  assert (Hpos : (0 <= 0 < len t)%Z) by (unfold len; simpl; lia).
  destruct (chunk_loop_windows t chunk_size overlap Hov fuel 0 [] chunks Hpos Hrun)
    as (new & Hnew & _ & Hin & Hlen & Hlast).
  simpl in Hnew. subst new.
  set (m := length chunks) in *. set (n := len t) in *.
  set (step := (chunk_size - overlap)%Z) in *.
  assert (Hstep : (0 < step)%Z) by (subst step; lia).
  destruct (Nat.eq_dec m 1) as [Hm|Hm].
  - rewrite Hm in *. change (Z.of_nat 1) with 1%Z in *.
    assert (Hq : ((n - overlap - 1) / step <= 0)%Z).
    { apply Z.lt_succ_r. apply Z.div_lt_upper_bound; lia. }
    lia.
  - specialize (Hin (m - 2)%nat ltac:(lia)).
    assert (Hq : ((n - overlap - 1) / step = Z.of_nat m - 1)%Z).
    { symmetry. apply (Z.div_unique_pos _ _ _ (n - overlap - 1 - step * (Z.of_nat m - 1))); nia. }
    lia.
Qed.

Lemma chunk_text_count_witness :
  Z.of_nat (length [lit "abcd"; lit "defg"; lit "ghij"])
  = Z.max 1 ((len (strip (lit "abcdefghij")) - 1 - 1) / (4 - 1) + 1).
Proof.
  apply (chunk_text_count (lit "abcdefghij") 4 1 10); [lia|discriminate|reflexivity].
Defined.

(** X5. For [0 <= overlap < chunk_size], two consecutive chunks share
    exactly [overlap] characters: the first of the two has the full
    [chunk_size], and what is left of it after [chunk_size - overlap]
    characters is the beginning, of length [overlap], of the next one, which
    is longer than [overlap]. *)
Theorem chunk_text_adjacent_overlap
  (text : str) (chunk_size overlap : Z) (fuel : nat) (chunks : list str) :
  (0 <= overlap < chunk_size)%Z ->
  chunk_text fuel text chunk_size overlap = Some chunks ->
  forall k c c',
    nth_error chunks k = Some c -> nth_error chunks (S k) = Some c' ->
    len c = chunk_size
    /\ (overlap < len c')%Z
    /\ skipn (Z.to_nat (chunk_size - overlap)) c = firstn (Z.to_nat overlap) c'.
Proof.
  intros Hov. unfold chunk_text.
  destruct (strip text) as [|c0 r] eqn:E.
  - intros [= <-] [|k] c c'; discriminate.
  - set (t := c0 :: r) in *. intros Hrun k c c' Hk Hk'.
    assert (Hpos : (0 <= 0 < len t)%Z) by (unfold len; simpl; lia).
    destruct (chunk_loop_windows t chunk_size overlap Hov fuel 0 [] chunks Hpos Hrun)
      as (new & Hnew & Hwin & Hin & _).
    simpl in Hnew. subst new.
    assert (Hlt : (S k < length chunks)%nat).
    { apply nth_error_Some. congruence. }
    specialize (Hin k Hlt). rewrite Z.add_0_l in Hin.
    destruct (Hwin k c Hk) as (Hlo & Hc).
    destruct (Hwin (S k) c' Hk') as (Hlo' & Hc').
    rewrite Z.add_0_l in Hlo, Hc, Hlo', Hc'.
    set (step := (chunk_size - overlap)%Z) in *.
    set (lo := (Z.of_nat k * step)%Z) in *.
    replace (Z.of_nat (S k) * step)%Z with (lo + step)%Z in * by (subst lo; lia).
    assert (H0 : (0 <= lo)%Z) by (subst lo step; nia).
    rewrite Z.min_l in Hc by lia.
    assert (Hlc : len c = chunk_size) by (rewrite Hc, len_slice; lia).
    assert (Hlc' : (overlap < len c')%Z) by (rewrite Hc', len_slice; lia).
    split; [exact Hlc|]. split; [exact Hlc'|].
    rewrite Hc, Hc'.
    rewrite skipn_slice by lia.
    rewrite firstn_slice by lia.
    f_equal. subst step. lia.
Qed.

Lemma chunk_text_adjacent_overlap_witness :
  len (lit "abcd") = 4%Z
  /\ (1 < len (lit "defg"))%Z
  /\ skipn (Z.to_nat (4 - 1)) (lit "abcd") = firstn (Z.to_nat 1) (lit "defg").
Proof.
  apply (chunk_text_adjacent_overlap (lit "abcdefghij") 4 1 10
           [lit "abcd"; lit "defg"; lit "ghij"] ltac:(lia) eq_refl 0);
    reflexivity.
Defined.

(** X6. Termination of [chunk_text], for all integer sizes: the call returns
    (with enough fuel) exactly when the trimmed text is empty, or
    [overlap < chunk_size], or the trimmed text is not longer than
    [chunk_size]; otherwise no fuel is enough. *)
Theorem chunk_text_returns_iff (text : str) (chunk_size overlap : Z) :
  (exists fuel chunks, chunk_text fuel text chunk_size overlap = Some chunks)
  <-> (strip text = []
       \/ (overlap < chunk_size)%Z
       \/ (len (strip text) <= chunk_size)%Z).
Proof.
  unfold chunk_text. split.
  - intros (fuel & chunks & Hrun).
    destruct (strip text) as [|c r] eqn:E; [now left|]. right.
    destruct (Z.lt_ge_cases overlap chunk_size) as [|Hov]; [now left|]. right.
    destruct (Z.le_gt_cases (len (c :: r)) chunk_size) as [|Hn]; [assumption|].
    rewrite chunk_loop_stuck_at_zero in Hrun;
      [discriminate|lia|lia|unfold len; simpl; lia].
  - intros H. destruct (strip text) as [|c r] eqn:E.
    + exists 0%nat, []. reflexivity.
    + set (t := c :: r) in *.
      destruct H as [H|[H|H]]; [discriminate| |].
      * destruct (chunk_loop_terminates t chunk_size overlap H (S (length t)) 0 [])
          as (chunks & Hrun); [lia|lia|unfold len; lia|].
        exists (S (length t)), chunks. exact Hrun.
      * exists 1%nat, [t]. simpl.
        assert (Hn : (0 < len t)%Z) by (unfold len; simpl; lia).
        destruct (Z.ltb_spec 0 (len t)) as [_|]; [|lia].
        rewrite Z.min_r by lia. rewrite Z.eqb_refl.
        rewrite slice_in_range by lia. simpl skipn.
        rewrite Z.sub_0_r. unfold len. rewrite Nat2Z.id, firstn_all. reflexivity.
Qed.

(* ================================================================== *)
(** * clean_text as a join of words                                    *)
(* ================================================================== *)

Lemma rstrip_fixed_tail (c : char) (r : str) :
  rstrip (c :: r) = c :: r -> rstrip r = r /\ (isspace c = true -> r <> []).
Proof.
  simpl. destruct (rstrip r) as [|x l] eqn:Hr.
  - destruct (isspace c); [discriminate|]. intros [= <-]. split; [reflexivity|discriminate].
  - intros [= <-]. split; [reflexivity|discriminate].
Qed.

(** On a single-spaced string without trailing white space, joining the
    words with a space gives the string back; [cur] is the word being read,
    and the string may start with a space only when [cur] is not empty. *)
Lemma join_split_ws (s : str) :
  forall cur,
    single_spaced (match cur with [] => true | _ => false end) s ->
    rstrip s = s ->
    join (lit " ") (split_ws cur s) = cur ++ s.
Proof.
  induction s as [|c r IH]; intros cur Hs Hr.
  - simpl. destruct cur; simpl; now rewrite ?app_nil_r.
  - destruct (rstrip_fixed_tail c r Hr) as (Hr' & Hne).
    simpl in Hs. simpl split_ws. destruct (isspace c) eqn:Hc.
    + destruct Hs as (-> & Hcur & Hs).
      destruct cur as [|c0 cur]; [discriminate|].
      specialize (IH [] Hs Hr'). simpl app in IH.
      destruct (split_ws [] r) as [|w ws] eqn:Hw.
      * simpl in IH. subst r. now destruct (Hne eq_refl).
      * change (join (lit " ") ((c0 :: cur) :: w :: ws))
          with ((c0 :: cur) ++ lit " " ++ join (lit " ") (w :: ws)).
        rewrite IH. reflexivity.
    + rewrite (IH (cur ++ [c])).
      * now rewrite <- app_assoc.
      * destruct cur; exact Hs.
      * exact Hr'.
Qed.

Lemma single_spaced_head (s : str) :
  single_spaced false s -> lstrip s = s -> single_spaced true s.
Proof.
  destruct s as [|c r]; simpl; [trivial|].
  destruct (isspace c); [|trivial].
  intros _ H. pose proof (lstrip_length r) as Hl. rewrite H in Hl. simpl in Hl. lia.
Qed.

(** X7. [clean_text] is [" ".join(txt.split())]: the words of the text (its
    maximal runs of characters that are not white space), in order, joined by
    single spaces. *)
Theorem clean_text_join_words (x : str) :
  clean_text x = join (lit " ") (words x).
Proof.
  rewrite <- (words_clean_text x). unfold words.
  rewrite (join_split_ws (clean_text x) []); [reflexivity| |].
  - apply single_spaced_head; [apply clean_text_single_spaced|].
    unfold clean_text, strip. apply lstrip_rstrip_fixed, lstrip_idem.
  - unfold clean_text, strip. apply rstrip_idem.
Qed.

Lemma visible_nil_blank (s : str) : visible s = [] <-> blank s.
Proof.
  unfold blank, visible. induction s as [|c r IH]; simpl.
  - split; [constructor|reflexivity].
  - destruct (isspace c) eqn:Hc; simpl.
    + rewrite IH. split; [now constructor|].
      intros H. now apply Forall_cons_iff in H.
    + split; [discriminate|]. intros H. apply Forall_cons_iff in H.
      destruct H. congruence.
Qed.

Lemma visible_clean_text (x : str) : visible (clean_text x) = visible x.
Proof.
  unfold clean_text, strip, WHITESPACE_RE_sub.
  now rewrite visible_rstrip, visible_lstrip, visible_ws_sub.
Qed.

(** X8. [clean_text] returns the empty string exactly on a text made of
    white space only: these are the pages that [ingest_pdf] skips. *)
Theorem clean_text_empty_iff (x : str) : clean_text x = [] <-> blank x.
Proof.
  rewrite <- (visible_nil_blank x), <- visible_clean_text. split.
  - now intros ->.
  - intros H. apply visible_nil_blank, strip_nil_blank in H.
    unfold clean_text in *. now rewrite strip_idem in H.
Qed.

(* ================================================================== *)
(** * deterministic_id: when it raises                                 *)
(* ================================================================== *)

Lemma encode_char_result (c : char) :
  (exists b, encode_char c = Ok b /\ encodable_char c)
  \/ (encode_char c = Raise UnicodeEncodeError /\ ~ encodable_char c).
Proof.
  unfold encodable_char, encode_char.
  destruct (N.ltb_spec c 128); [left; eexists; split; [reflexivity|lia]|].
  destruct (N.ltb_spec c 2048); [left; eexists; split; [reflexivity|lia]|].
  destruct (N.ltb_spec c 65536).
  - destruct (N.leb_spec 55296 c); simpl.
    + destruct (N.leb_spec c 57343).
      * right. split; [reflexivity|lia].
      * left. eexists; split; [reflexivity|lia].
    + left. eexists; split; [reflexivity|lia].
  - destruct (N.leb_spec c 1114111).
    + left. eexists; split; [reflexivity|lia].
    + right. split; [reflexivity|lia].
Qed.

Lemma encode_utf8_result (s : str) :
  (exists b, encode_utf8 s = Ok b /\ encodable s)
  \/ (encode_utf8 s = Raise UnicodeEncodeError /\ ~ encodable s).
Proof.
  unfold encodable. induction s as [|c r IH]; simpl.
  - left. eexists. split; [reflexivity|constructor].
  - destruct (encode_char_result c) as [(b & -> & Hc)|(-> & Hc)].
    + destruct IH as [(bs & -> & Hr)|(-> & Hr)].
      * left. eexists. split; [reflexivity|now constructor].
      * right. split; [reflexivity|]. intros H. apply Forall_cons_iff in H. tauto.
    + right. split; [reflexivity|]. intros H. apply Forall_cons_iff in H. tauto.
Qed.

Lemma encodable_concat (parts : list str) :
  encodable (concat parts) <-> Forall encodable parts.
Proof.
  unfold encodable. induction parts as [|p rest IH]; simpl.
  - split; constructor.
  - rewrite Forall_app, IH, Forall_cons_iff. reflexivity.
Qed.

Lemma deterministic_id_result (parts : list str) :
  (exists id, deterministic_id parts = Ok id /\ Forall encodable parts)
  \/ (deterministic_id parts = Raise UnicodeEncodeError /\ ~ Forall encodable parts).
Proof.
  rewrite deterministic_id_concat.
  destruct (encode_utf8_result (concat parts)) as [(b & -> & H)|(-> & H)].
  - left. eexists. split; [reflexivity|now apply encodable_concat].
  - right. split; [reflexivity|]. intros Hp. now apply H, encodable_concat.
Qed.

(** X9. [deterministic_id] returns an identifier exactly when every part can
    be encoded in UTF-8, that is, contains no surrogate code point; otherwise
    it raises [UnicodeEncodeError], and it raises nothing else. *)
Theorem deterministic_id_raises_iff (parts : list str) :
  ((exists id, deterministic_id parts = Ok id) <-> Forall encodable parts)
  /\ (deterministic_id parts = Raise UnicodeEncodeError <-> ~ Forall encodable parts)
  /\ (forall e, deterministic_id parts = Raise e -> e = UnicodeEncodeError).
Proof.
  destruct (deterministic_id_result parts) as [(id & H & Henc)|(H & Henc)]; rewrite H.
  - split; [|split].
    + split; [trivial|eauto].
    + split; [discriminate|tauto].
    + discriminate.
  - split; [|split].
    + split; [intros (id & Hid); discriminate|tauto].
    + tauto.
    + now intros e [= <-].
Qed.

(* ================================================================== *)
(** * embed_texts and upsert_chunks: the runs                          *)
(* ================================================================== *)

(** When every request succeeds, the loop returns the vectors of the texts,
    in order, after one request per text. *)
Lemma embed_loop_ok (env : Env) (texts : list str) (vs : list vector) :
  Forall2 (fun t v => genai_embed_content env (EMBED_MODEL env) t = Some v) texts vs ->
  forall out st,
    embed_loop env texts out st
    = (Ok (out ++ vs), logged st (map (EmbedContent (EMBED_MODEL env)) texts)).
Proof.
  induction 1 as [|t v texts vs Htv _ IH]; intros out st; simpl.
  - now rewrite app_nil_r, logged_nil.
  - unfold bind. rewrite embed_content_run, Htv, IH, logged_logged, <- app_assoc.
    reflexivity.
Qed.

(** The loop returns only after every text has got its vector. *)
Lemma embed_loop_inv (env : Env) (texts : list str) :
  forall out st r st',
    embed_loop env texts out st = (Ok r, st') ->
    exists vs,
      r = out ++ vs
      /\ Forall2 (fun t v => genai_embed_content env (EMBED_MODEL env) t = Some v) texts vs.
Proof.
  induction texts as [|t rest IH]; intros out st r st'; simpl.
  - unfold ret. intros [= <- <-]. exists []. now rewrite app_nil_r.
  - unfold bind. rewrite embed_content_run.
    destruct (genai_embed_content env (EMBED_MODEL env) t) as [v|] eqn:Hv; [|discriminate].
    intros H. destruct (IH _ _ _ _ H) as (vs & -> & Hvs).
    exists (v :: vs). rewrite <- app_assoc. split; [reflexivity|now constructor].
Qed.

(** X10. When [embed_texts] returns, its vectors are aligned with the texts:
    as many vectors as texts, the one at each position being what the
    collaborator gave for the text at that position; the requests went out
    one per text, in the order of the texts, after the configuration. *)
Theorem embed_texts_aligned
  (env : Env) (texts : list str) (st st' : state) (vecs : list vector) :
  embed_texts env texts st = (Ok vecs, st') ->
  length vecs = length texts
  /\ (forall i t, nth_error texts i = Some t ->
        exists v, nth_error vecs i = Some v
                  /\ genai_embed_content env (EMBED_MODEL env) t = Some v)
  /\ st' = logged st (GenaiConfigure (GEMINI_API_KEY env)
                      :: map (EmbedContent (EMBED_MODEL env)) texts).
Proof.
  intros Hrun.
  destruct (GEMINI_API_KEY env) as [|c key] eqn:Hkey.
  - rewrite embed_texts_without_key in Hrun by assumption. discriminate.
  - rewrite embed_texts_with_key in Hrun by congruence.
    destruct (embed_loop_inv _ _ _ _ _ _ Hrun) as (vs & Hvs & Hall).
    simpl in Hvs. subst vs.
    rewrite (embed_loop_ok env texts vecs Hall) in Hrun.
    injection Hrun as <-. rewrite logged_logged, Hkey.
    split; [symmetry; eapply Forall2_length; eassumption|].
    split; [|reflexivity].
    intros i t Hi.
    destruct (Forall2_nth_error_left _ _ _ Hall _ _ Hi) as (v & Hv & Htv). eauto.
Qed.

Lemma embed_texts_aligned_witness :
  length [([] : vector); []] = length [lit "a"; lit "b"]
  /\ (forall i t, nth_error [lit "a"; lit "b"] i = Some t ->
        exists v, nth_error [([] : vector); []] i = Some v
                  /\ genai_embed_content env_ok (EMBED_MODEL env_ok) t = Some v)
  /\ logged st0 [GenaiConfigure (lit "key");
                 EmbedContent (lit "text-embedding-004") (lit "a");
                 EmbedContent (lit "text-embedding-004") (lit "b")]
     = logged st0 (GenaiConfigure (GEMINI_API_KEY env_ok)
                   :: map (EmbedContent (EMBED_MODEL env_ok)) [lit "a"; lit "b"]).
Proof.
  apply (embed_texts_aligned env_ok [lit "a"; lit "b"] st0). reflexivity.
Defined.

Lemma string_of_uint_encodable (d : Decimal.uint) :
  encodable (lit (NilEmpty.string_of_uint d)).
Proof.
  unfold encodable, lit.
  induction d; simpl; constructor; try assumption;
    unfold encodable_char; left; reflexivity.
Qed.

Lemma str_of_int_encodable (i : Z) : encodable (str_of_int i).
Proof.
  unfold str_of_int, NilEmpty.string_of_int.
  destruct (Z.to_int i) as [d|d].
  - apply string_of_uint_encodable.
  - unfold encodable, lit. simpl. constructor.
    + unfold encodable_char. left. reflexivity.
    + apply string_of_uint_encodable.
Qed.

(** The identifier of a chunk exists exactly when the document identifier
    and the first 64 characters of the text can be encoded. *)
Lemma chunk_id_of_result (doc_id : str) (page : Z) (text : str) :
  (exists id, chunk_id_of doc_id page text = Ok id
              /\ encodable doc_id /\ encodable (slice text 0 64))
  \/ (chunk_id_of doc_id page text = Raise UnicodeEncodeError
      /\ ~ (encodable doc_id /\ encodable (slice text 0 64))).
Proof.
  unfold chunk_id_of.
  destruct (deterministic_id_result [doc_id; str_of_int page; slice text 0 64])
    as [(id & H & Henc)|(H & Henc)]; rewrite H.
  - left. exists id. split; [reflexivity|].
    apply Forall_cons_iff in Henc. destruct Henc as (Hd & Henc).
    apply Forall_cons_iff in Henc. destruct Henc as (_ & Henc).
    apply Forall_cons_iff in Henc. tauto.
  - right. split; [reflexivity|]. intros (Hd & Ht). apply Henc.
    repeat constructor; trivial. apply str_of_int_encodable.
Qed.

Lemma build_ops_total (doc_id doc_name : str) (pairs : list ((Z * str) * vector)) :
  encodable doc_id ->
  Forall (fun pr => encodable (slice (snd (fst pr)) 0 64)) pairs ->
  forall acc, exists ops, build_ops doc_id doc_name pairs acc = Ok ops.
Proof.
  intros Hd. induction 1 as [|[[page text] emb] rest Hp _ IH]; intros acc; simpl; [eauto|].
  destruct (chunk_id_of_result doc_id page text) as [(id & -> & _)|(_ & Hbad)].
  - apply IH.
  - simpl in Hp. tauto.
Qed.

Lemma build_ops_raises (doc_id doc_name : str) (pairs : list ((Z * str) * vector)) :
  Exists (fun pr => ~ (encodable doc_id /\ encodable (slice (snd (fst pr)) 0 64))) pairs ->
  forall acc, build_ops doc_id doc_name pairs acc = Raise UnicodeEncodeError.
Proof.
  induction pairs as [|[[page text] emb] rest IH]; intros Hex acc; [inversion Hex|].
  simpl. destruct (chunk_id_of_result doc_id page text) as [(id & -> & Hd & Ht)|(-> & _)];
    [|reflexivity].
  apply IH. apply Exists_cons in Hex. destruct Hex as [Hex|Hex]; [|exact Hex].
  simpl in Hex. tauto.
Qed.

Lemma combine_map_snd_Exists {A B C} (P : B -> Prop) (l : list (A * B)) (vs : list C) :
  length vs = length l ->
  Exists (fun c => P (snd c)) l ->
  Exists (fun pr => P (snd (fst pr))) (combine l vs).
Proof.
  revert vs. induction l as [|c l IH]; intros vs Hlen Hex; [inversion Hex|].
  destruct vs as [|v vs]; [discriminate|]. simpl.
  apply Exists_cons in Hex. destruct Hex as [Hex|Hex].
  - now left.
  - right. apply IH; [simpl in Hlen; lia|exact Hex].
Qed.

Lemma combine_map_snd_Forall {A B C} (P : B -> Prop) (l : list (A * B)) (vs : list C) :
  Forall (fun c => P (snd c)) l ->
  Forall (fun pr => P (snd (fst pr))) (combine l vs).
Proof.
  revert vs. induction l as [|c l IH]; intros vs Hall; [constructor|].
  destruct vs as [|v vs]; [constructor|]. simpl.
  apply Forall_cons_iff in Hall. destruct Hall. constructor; auto.
Qed.

(** A run of [upsert_chunks] on a non-empty chunk list, once the collection
    is obtained, with a key and an embedding collaborator that answers for
    every text. *)
Lemma upsert_chunks_run
  (env : Env) (doc_id doc_name : str) (chunks : list (Z * str)) (vecs : list vector)
  (st st1 : state) (col : collection_handle) :
  get_collection env st = (Ok col, st1) ->
  chunks <> [] ->
  GEMINI_API_KEY env <> [] ->
  Forall2 (fun t v => genai_embed_content env (EMBED_MODEL env) t = Some v)
          (map snd chunks) vecs ->
  let requests := GenaiConfigure (GEMINI_API_KEY env)
                  :: map (EmbedContent (EMBED_MODEL env)) (map snd chunks) in
  upsert_chunks env doc_id doc_name chunks st
  = match build_ops doc_id doc_name (combine chunks vecs) [] with
    | Raise e => (Raise e, logged st1 requests)
    | Ok ops =>
        match bulk_write env col ops (logged st1 requests) with
        | (Raise e, st') => (Raise e, st')
        | (Ok _, st') => (Ok (Z.of_nat (length ops)), st')
        end
    end.
Proof.
  intros Hcol Hne Hkey Hvecs. cbv zeta.
  assert (Hlen : length vecs = length chunks).
  { apply Forall2_length in Hvecs. rewrite length_map in Hvecs. congruence. }
  rewrite (upsert_chunks_connected env doc_id doc_name chunks st st1 col Hcol Hne).
  rewrite embed_texts_with_key by assumption.
  rewrite (embed_loop_ok env _ vecs Hvecs), logged_logged. simpl app.
  destruct (build_ops doc_id doc_name (combine chunks vecs) []) as [ops|e] eqn:Hops;
    [|reflexivity].
  destruct (build_ops_spec _ _ _ _ _ Hops) as (new & Hnew & Hall).
  simpl in Hnew. subst new.
  apply Forall2_length in Hall. rewrite length_combine, Hlen, Nat.min_id in Hall.
  destruct ops as [|op ops]; [|reflexivity].
  destruct chunks; [congruence|discriminate].
Qed.

(** X11. A chunk whose first 64 characters cannot be encoded (or a document
    identifier that cannot) makes [upsert_chunks] raise [UnicodeEncodeError]
    after the embeddings of all the chunks have been requested and before
    any write: the collection is unchanged. (When the client of the store
    cannot be constructed, the call has raised before, without any
    request.) *)
Theorem upsert_chunks_encode_failure
  (env : Env) (doc_id doc_name : str) (chunks : list (Z * str)) (vecs : list vector)
  (st : state) :
  GEMINI_API_KEY env <> [] ->
  Forall2 (fun t v => genai_embed_content env (EMBED_MODEL env) t = Some v)
          (map snd chunks) vecs ->
  Exists (fun c => ~ (encodable doc_id /\ encodable (slice (snd c) 0 64))) chunks ->
  match get_collection env st with
  | (Ok _, st1) =>
      upsert_chunks env doc_id doc_name chunks st
      = (Raise UnicodeEncodeError,
         logged st1 (GenaiConfigure (GEMINI_API_KEY env)
                     :: map (EmbedContent (EMBED_MODEL env)) (map snd chunks)))
  | (Raise e, st1) =>
      upsert_chunks env doc_id doc_name chunks st = (Raise e, st1)
  end
  /\ collection (snd (upsert_chunks env doc_id doc_name chunks st)) = collection st.
Proof.
  intros Hkey Hvecs Hex.
  assert (Hne : chunks <> []) by (intros ->; inversion Hex).
  destruct (get_collection env st) as [[col|e] st1] eqn:Hcol;
    destruct (get_collection_quiet _ _ _ _ Hcol) as (Hc1 & _).
  - rewrite (upsert_chunks_run env doc_id doc_name chunks vecs st st1 col Hcol Hne Hkey Hvecs).
    rewrite build_ops_raises; [split; [reflexivity|exact Hc1]|].
    apply (combine_map_snd_Exists
             (fun t => ~ (encodable doc_id /\ encodable (slice t 0 64)))); [|exact Hex].
    apply Forall2_length in Hvecs. rewrite length_map in Hvecs. congruence.
  - rewrite (upsert_chunks_unconnected env doc_id doc_name chunks st st1 e Hcol).
    split; [reflexivity|exact Hc1].
Qed.

Lemma upsert_chunks_encode_failure_witness :
  upsert_chunks env_ok (lit "doc") (lit "a.pdf") [(1%Z, [55296%N])] st0
  = (Raise UnicodeEncodeError,
     logged st0 (GenaiConfigure (GEMINI_API_KEY env_ok)
                 :: map (EmbedContent (EMBED_MODEL env_ok)) (map snd [(1%Z, [55296%N])]))).
Proof.
  refine (proj1 (upsert_chunks_encode_failure env_ok (lit "doc") (lit "a.pdf")
                   [(1%Z, [55296%N])] [[]] st0 _ _ _)).
  - discriminate.
  - repeat constructor.
  - left. simpl. intros (_ & H). apply Forall_cons_iff in H. destruct H as (H & _).
    unfold encodable_char in H. lia.
Defined.

(* ================================================================== *)
(** * The collection under upserts                                     *)
(* ================================================================== *)

Lemma str_eqb_eq (a b : str) : str_eqb a b = true <-> a = b.
Proof.
  revert b. induction a as [|x a IH]; intros [|y b]; simpl;
    try (split; [discriminate|discriminate]); [split; reflexivity|].
  rewrite andb_true_iff, N.eqb_eq, IH. split; [intros (-> & ->); reflexivity|].
  intros [= -> ->]. split; reflexivity.
Qed.

Lemma matches_filter_key (op : UpdateOne) (d : chunk_doc) :
  matches_filter op d = true <-> op_key op = doc_key d.
Proof.
  unfold matches_filter, op_key, doc_key.
  rewrite andb_true_iff, !str_eqb_eq. split; [intros (-> & ->); reflexivity|].
  intros [= -> ->]. split; reflexivity.
Qed.

Lemma matches_filter_same_key (o1 o2 : UpdateOne) (d : chunk_doc) :
  op_key o1 = op_key o2 -> matches_filter o1 d = matches_filter o2 d.
Proof.
  intros H. destruct (matches_filter o2 d) eqn:E.
  - apply matches_filter_key. rewrite H. now apply matches_filter_key.
  - destruct (matches_filter o1 d) eqn:E1; [|reflexivity].
    apply matches_filter_key in E1. rewrite H in E1.
    apply matches_filter_key in E1. congruence.
Qed.

Lemma matches_filter_self (op : UpdateOne) :
  self_keyed op -> matches_filter op (set_fields op) = true.
Proof. intros H. apply matches_filter_key. now rewrite H. Qed.

Lemma matches_filter_other (o1 o2 : UpdateOne) :
  self_keyed o2 -> op_key o1 <> op_key o2 -> matches_filter o1 (set_fields o2) = false.
Proof.
  intros H2 Hne. destruct (matches_filter o1 (set_fields o2)) eqn:E; [|reflexivity].
  apply matches_filter_key in E. rewrite H2 in E. congruence.
Qed.

(** One upsert on a collection that starts with [d]. *)
Lemma apply_UpdateOne_cons (op : UpdateOne) (d : chunk_doc) (col : list chunk_doc) :
  apply_UpdateOne (d :: col) op
  = if matches_filter op d then set_fields op :: col
    else d :: apply_UpdateOne col op.
Proof.
  unfold apply_UpdateOne. simpl.
  destruct (matches_filter op d); [reflexivity|].
  destruct (update_first op col); reflexivity.
Qed.

Lemma apply_UpdateOne_nil (op : UpdateOne) : apply_UpdateOne [] op = [set_fields op].
Proof. reflexivity. Qed.

(** An upsert keeps every key that is there, and puts its own. *)
Lemma apply_UpdateOne_keeps (o o' : UpdateOne) (col : list chunk_doc) :
  self_keyed o' ->
  existsb (matches_filter o) col = true ->
  existsb (matches_filter o) (apply_UpdateOne col o') = true.
Proof.
  intros H'. induction col as [|d col IH]; [discriminate|].
  rewrite apply_UpdateOne_cons. simpl existsb.
  destruct (matches_filter o' d) eqn:E'; simpl.
  - destruct (matches_filter o d) eqn:E; simpl.
    + intros _. apply orb_true_iff. left. apply matches_filter_key.
      apply matches_filter_key in E, E'. rewrite H'. congruence.
    + intros Hin. apply orb_true_iff. now right.
  - destruct (matches_filter o d); simpl; [trivial|exact IH].
Qed.

Lemma apply_UpdateOne_puts (o : UpdateOne) (col : list chunk_doc) :
  self_keyed o -> existsb (matches_filter o) (apply_UpdateOne col o) = true.
Proof.
  intros H. induction col as [|d col IH].
  - simpl. now rewrite matches_filter_self.
  - rewrite apply_UpdateOne_cons. destruct (matches_filter o d) eqn:E; simpl.
    + now rewrite matches_filter_self.
    + now rewrite E.
Qed.

Lemma fold_apply_keeps (o : UpdateOne) (ops : list UpdateOne) :
  Forall self_keyed ops ->
  forall col, existsb (matches_filter o) col = true ->
              existsb (matches_filter o) (fold_left apply_UpdateOne ops col) = true.
Proof.
  induction 1 as [|o' ops H' _ IH]; intros col Hin; simpl; [exact Hin|].
  apply IH. now apply apply_UpdateOne_keeps.
Qed.

(** The first document under the key of [o]. *)
Lemma find_apply_same (o : UpdateOne) (col : list chunk_doc) :
  self_keyed o -> find (matches_filter o) (apply_UpdateOne col o) = Some (set_fields o).
Proof.
  intros H. induction col as [|d col IH].
  - simpl. now rewrite matches_filter_self.
  - rewrite apply_UpdateOne_cons. destruct (matches_filter o d) eqn:E; simpl.
    + now rewrite matches_filter_self.
    + now rewrite E.
Qed.

Lemma find_apply_other (o o' : UpdateOne) (col : list chunk_doc) :
  self_keyed o' -> op_key o <> op_key o' ->
  find (matches_filter o) (apply_UpdateOne col o') = find (matches_filter o) col.
Proof.
  intros H' Hne. induction col as [|d col IH].
  - simpl. now rewrite matches_filter_other.
  - rewrite apply_UpdateOne_cons. destruct (matches_filter o' d) eqn:E'; simpl.
    + rewrite matches_filter_other by assumption.
      destruct (matches_filter o d) eqn:E; [|reflexivity].
      apply matches_filter_key in E, E'. congruence.
    + destruct (matches_filter o d); [reflexivity|exact IH].
Qed.

Lemma apply_UpdateOne_fixed (o : UpdateOne) (col : list chunk_doc) :
  find (matches_filter o) col = Some (set_fields o) -> apply_UpdateOne col o = col.
Proof.
  induction col as [|d col IH]; [discriminate|].
  rewrite apply_UpdateOne_cons. simpl.
  destruct (matches_filter o d); [now intros [= <-]|].
  intros H. now rewrite IH.
Qed.

Lemma fold_apply_find_other (o : UpdateOne) (ops : list UpdateOne) :
  Forall self_keyed ops ->
  ~ In (op_key o) (map op_key ops) ->
  forall col, find (matches_filter o) (fold_left apply_UpdateOne ops col)
              = find (matches_filter o) col.
Proof.
  induction 1 as [|o' ops H' _ IH]; intros Hnin col; simpl; [reflexivity|].
  simpl in Hnin. rewrite IH by tauto. apply find_apply_other; [assumption|].
  intros E. apply Hnin. now left.
Qed.

Lemma op_of_chunk_self_keyed (doc_id doc_name : str) (pr : (Z * str) * vector) (op : UpdateOne) :
  op_of_chunk doc_id doc_name pr op -> self_keyed op /\ filt_doc_id op = doc_id.
Proof.
  destruct pr as [[page text] emb]. intros (_ & Hd & Hset).
  unfold self_keyed, doc_key, op_key. rewrite Hset. simpl. now rewrite Hd.
Qed.

Lemma build_ops_self_keyed (doc_id doc_name : str) (pairs : list ((Z * str) * vector))
      (ops : list UpdateOne) :
  build_ops doc_id doc_name pairs [] = Ok ops ->
  Forall self_keyed ops /\ Forall (fun op => filt_doc_id op = doc_id) ops.
Proof.
  intros H. destruct (build_ops_spec _ _ _ _ _ H) as (new & Hnew & Hall).
  simpl in Hnew. subst new. clear H.
  induction Hall as [|pr op pairs' ops' Hop _ IH]; [split; constructor|].
  destruct (op_of_chunk_self_keyed _ _ _ _ Hop). destruct IH.
  split; constructor; assumption.
Qed.

(** An upsert keeps every position of the collection and the key found
    there; it changes the document only when its filter matches it. *)
Lemma apply_UpdateOne_nth (o : UpdateOne) (col : list chunk_doc) :
  self_keyed o ->
  forall i d, nth_error col i = Some d ->
    exists d', nth_error (apply_UpdateOne col o) i = Some d'
               /\ doc_key d' = doc_key d
               /\ (matches_filter o d = false -> d' = d).
Proof.
  intros Ho. induction col as [|x col IH]; intros [|i] d; simpl; try discriminate.
  - intros [= <-]. rewrite apply_UpdateOne_cons.
    destruct (matches_filter o x) eqn:E; simpl.
    + exists (set_fields o). split; [reflexivity|]. split; [|discriminate].
      apply matches_filter_key in E. now rewrite Ho.
    + exists x. auto.
  - intros Hi. rewrite apply_UpdateOne_cons.
    destruct (matches_filter o x); simpl; [eauto|]. now apply IH.
Qed.

Lemma fold_apply_nth (ops : list UpdateOne) :
  Forall self_keyed ops ->
  forall col i d, nth_error col i = Some d ->
    exists d', nth_error (fold_left apply_UpdateOne ops col) i = Some d'
               /\ doc_key d' = doc_key d
               /\ (Forall (fun o => op_key o <> doc_key d) ops -> d' = d).
Proof.
  induction 1 as [|o ops Ho _ IH]; intros col i d Hi; simpl.
  - exists d. auto.
  - destruct (apply_UpdateOne_nth o col Ho i d Hi) as (d1 & H1 & Hk1 & Hsame1).
    destruct (IH _ _ _ H1) as (d' & H' & Hk' & Hsame').
    exists d'. split; [exact H'|]. split; [congruence|].
    intros Hall. apply Forall_cons_iff in Hall. destruct Hall as (Hno & Hall).
    assert (d1 = d).
    { apply Hsame1. destruct (matches_filter o d) eqn:E; [|reflexivity].
      apply matches_filter_key in E. congruence. }
    subst d1. now apply Hsame'.
Qed.

Lemma apply_UpdateOne_length (o : UpdateOne) (col : list chunk_doc) :
  (length col <= length (apply_UpdateOne col o) <= S (length col))%nat.
Proof.
  induction col as [|x col IH]; [simpl; lia|].
  rewrite apply_UpdateOne_cons. destruct (matches_filter o x); simpl; lia.
Qed.

Lemma fold_apply_length (ops : list UpdateOne) (col : list chunk_doc) :
  (length col <= length (fold_left apply_UpdateOne ops col)
   <= length col + length ops)%nat.
Proof.
  revert col. induction ops as [|o ops IH]; intros col; simpl; [lia|].
  specialize (IH (apply_UpdateOne col o)).
  pose proof (apply_UpdateOne_length o col). lia.
Qed.

Lemma apply_UpdateOne_length_present (o : UpdateOne) (col : list chunk_doc) :
  existsb (matches_filter o) col = true ->
  length (apply_UpdateOne col o) = length col.
Proof.
  induction col as [|d col IH]; [discriminate|].
  rewrite apply_UpdateOne_cons. simpl existsb.
  destruct (matches_filter o d); simpl; [reflexivity|].
  intros H. now rewrite IH.
Qed.

Lemma fold_apply_length_present (ops : list UpdateOne) :
  Forall self_keyed ops ->
  forall j o col,
    nth_error ops j = Some o ->
    existsb (matches_filter o) col = true ->
    (length (fold_left apply_UpdateOne ops col) < length col + length ops)%nat.
Proof.
  induction 1 as [|r rs Hr Hall IH]; intros [|j] o col Hj Hin; simpl in Hj; try discriminate.
  - injection Hj as ->. simpl.
    pose proof (fold_apply_length rs (apply_UpdateOne col o)) as Hlen.
    rewrite (apply_UpdateOne_length_present o col Hin) in Hlen. lia.
  - simpl.
    pose proof (IH j o (apply_UpdateOne col r) Hj (apply_UpdateOne_keeps o r col Hr Hin)).
    pose proof (apply_UpdateOne_length r col). lia.
Qed.

Lemma existsb_same_key (o1 o2 : UpdateOne) (col : list chunk_doc) :
  op_key o1 = op_key o2 ->
  existsb (matches_filter o1) col = existsb (matches_filter o2) col.
Proof.
  intros Hk. induction col as [|d col IH]; [reflexivity|].
  simpl. now rewrite IH, (matches_filter_same_key o1 o2 d Hk).
Qed.

(* ================================================================== *)
(** * upsert_chunks: what it does to the collection                    *)
(* ================================================================== *)

Lemma key_eq_dec (a b : str * str) : {a = b} + {a <> b}.
Proof. decide equality; apply (list_eq_dec N.eq_dec). Qed.

(** After a list of upserts, the key of each of them is in the collection. *)
Lemma fold_apply_puts_all (ops : list UpdateOne) :
  Forall self_keyed ops ->
  forall op, In op ops ->
  forall col, existsb (matches_filter op) (fold_left apply_UpdateOne ops col) = true.
Proof.
  induction 1 as [|o ops Ho Hall IH]; intros op Hin col; [destruct Hin|].
  simpl. destruct Hin as [->|Hin].
  - apply fold_apply_keeps; [assumption|now apply apply_UpdateOne_puts].
  - now apply IH.
Qed.

(** After a list of upserts on different keys, in whatever order, the first
    document under the key of each of them is the one that it writes. *)
Lemma fold_apply_find_written (ops : list UpdateOne) :
  Forall self_keyed ops ->
  NoDup (map op_key ops) ->
  forall op, In op ops ->
  forall col, find (matches_filter op) (fold_left apply_UpdateOne ops col)
              = Some (set_fields op).
Proof.
  induction 1 as [|o ops Ho Hall IH]; intros Hnd op Hin col; [destruct Hin|].
  simpl in Hnd. apply NoDup_cons_iff in Hnd. destruct Hnd as (Hnin & Hnd).
  simpl. destruct Hin as [->|Hin].
  - rewrite fold_apply_find_other by assumption. now apply find_apply_same.
  - now apply IH.
Qed.

(** Upserts that write what is already there change nothing. *)
Lemma fold_apply_fixed (ops : list UpdateOne) (col : list chunk_doc) :
  (forall op, In op ops -> find (matches_filter op) col = Some (set_fields op)) ->
  fold_left apply_UpdateOne ops col = col.
Proof.
  induction ops as [|o ops IH]; intros H; [reflexivity|].
  simpl. rewrite apply_UpdateOne_fixed by (apply H; now left).
  apply IH. intros op Hin. apply H. now right.
Qed.

(** Two upserts on one key, wherever they stand in the list, add one
    document at most between them. *)
Lemma fold_apply_length_collision (ops : list UpdateOne) :
  Forall self_keyed ops ->
  ~ NoDup (map op_key ops) ->
  forall col,
    (length (fold_left apply_UpdateOne ops col) < length col + length ops)%nat.
Proof.
  induction 1 as [|o ops Ho Hall IH]; intros Hdup col; [exfalso; apply Hdup; constructor|].
  simpl fold_left. pose proof (apply_UpdateOne_length o col) as Hlen.
  destruct (in_dec key_eq_dec (op_key o) (map op_key ops)) as [Hin|Hnin].
  - apply in_map_iff in Hin. destruct Hin as (o2 & Hk & Hin).
    destruct (In_nth_error _ _ Hin) as (j & Hj).
    assert (Hthere : existsb (matches_filter o2) (apply_UpdateOne col o) = true).
    { rewrite (existsb_same_key o2 o _ Hk). now apply apply_UpdateOne_puts. }
    pose proof (fold_apply_length_present ops Hall j o2 _ Hj Hthere). simpl. lia.
  - assert (Hdup' : ~ NoDup (map op_key ops)).
    { intros Hnd. apply Hdup. simpl. now constructor. }
    pose proof (IH Hdup' (apply_UpdateOne col o)). simpl. lia.
Qed.

Lemma Forall_Permutation_part {A} (P : A -> Prop) (l a p : list A) :
  Permutation l (a ++ p) -> Forall P l -> Forall P a.
Proof.
  intros Hperm Hall. apply Forall_forall. intros x Hx.
  apply (proj1 (Forall_forall P l) Hall).
  apply (Permutation_in x (Permutation_sym Hperm)). apply in_or_app. now left.
Qed.

(** What a run of [upsert_chunks] can do to the collection: nothing, or one
    bulk write of the operations built from the chunks and their vectors, of
    which the server applies some, in some order, and all of them when the
    call returns. *)
Lemma upsert_chunks_collection
  (env : Env) (doc_id doc_name : str) (chunks : list (Z * str)) (st st' : state)
  (r : result Z) :
  upsert_chunks env doc_id doc_name chunks st = (r, st') ->
  (collection st' = collection st
   /\ (exists evs, log st' = log st ++ evs /\ Forall (fun ev => ~ is_write ev) evs)
   /\ (forall n, r = Ok n -> chunks = [] /\ n = 0%Z))
  \/ (exists col st1 vecs ops applied pending,
        get_collection env st = (Ok col, st1)
        /\ chunks <> []
        /\ GEMINI_API_KEY env <> []
        /\ Forall2 (fun t v => genai_embed_content env (EMBED_MODEL env) t = Some v)
                   (map snd chunks) vecs
        /\ build_ops doc_id doc_name (combine chunks vecs) [] = Ok ops
        /\ Permutation ops (applied ++ pending)
        /\ st' = {| collection := fold_left apply_UpdateOne applied (collection st);
                    log := log st
                           ++ (GenaiConfigure (GEMINI_API_KEY env)
                               :: map (EmbedContent (EMBED_MODEL env)) (map snd chunks))
                           ++ [BulkWrite ops];
                    db := db st1 |}
        /\ (r = Ok (Z.of_nat (length ops)) /\ pending = []
            \/ r = Raise (ServiceError Store))).
Proof.
  intros Hrun.
  destruct (get_collection env st) as [[col|e] st1] eqn:Hcol;
    destruct (get_collection_quiet _ _ _ _ Hcol) as (Hc1 & Hl1 & _).
  2:{ rewrite (upsert_chunks_unconnected env doc_id doc_name chunks st st1 e Hcol) in Hrun.
      injection Hrun as <- <-. left. split; [exact Hc1|]. split; [|discriminate].
      exists []. rewrite app_nil_r. split; [exact Hl1|constructor]. }
  destruct chunks as [|c rest] eqn:Hchunks.
  { rewrite (upsert_chunks_no_chunks env doc_id doc_name st st1 col Hcol) in Hrun.
    injection Hrun as <- <-. left. split; [exact Hc1|]. split.
    - exists []. rewrite app_nil_r. split; [exact Hl1|constructor].
    - intros n [= <-]. auto. }
  rewrite <- Hchunks in *. assert (Hne : chunks <> []) by congruence.
  destruct (GEMINI_API_KEY env) as [|k0 key] eqn:Hkey.
  { rewrite (upsert_chunks_connected env doc_id doc_name chunks st st1 col Hcol Hne) in Hrun.
    rewrite embed_texts_without_key in Hrun by assumption.
    injection Hrun as <- <-. left. split; [exact Hc1|]. split; [|discriminate].
    exists []. rewrite app_nil_r. split; [exact Hl1|constructor]. }
  assert (Hk : GEMINI_API_KEY env <> []) by congruence.
  destruct (embed_loop_run env (map snd chunks) []
              (logged st1 [GenaiConfigure (GEMINI_API_KEY env)]))
    as (r0 & evs & Hloop & Hevs & _).
  destruct r0 as [vs|e].
  2:{ rewrite (upsert_chunks_connected env doc_id doc_name chunks st st1 col Hcol Hne) in Hrun.
      rewrite embed_texts_with_key, Hloop, logged_logged in Hrun by assumption.
      injection Hrun as <- <-. left. split; [exact Hc1|]. split; [|discriminate].
      exists (GenaiConfigure (GEMINI_API_KEY env) :: evs). simpl. rewrite Hl1.
      split; [reflexivity|].
      constructor; [simpl; tauto|now apply embed_request_not_write]. }
  destruct (embed_loop_inv _ _ _ _ _ _ Hloop) as (vecs & Hvs & Hall).
  simpl in Hvs. subst vs.
  rewrite (upsert_chunks_run env doc_id doc_name chunks vecs st st1 col Hcol Hne Hk Hall)
    in Hrun.
  destruct (build_ops doc_id doc_name (combine chunks vecs) []) as [ops|e] eqn:Hops.
  2:{ injection Hrun as <- <-. left. split; [exact Hc1|]. split; [|discriminate].
      eexists. simpl. rewrite Hl1. split; [reflexivity|].
      constructor; [simpl; tauto|].
      apply embed_request_not_write. clear.
      induction (map snd chunks); constructor; [exact I|assumption]. }
  destruct (bulk_write_run env col ops
              (logged st1 (GenaiConfigure (GEMINI_API_KEY env)
                           :: map (EmbedContent (EMBED_MODEL env)) (map snd chunks))))
    as (applied & pending & rw & Hw & Hperm & Hrw).
  rewrite Hw in Hrun. simpl in Hrun. rewrite Hc1, Hl1, <- app_assoc in Hrun.
  right. exists col, st1, vecs, ops, applied, pending. rewrite <- Hkey.
  destruct Hrw as [[-> ->]| ->]; injection Hrun as <- <-;
    repeat (split; [first [assumption|reflexivity]|]); auto.
Qed.

(** X12. With the collection obtained, a key, an embedding collaborator that
    answers for every chunk, a document identifier and chunk prefixes that
    can be encoded, and a store that applies and acknowledges the write,
    [upsert_chunks] on a non-empty chunk list returns the number of chunks
    after exactly one bulk write, issued after all the embedding requests,
    that holds one upserting operation per chunk, in order, each with the
    chunk's text, vector, page and identifier. The server has applied them
    in some order, and afterwards the collection holds a document under the
    identifier of every chunk. *)
Theorem upsert_chunks_success
  (env : Env) (doc_id doc_name : str) (chunks : list (Z * str)) (vecs : list vector)
  (st st1 : state) (col : collection_handle) :
  chunks <> [] ->
  get_collection env st = (Ok col, st1) ->
  GEMINI_API_KEY env <> [] ->
  Forall2 (fun t v => genai_embed_content env (EMBED_MODEL env) t = Some v)
          (map snd chunks) vecs ->
  encodable doc_id ->
  Forall (fun c => encodable (slice (snd c) 0 64)) chunks ->
  (forall ops, Forall2 (op_of_chunk doc_id doc_name) (combine chunks vecs) ops ->
               write_acknowledged env (collection st) ops) ->
  exists ops applied st',
    upsert_chunks env doc_id doc_name chunks st = (Ok (Z.of_nat (length chunks)), st')
    /\ Forall2 (op_of_chunk doc_id doc_name) (combine chunks vecs) ops
    /\ Permutation ops applied
    /\ collection st' = fold_left apply_UpdateOne applied (collection st)
    /\ log st' = log st
                 ++ (GenaiConfigure (GEMINI_API_KEY env)
                     :: map (EmbedContent (EMBED_MODEL env)) (map snd chunks))
                 ++ [BulkWrite ops]
    /\ db st' = db st1
    /\ (forall op, In op ops ->
          exists d, In d (collection st')
                    /\ cd_doc_id d = doc_id /\ cd_chunk_id d = filt_chunk_id op).
Proof.
  intros Hne Hcol Hkey Hvecs Hd Hall Hstore.
  destruct (get_collection_quiet _ _ _ _ Hcol) as (Hc1 & Hl1 & _).
  rewrite (upsert_chunks_run env doc_id doc_name chunks vecs st st1 col Hcol Hne Hkey Hvecs).
  destruct (build_ops_total doc_id doc_name (combine chunks vecs) Hd
              (combine_map_snd_Forall (fun t => encodable (slice t 0 64)) chunks vecs Hall) [])
    as (ops & Hops).
  rewrite Hops. destruct (build_ops_spec _ _ _ _ _ Hops) as (new & Hnew & Hspec).
  simpl in Hnew. subst new.
  destruct (build_ops_self_keyed _ _ _ _ Hops) as (Hself & Hdoc).
  specialize (Hstore ops Hspec).
  destruct (bulk_write_acknowledged env col ops
              (logged st1 (GenaiConfigure (GEMINI_API_KEY env)
                           :: map (EmbedContent (EMBED_MODEL env)) (map snd chunks))))
    as (applied & Hw & Hperm); [simpl; now rewrite Hc1|].
  rewrite Hw. exists ops, applied. eexists. split; [|split; [exact Hspec|]].
  - repeat f_equal. apply Forall2_length in Hspec. rewrite length_combine in Hspec.
    apply Forall2_length in Hvecs. rewrite length_map in Hvecs. lia.
  - split; [exact Hperm|]. simpl. rewrite Hc1, Hl1, <- app_assoc.
    split; [reflexivity|]. split; [reflexivity|]. split; [reflexivity|].
    intros op Hin.
    assert (Hself' : Forall self_keyed applied).
    { apply (Forall_Permutation_part _ ops applied []); [now rewrite app_nil_r|assumption]. }
    pose proof (fold_apply_puts_all applied Hself' op
                  (Permutation_in op Hperm Hin) (collection st)) as Hex.
    apply existsb_exists in Hex. destruct Hex as (d & Hdin & Hm).
    apply matches_filter_key in Hm. exists d. split; [exact Hdin|].
    unfold op_key, doc_key in Hm. injection Hm as Hm1 Hm2.
    rewrite <- Hm1, <- Hm2. split; [|reflexivity].
    apply (proj1 (Forall_forall _ ops) Hdoc op Hin).
Qed.

Lemma upsert_chunks_success_witness :
  exists ops applied st',
    upsert_chunks env_reversed (lit "doc") (lit "a.pdf")
      [(1%Z, lit "hello"); (2%Z, lit "world")] st_fresh
    = (Ok (Z.of_nat (length [(1%Z, lit "hello"); (2%Z, lit "world")])), st')
    /\ Forall2 (op_of_chunk (lit "doc") (lit "a.pdf"))
               (combine [(1%Z, lit "hello"); (2%Z, lit "world")] [[]; []]) ops
    /\ Permutation ops applied
    /\ collection st' = fold_left apply_UpdateOne applied (collection st_fresh)
    /\ log st' = log st_fresh
                 ++ (GenaiConfigure (GEMINI_API_KEY env_reversed)
                     :: map (EmbedContent (EMBED_MODEL env_reversed))
                            (map snd [(1%Z, lit "hello"); (2%Z, lit "world")]))
                 ++ [BulkWrite ops]
    /\ db st' = db (snd (get_collection env_reversed st_fresh))
    /\ (forall op, In op ops ->
          exists d, In d (collection st')
                    /\ cd_doc_id d = lit "doc" /\ cd_chunk_id d = filt_chunk_id op).
Proof.
  apply (upsert_chunks_success env_reversed (lit "doc") (lit "a.pdf")
           [(1%Z, lit "hello"); (2%Z, lit "world")] [[]; []] st_fresh
           (snd (get_collection env_reversed st_fresh)) handle0).
  - discriminate.
  - reflexivity.
  - discriminate.
  - repeat constructor.
  - repeat constructor; unfold encodable_char; vm_compute; left; reflexivity.
  - repeat constructor; unfold encodable_char; vm_compute; left; reflexivity.
  - intros ops Hops. apply Forall2_length in Hops. simpl in Hops.
    destruct ops as [|o1 [|o2 [|o3 ops]]]; try discriminate.
    exists [1; 0]%nat, [o2; o1]. split; reflexivity.
Defined.

(** The identifiers of the chunks are those of the operations built. *)
Lemma build_ops_chunk_ids
  (doc_id doc_name : str) (chunks : list (Z * str)) (vecs : list vector)
  (ops : list UpdateOne) :
  length vecs = length chunks ->
  Forall2 (op_of_chunk doc_id doc_name) (combine chunks vecs) ops ->
  chunk_ids doc_id chunks = map (fun k => Ok (snd k)) (map op_key ops).
Proof.
  revert vecs ops. induction chunks as [|[page text] chunks IH]; intros vecs ops Hlen Hall.
  - inversion Hall. reflexivity.
  - destruct vecs as [|v vecs]; [discriminate|]. simpl in Hall.
    inversion Hall as [|pr op prs ops' Hop Hrest]. subst.
    destruct Hop as (Hid & _). simpl. rewrite Hid. f_equal.
    apply (IH vecs); [simpl in Hlen; lia|assumption].
Qed.

(** X13. Re-ingestion is idempotent on the collection when the chunks have
    different identifiers: once [upsert_chunks] has returned, running it
    again on the same chunks leaves the collection exactly as the first run
    left it, in whatever order the server applies the operations of either
    run, and also when the second write fails half-way; the second run
    returns the same count, or raises the error of the store. The same
    holds for [ingest_pdf] on the same file. *)
Theorem reingestion_idempotent
  (env : Env) (doc_id doc_name : str) (chunks : list (Z * str)) (st st1 : state) (n : Z) :
  NoDup (chunk_ids doc_id chunks) ->
  upsert_chunks env doc_id doc_name chunks st = (Ok n, st1) ->
  (exists r st2,
      upsert_chunks env doc_id doc_name chunks st1 = (r, st2)
      /\ collection st2 = collection st1
      /\ (r = Ok n \/ r = Raise (ServiceError Store)))
  /\ (forall mem pdf chunk_size overlap,
        collect_chunks mem (extract_pdf_text pdf) chunk_size overlap [] = Some chunks ->
        exists r st2,
          ingest_pdf mem env pdf doc_id doc_name chunk_size overlap st1 = (r, st2)
          /\ collection st2 = collection st1
          /\ (r = Ok n \/ r = Raise (ServiceError Store))).
Proof.
  intros Hnd Hrun.
  assert (Hagain : exists r st2,
             upsert_chunks env doc_id doc_name chunks st1 = (r, st2)
             /\ collection st2 = collection st1
             /\ (r = Ok n \/ r = Raise (ServiceError Store))).
  { destruct (upsert_chunks_collection _ _ _ _ _ _ _ Hrun)
      as [(_ & _ & Hnil)|(col & st1' & vecs & ops & applied & pending & Hcol & Hne & Hkey
                          & Hvecs & Hops & Hperm & Hst1 & Hr)].
    - destruct (Hnil n eq_refl) as (-> & ->).
      destruct (get_collection env st) as [[col|e] st1'] eqn:Hcol.
      + rewrite (upsert_chunks_no_chunks env doc_id doc_name st st1' col Hcol) in Hrun.
        injection Hrun as <-.
        destruct (get_collection_again _ _ _ _ Hcol) as (Hcol' & _).
        rewrite (upsert_chunks_no_chunks env doc_id doc_name st1' st1' col Hcol').
        exists (Ok 0%Z), st1'. auto.
      + rewrite (upsert_chunks_unconnected env doc_id doc_name [] st st1' e Hcol) in Hrun.
        discriminate.
    - destruct Hr as [(Hn & ->)|Hn]; [|discriminate]. injection Hn as ->.
      rewrite app_nil_r in Hperm.
      destruct (get_collection_again _ _ _ _ Hcol) as (_ & Hclient).
      destruct (get_collection_cached env st1) as (col1 & Hcol1);
        [rewrite Hst1; exact Hclient|].
      destruct (build_ops_self_keyed _ _ _ _ Hops) as (Hself & _).
      destruct (build_ops_spec _ _ _ _ _ Hops) as (new & Hnew & Hspec).
      simpl in Hnew. subst new.
      assert (Hkeys : NoDup (map op_key ops)).
      { rewrite (build_ops_chunk_ids doc_id doc_name chunks vecs ops) in Hnd;
          [now apply NoDup_map_inv in Hnd| |exact Hspec].
        apply Forall2_length in Hvecs. rewrite length_map in Hvecs. congruence. }
      assert (Hfound : forall op, In op ops ->
                find (matches_filter op) (collection st1) = Some (set_fields op)).
      { intros op Hin. rewrite Hst1. simpl collection.
        apply fold_apply_find_written.
        - apply (Forall_Permutation_part _ ops applied []);
            [now rewrite app_nil_r|assumption].
        - apply (Permutation_NoDup (Permutation_map op_key Hperm) Hkeys).
        - apply (Permutation_in op Hperm Hin). }
      rewrite (upsert_chunks_run env doc_id doc_name chunks vecs st1 st1 col1
                 Hcol1 Hne Hkey Hvecs), Hops.
      destruct (bulk_write_run env col1 ops
                  (logged st1 (GenaiConfigure (GEMINI_API_KEY env)
                               :: map (EmbedContent (EMBED_MODEL env)) (map snd chunks))))
        as (applied2 & pending2 & rw & Hw & Hperm2 & Hrw).
      rewrite Hw.
      assert (Hsame : fold_left apply_UpdateOne applied2 (collection st1) = collection st1).
      { apply fold_apply_fixed. intros op Hin. apply Hfound.
        apply (Permutation_in op (Permutation_sym Hperm2)). apply in_or_app. now left. }
      destruct Hrw as [(-> & _)| ->]; eexists; eexists;
        (split; [reflexivity|]); simpl; (split; [exact Hsame|]); auto. }
  split; [exact Hagain|].
  intros mem pdf chunk_size overlap Hc. unfold ingest_pdf. rewrite Hc. exact Hagain.
Qed.

Lemma reingestion_idempotent_witness :
  exists r st2,
    upsert_chunks env_reversed (lit "doc") (lit "a.pdf")
      [(1%Z, lit "hello"); (2%Z, lit "world")]
      (snd (upsert_chunks env_reversed (lit "doc") (lit "a.pdf")
              [(1%Z, lit "hello"); (2%Z, lit "world")] st0))
    = (r, st2)
    /\ collection st2
       = collection (snd (upsert_chunks env_reversed (lit "doc") (lit "a.pdf")
                            [(1%Z, lit "hello"); (2%Z, lit "world")] st0))
    /\ (r = Ok 2%Z \/ r = Raise (ServiceError Store)).
Proof.
  refine (proj1 (reingestion_idempotent env_reversed (lit "doc") (lit "a.pdf")
                   [(1%Z, lit "hello"); (2%Z, lit "world")] st0 _ 2%Z _ _)).
  - vm_compute. constructor; [|constructor; [|constructor]]; simpl.
    + intros [H|[]]. discriminate.
    + intros [].
  - vm_compute. reflexivity.
Defined.

(** X14. [upsert_chunks] never touches the documents of another document
    identifier: whatever the outcome of the call, and whatever the server
    applies of the write, a stored document whose [doc_id] differs from the
    one being ingested is found unchanged at the same position afterwards. *)
Theorem upsert_chunks_other_documents
  (env : Env) (doc_id doc_name : str) (chunks : list (Z * str)) (st st' : state)
  (r : result Z) :
  upsert_chunks env doc_id doc_name chunks st = (r, st') ->
  forall i doc,
    nth_error (collection st) i = Some doc ->
    cd_doc_id doc <> doc_id ->
    nth_error (collection st') i = Some doc.
Proof.
  intros Hrun i doc Hi Hother.
  destruct (upsert_chunks_collection _ _ _ _ _ _ _ Hrun)
    as [(-> & _)|(col & st1 & vecs & ops & applied & pending & _ & _ & _ & _ & Hops
                  & Hperm & -> & _)]; [exact Hi|].
  destruct (build_ops_self_keyed _ _ _ _ Hops) as (Hself & Hdoc).
  pose proof (Forall_Permutation_part _ _ _ _ Hperm Hself) as Hself'.
  pose proof (Forall_Permutation_part _ _ _ _ Hperm Hdoc) as Hdoc'.
  destruct (fold_apply_nth applied Hself' _ _ _ Hi) as (d' & Hd' & _ & Hsame).
  simpl collection. rewrite Hd'. f_equal. apply Hsame.
  eapply Forall_impl; [|exact Hdoc']. simpl. intros o Ho E.
  unfold op_key, doc_key in E. congruence.
Qed.

Lemma upsert_chunks_other_documents_witness :
  nth_error
    (collection
       (snd (upsert_chunks env_ok (lit "doc") (lit "a.pdf") [(1%Z, lit "hello")] st_other)))
    0
  = Some other_doc.
Proof.
  apply (upsert_chunks_other_documents env_ok (lit "doc") (lit "a.pdf")
           [(1%Z, lit "hello")] st_other _ (Ok 1%Z)).
  - vm_compute. reflexivity.
  - reflexivity.
  - discriminate.
Defined.

(** X15. [upsert_chunks] never deletes: whatever the outcome, and whatever
    the server applies of the write, every position of the collection still
    holds a document with the same [doc_id] and [chunk_id]; the collection
    grows by at most one document per chunk. So the chunks of an earlier
    version of a document that the new version does not produce stay in the
    collection. *)
Theorem upsert_chunks_never_deletes
  (env : Env) (doc_id doc_name : str) (chunks : list (Z * str)) (st st' : state)
  (r : result Z) :
  upsert_chunks env doc_id doc_name chunks st = (r, st') ->
  (length (collection st) <= length (collection st')
   <= length (collection st) + length chunks)%nat
  /\ forall i doc,
       nth_error (collection st) i = Some doc ->
       exists doc',
         nth_error (collection st') i = Some doc'
         /\ cd_doc_id doc' = cd_doc_id doc
         /\ cd_chunk_id doc' = cd_chunk_id doc.
Proof.
  intros Hrun.
  destruct (upsert_chunks_collection _ _ _ _ _ _ _ Hrun)
    as [(-> & _)|(col & st1 & vecs & ops & applied & pending & _ & _ & _ & Hvecs & Hops
                  & Hperm & -> & _)].
  - split; [lia|]. intros i doc Hi. eauto.
  - destruct (build_ops_self_keyed _ _ _ _ Hops) as (Hself & _).
    pose proof (Forall_Permutation_part _ _ _ _ Hperm Hself) as Hself'.
    simpl collection. split.
    + pose proof (fold_apply_length applied (collection st)) as Hlen.
      destruct (build_ops_spec _ _ _ _ _ Hops) as (new & Hnew & Hall).
      simpl in Hnew. subst new.
      apply Forall2_length in Hall. rewrite length_combine in Hall.
      apply Permutation_length in Hperm. rewrite length_app in Hperm. lia.
    + intros i doc Hi.
      destruct (fold_apply_nth applied Hself' _ _ _ Hi) as (d' & Hd' & Hk & _).
      exists d'. unfold doc_key in Hk. injection Hk as H1 H2. auto.
Qed.

Lemma upsert_chunks_never_deletes_witness :
  (length (collection st_other)
   <= length (collection (snd (upsert_chunks env_failing_write (lit "doc") (lit "a.pdf")
                                 [(1%Z, lit "hello"); (2%Z, lit "world")] st_other)))
   <= length (collection st_other) + length [(1%Z, lit "hello"); (2%Z, lit "world")])%nat
  /\ forall i doc,
       nth_error (collection st_other) i = Some doc ->
       exists doc',
         nth_error (collection (snd (upsert_chunks env_failing_write (lit "doc") (lit "a.pdf")
                                       [(1%Z, lit "hello"); (2%Z, lit "world")] st_other)))
                   i = Some doc'
         /\ cd_doc_id doc' = cd_doc_id doc
         /\ cd_chunk_id doc' = cd_chunk_id doc.
Proof.
  eapply (upsert_chunks_never_deletes env_failing_write (lit "doc") (lit "a.pdf")
            [(1%Z, lit "hello"); (2%Z, lit "world")] st_other _
            (Raise (ServiceError Store))).
  vm_compute. reflexivity.
Defined.

(** A write that fails half-way leaves what was applied: here the first of
    two operations. *)
Example partial_write_stays :
  (fun out => (fst out, map cd_text (collection (snd out))))
    (upsert_chunks env_failing_write (lit "doc") (lit "a.pdf")
       [(1%Z, lit "hello"); (2%Z, lit "world")] st0)
  = (Raise (ServiceError Store), [lit "hello"]).
Proof. vm_compute. reflexivity. Qed.

(** X29. The number that [upsert_chunks] returns counts the chunks, not the
    documents written: when it returns on a list in which two chunks have
    the same page and the same first 64 characters, they got the same
    identifier, one of the two writes replaced the other, and the collection
    has grown by fewer documents than the number returned. *)
Theorem upsert_chunks_count_overstates
  (env : Env) (doc_id doc_name : str) (chunks : list (Z * str))
  (st st' : state) (n : Z) (i j : nat) (page : Z) (text text' : str) :
  upsert_chunks env doc_id doc_name chunks st = (Ok n, st') ->
  (i < j)%nat ->
  nth_error chunks i = Some (page, text) ->
  nth_error chunks j = Some (page, text') ->
  slice text 0 64 = slice text' 0 64 ->
  n = Z.of_nat (length chunks)
  /\ chunk_id_of doc_id page text = chunk_id_of doc_id page text'
  /\ (length (collection st') < length (collection st) + length chunks)%nat.
Proof.
  intros Hrun Hij Hi Hj Hpre.
  split; [|split; [now apply chunk_id_of_prefix|]];
    destruct (upsert_chunks_collection _ _ _ _ _ _ _ Hrun)
      as [(_ & _ & Hnil)|(col & st1 & vecs & ops & applied & pending & _ & _ & _ & Hvecs
                          & Hops & Hperm & -> & Hr)];
    try (destruct (Hnil n eq_refl) as (-> & _); destruct i; discriminate);
    (destruct Hr as [(Hn & ->)|Hn]; [|discriminate]); injection Hn as ->;
    rewrite app_nil_r in Hperm;
    destruct (build_ops_spec _ _ _ _ _ Hops) as (new & Hnew & Hspec);
    simpl in Hnew; subst new;
    assert (Hlen : length vecs = length chunks)
      by (apply Forall2_length in Hvecs; rewrite length_map in Hvecs; congruence);
    assert (Hlops : length ops = length chunks)
      by (apply Forall2_length in Hspec; rewrite length_combine in Hspec; lia).
  - now rewrite Hlops.
  - destruct (build_ops_self_keyed _ _ _ _ Hops) as (Hself & _).
    simpl collection. rewrite <- Hlops, (Permutation_length Hperm).
    apply fold_apply_length_collision.
    { apply (Forall_Permutation_part _ ops applied []); [now rewrite app_nil_r|assumption]. }
    intros Hnd.
    apply (Permutation_NoDup (Permutation_map op_key (Permutation_sym Hperm))) in Hnd.
    assert (Hids : NoDup (chunk_ids doc_id chunks)).
    { rewrite (build_ops_chunk_ids doc_id doc_name chunks vecs ops Hlen Hspec).
      apply Finite.Injective_map_NoDup_in; [|exact Hnd].
      intros k1 k2 Hk1 Hk2 [= Hk].
      apply in_map_iff in Hk1, Hk2.
      destruct Hk1 as (o1 & <- & Ho1). destruct Hk2 as (o2 & <- & Ho2).
      destruct (build_ops_self_keyed _ _ _ _ Hops) as (_ & Hdoc).
      unfold op_key in *. simpl in Hk.
      rewrite (proj1 (Forall_forall _ ops) Hdoc o1 Ho1),
              (proj1 (Forall_forall _ ops) Hdoc o2 Ho2), Hk. reflexivity. }
    unfold chunk_ids in Hids.
    assert (Heq : i = j); [|lia].
    apply (proj1 (NoDup_nth_error _) Hids i j).
    + rewrite length_map. apply nth_error_Some. congruence.
    + rewrite !nth_error_map, Hi, Hj. simpl. f_equal.
      now apply chunk_id_of_prefix.
Qed.

Lemma upsert_chunks_count_overstates_witness :
  2%Z = Z.of_nat (length [(1%Z, repeat 97%N 70); (1%Z, repeat 97%N 65)])
  /\ chunk_id_of (lit "doc") 1 (repeat 97%N 70) = chunk_id_of (lit "doc") 1 (repeat 97%N 65)
  /\ (length (collection (snd (upsert_chunks env_reversed (lit "doc") (lit "a.pdf")
                                 [(1%Z, repeat 97%N 70); (1%Z, repeat 97%N 65)] st0)))
      < length (collection st0) + length [(1%Z, repeat 97%N 70); (1%Z, repeat 97%N 65)])%nat.
Proof.
  apply (upsert_chunks_count_overstates env_reversed (lit "doc") (lit "a.pdf")
           [(1%Z, repeat 97%N 70); (1%Z, repeat 97%N 65)] st0 _ 2%Z 0 1 1%Z
           (repeat 97%N 70) (repeat 97%N 65)).
  - vm_compute. reflexivity.
  - lia.
  - reflexivity.
  - reflexivity.
  - reflexivity.
Defined.

(* ================================================================== *)
(** * ingest_pdf: what is collected                                    *)
(* ================================================================== *)

Lemma enumerate_pages_cons (i : Z) (raw : option str) (pdf : list (option str)) :
  enumerate_pages i (raw :: pdf)
  = {| pg_page := i; pg_text := page_text raw |} :: enumerate_pages (i + 1) pdf.
Proof. destruct raw; reflexivity. Qed.

(** The loop of [ingest_pdf] appends to what it has, page after page, the
    chunks of each page under the number of the page. *)
Lemma collect_chunks_groups (fuel : nat) (chunk_size overlap : Z) (pdf : list (option str)) :
  forall i acc all_chunks,
    collect_chunks fuel (enumerate_pages i pdf) chunk_size overlap acc = Some all_chunks ->
    exists groups,
      Forall2 (page_group fuel chunk_size overlap) pdf groups
      /\ all_chunks = acc ++ tagged i groups.
Proof.
  induction pdf as [|raw pdf IH]; intros i acc all_chunks.
  - simpl. intros [= <-]. exists []. split; [constructor|now rewrite app_nil_r].
  - rewrite enumerate_pages_cons. simpl collect_chunks.
    destruct (page_text raw) as [|c r] eqn:Ht.
    + intros H. destruct (IH _ _ _ H) as (groups & Hall & ->).
      exists ([] :: groups). split; [|reflexivity].
      constructor; [|exact Hall]. unfold page_group. now rewrite Ht.
    + destruct (chunk_text fuel (c :: r) chunk_size overlap) as [chs|] eqn:Hc; [|discriminate].
      intros H. destruct (IH _ _ _ H) as (groups & Hall & ->).
      exists (chs :: groups). split; [|simpl; now rewrite <- app_assoc].
      constructor; [|exact Hall]. unfold page_group. now rewrite Ht.
Qed.

(** What [chunk_text] returns for [0 <= overlap < chunk_size], whatever fuel
    it took: chunks that give back the trimmed text, none empty, none longer
    than [chunk_size]. *)
Lemma chunk_text_sound (text : str) (chunk_size overlap : Z) (fuel : nat) (chunks : list str) :
  (0 <= overlap < chunk_size)%Z ->
  chunk_text fuel text chunk_size overlap = Some chunks ->
  deoverlap overlap chunks = strip text
  /\ Forall (fun c => c <> [] /\ (len c <= chunk_size)%Z) chunks.
Proof.
  intros Hov. unfold chunk_text.
  destruct (strip text) as [|c0 r] eqn:E.
  - intros [= <-]. split; [reflexivity|constructor].
  - set (t := c0 :: r) in *. intros Hrun.
    assert (Hpos : (0 <= 0 < len t)%Z) by (unfold len; simpl; lia).
    split.
    + destruct (chunk_loop_covers t chunk_size overlap Hov (fuel + length t) 0 [] Hpos)
        as (rest & Hbig & Hcov & _); [unfold len; lia|].
      rewrite (chunk_loop_more_fuel t chunk_size overlap fuel (fuel + length t) 0 [] chunks)
        in Hbig by (lia || assumption).
      injection Hbig as ->. simpl. rewrite Hcov.
      rewrite slice_in_range by lia. rewrite Z.sub_0_r. simpl skipn at 1.
      apply firstn_skipn.
    + destruct (chunk_loop_windows t chunk_size overlap Hov fuel 0 [] chunks Hpos Hrun)
        as (new & Hnew & Hwin & _).
      simpl in Hnew. subst new.
      apply Forall_forall. intros c Hin.
      destruct (In_nth_error _ _ Hin) as (k & Hk).
      destruct (Hwin k c Hk) as (Hlo & Hc). rewrite Z.add_0_l in Hlo, Hc.
      assert (Hlen : len c = (Z.min (Z.of_nat k * (chunk_size - overlap) + chunk_size) (len t)
                              - Z.of_nat k * (chunk_size - overlap))%Z).
      { rewrite Hc. apply len_slice; nia. }
      split; [|nia].
      intros ->. unfold len in Hlen at 1. simpl in Hlen. nia.
Qed.

Lemma clean_text_strip_fixed (x : str) : strip (clean_text x) = clean_text x.
Proof. unfold clean_text. apply strip_idem. Qed.

Lemma tagged_pages (groups : list (list str)) :
  forall i,
    Forall (fun pc => (i <= fst pc < i + Z.of_nat (length groups))%Z
                      /\ exists g, In g groups /\ In (snd pc) g)
           (tagged i groups).
Proof.
  induction groups as [|g rest IH]; intros i; simpl; [constructor|].
  apply Forall_app. split.
  - apply Forall_forall. intros pc Hin. apply in_map_iff in Hin.
    destruct Hin as (c & <- & Hc). simpl. split; [lia|]. exists g. auto.
  - eapply Forall_impl; [|apply IH]. simpl.
    intros pc (Hr & g0 & Hg0 & Hin). split; [lia|]. exists g0. auto.
Qed.

Lemma tagged_sorted (groups : list (list str)) :
  forall i, StronglySorted Z.le (map fst (tagged i groups)).
Proof.
  induction groups as [|g rest IH]; intros i; simpl; [constructor|].
  rewrite map_app, map_map. simpl.
  induction g as [|c g IHg]; simpl; [apply IH|].
  constructor; [exact IHg|].
  apply Forall_app. split.
  - apply Forall_forall. intros q Hq. apply in_map_iff in Hq.
    destruct Hq as (c' & <- & _). simpl. lia.
  - apply Forall_forall. intros q Hq. apply in_map_iff in Hq.
    destruct Hq as (pc & <- & Hpc).
    pose proof (tagged_pages rest (i + 1)) as Hp.
    rewrite Forall_forall in Hp. destruct (Hp pc Hpc) as (Hr & _). lia.
Qed.

(** X16. For [0 <= overlap < chunk_size], what [ingest_pdf] collects from a
    file of [n] pages is well formed: every chunk carries a page number
    between 1 and [n], is not empty and not longer than [chunk_size], and
    the chunks come in the order of the pages. *)
Theorem collect_chunks_well_formed
  (fuel : nat) (chunk_size overlap : Z) (pdf : list (option str))
  (all_chunks : list (Z * str)) :
  (0 <= overlap < chunk_size)%Z ->
  collect_chunks fuel (extract_pdf_text pdf) chunk_size overlap [] = Some all_chunks ->
  Forall (fun pc => (1 <= fst pc <= Z.of_nat (length pdf))%Z
                    /\ snd pc <> []
                    /\ (len (snd pc) <= chunk_size)%Z) all_chunks
  /\ StronglySorted Z.le (map fst all_chunks).
Proof.
  intros Hov Hrun. unfold extract_pdf_text in Hrun.
  destruct (collect_chunks_groups _ _ _ _ _ _ _ Hrun) as (groups & Hgroups & ->).
  simpl app. split; [|apply tagged_sorted].
  pose proof (tagged_pages groups 1) as Hp.
  rewrite <- (Forall2_length Hgroups) in Hp.
  eapply Forall_impl; [|exact Hp]. cbv beta.
  intros [q ch] (Hr & g & Hg & Hin). cbn [fst snd] in *. split; [lia|].
  assert (Hsound : Forall (fun c => c <> [] /\ (len c <= chunk_size)%Z) g).
  { clear Hp Hr Hrun. induction Hgroups as [|raw g0 pdf' groups' Hpg _ IH]; [destruct Hg|].
    destruct Hg as [<-|Hg]; [|now apply IH].
    unfold page_group in Hpg. destruct (page_text raw) as [|c r].
    - subst g0. constructor.
    - now apply (chunk_text_sound _ _ _ _ _ Hov Hpg). }
  rewrite Forall_forall in Hsound. now apply Hsound.
Qed.

Lemma collect_chunks_well_formed_witness :
  Forall (fun pc => (1 <= fst pc <= Z.of_nat (length [Some (lit "abcdefghij")]))%Z
                    /\ snd pc <> []
                    /\ (len (snd pc) <= 4)%Z)
         [(1%Z, lit "abcd"); (1%Z, lit "defg"); (1%Z, lit "ghij")]
  /\ StronglySorted Z.le (map fst [(1%Z, lit "abcd"); (1%Z, lit "defg"); (1%Z, lit "ghij")]).
Proof.
  apply (collect_chunks_well_formed 10 4 1 [Some (lit "abcdefghij")]); [lia|reflexivity].
Defined.

Lemma chunks_of_page_app (q : Z) (a b : list (Z * str)) :
  chunks_of_page q (a ++ b) = chunks_of_page q a ++ chunks_of_page q b.
Proof. unfold chunks_of_page. now rewrite filter_app, map_app. Qed.

Lemma chunks_of_page_none (q : Z) (l : list (Z * str)) :
  Forall (fun pc => fst pc <> q) l -> chunks_of_page q l = [].
Proof.
  unfold chunks_of_page. induction 1 as [|pc l Hpc _ IH]; [reflexivity|].
  simpl. destruct (Z.eqb_spec (fst pc) q); [contradiction|exact IH].
Qed.

Lemma chunks_of_page_all (q : Z) (g : list str) :
  chunks_of_page q (map (pair q) g) = g.
Proof.
  unfold chunks_of_page. induction g as [|c g IH]; [reflexivity|].
  simpl. rewrite Z.eqb_refl. simpl. now rewrite IH.
Qed.

Lemma chunks_of_page_tagged (groups : list (list str)) :
  forall i k, chunks_of_page (i + Z.of_nat k) (tagged i groups) = nth k groups [].
Proof.
  induction groups as [|g rest IH]; intros i k.
  - destruct k; reflexivity.
  - cbn [tagged]. rewrite chunks_of_page_app. destruct k as [|k].
    + change (Z.of_nat 0) with 0%Z. rewrite Z.add_0_r, chunks_of_page_all.
      rewrite chunks_of_page_none; [apply app_nil_r|].
      eapply Forall_impl; [|apply (tagged_pages rest (i + 1))].
      intros [q c] (Hr & _). cbn [fst] in *. lia.
    + rewrite chunks_of_page_none.
      * replace (i + Z.of_nat (S k))%Z with (i + 1 + Z.of_nat k)%Z by lia.
        apply IH.
      * apply Forall_forall. intros pc Hin. apply in_map_iff in Hin.
        destruct Hin as (c & <- & _). cbn [fst]. lia.
Qed.

(** X17. For [0 <= overlap < chunk_size], the chunks that [ingest_pdf]
    collects under the number of a page, de-overlapped, give back the
    normalised text of that page ([clean_text] of what was extracted), for
    every page of the file; a page without text has no chunk. *)
Theorem collect_chunks_reconstructs_pages
  (fuel : nat) (chunk_size overlap : Z) (pdf : list (option str))
  (all_chunks : list (Z * str)) :
  (0 <= overlap < chunk_size)%Z ->
  collect_chunks fuel (extract_pdf_text pdf) chunk_size overlap [] = Some all_chunks ->
  forall k raw,
    nth_error pdf k = Some raw ->
    deoverlap overlap (chunks_of_page (Z.of_nat k + 1) all_chunks) = page_text raw
    /\ (page_text raw = [] -> chunks_of_page (Z.of_nat k + 1) all_chunks = []).
Proof.
  intros Hov Hrun k raw Hk. unfold extract_pdf_text in Hrun.
  destruct (collect_chunks_groups _ _ _ _ _ _ _ Hrun) as (groups & Hgroups & ->).
  simpl app. rewrite Z.add_comm, chunks_of_page_tagged.
  destruct (Forall2_nth_error_left _ _ _ Hgroups _ _ Hk) as (g & Hg & Hpg).
  rewrite (nth_error_nth _ _ _ Hg).
  unfold page_group in Hpg. destruct (page_text raw) as [|c r] eqn:Ht.
  - subst g. split; reflexivity.
  - split; [|discriminate].
    destruct (chunk_text_sound _ _ _ _ _ Hov Hpg) as (-> & _).
    rewrite <- Ht. unfold page_text. apply clean_text_strip_fixed.
Qed.

Lemma collect_chunks_reconstructs_pages_witness :
  deoverlap 1 (chunks_of_page (Z.of_nat 0 + 1)
                 [(1%Z, lit "abcd"); (1%Z, lit "defg"); (1%Z, lit "ghij")])
  = page_text (Some (lit " abcdefghij  "))
  /\ (page_text (Some (lit " abcdefghij  ")) = [] ->
      chunks_of_page (Z.of_nat 0 + 1)
        [(1%Z, lit "abcd"); (1%Z, lit "defg"); (1%Z, lit "ghij")] = []).
Proof.
  apply (collect_chunks_reconstructs_pages 10 4 1 [Some (lit " abcdefghij  ")]);
    [lia|reflexivity|reflexivity].
Defined.

Lemma blank_clean_text (x : str) : blank x -> clean_text x = [].
Proof.
  intros H. apply visible_nil_blank in H. rewrite <- visible_clean_text in H.
  apply visible_nil_blank, strip_nil_blank in H.
  now rewrite clean_text_strip_fixed in H.
Qed.

Lemma collect_chunks_blank (fuel : nat) (chunk_size overlap : Z) (pdf : list (option str)) :
  Forall (fun raw => page_text raw = []) pdf ->
  forall i acc,
    collect_chunks fuel (enumerate_pages i pdf) chunk_size overlap acc = Some acc.
Proof.
  induction 1 as [|raw pdf Hraw _ IH]; intros i acc; [reflexivity|].
  rewrite enumerate_pages_cons. simpl. rewrite Hraw. apply IH.
Qed.

(** What [upsert_chunks] raises. *)
Lemma embed_loop_raises (env : Env) (texts : list str) :
  forall out st e st',
    embed_loop env texts out st = (Raise e, st') -> e = ServiceError Embedding.
Proof.
  induction texts as [|t rest IH]; intros out st e st'; simpl; [discriminate|].
  unfold bind. rewrite embed_content_run.
  destruct (genai_embed_content env (EMBED_MODEL env) t) as [v|]; [apply IH|].
  now intros [= <- _].
Qed.

Lemma build_ops_raise_inv (doc_id doc_name : str) (pairs : list ((Z * str) * vector)) :
  forall acc e, build_ops doc_id doc_name pairs acc = Raise e -> e = UnicodeEncodeError.
Proof.
  induction pairs as [|[[page text] emb] rest IH]; intros acc e; simpl; [discriminate|].
  destruct (chunk_id_of_result doc_id page text) as [(id & -> & _)|(-> & _)]; [apply IH|].
  now intros [= <-].
Qed.

Lemma upsert_chunks_exceptions
  (env : Env) (doc_id doc_name : str) (chunks : list (Z * str)) (st st' : state) (e : exn) :
  upsert_chunks env doc_id doc_name chunks st = (Raise e, st') ->
  e = ConfigurationError
  \/ e = RuntimeError missing_key_message
  \/ e = ServiceError Embedding
  \/ e = UnicodeEncodeError
  \/ e = ServiceError Store.
Proof.
  intros Hrun.
  destruct (get_collection env st) as [[col|e0] st1] eqn:Hcol.
  - destruct chunks as [|c rest] eqn:Hchunks.
    { rewrite (upsert_chunks_no_chunks env doc_id doc_name st st1 col Hcol) in Hrun.
      discriminate. }
    rewrite <- Hchunks in *. assert (Hne : chunks <> []) by congruence.
    rewrite (upsert_chunks_connected env doc_id doc_name chunks st st1 col Hcol Hne) in Hrun.
    destruct (GEMINI_API_KEY env) as [|k0 key] eqn:Hkey.
    { rewrite embed_texts_without_key in Hrun by assumption.
      injection Hrun as <- _. auto. }
    rewrite embed_texts_with_key in Hrun by congruence.
    destruct (embed_loop env (map snd chunks) []
                (logged st1 [GenaiConfigure (GEMINI_API_KEY env)]))
      as [[vecs|e1] st2] eqn:Hloop.
    + destruct (build_ops doc_id doc_name (combine chunks vecs) []) as [[|op ops]|e1] eqn:Hops.
      * discriminate.
      * destruct (bulk_write_run env col (op :: ops) st2)
          as (applied & pending & rw & Hw & _ & Hrw).
        rewrite Hw in Hrun. destruct Hrw as [[-> _]| ->]; [discriminate|].
        injection Hrun as <- _. auto 6.
      * apply build_ops_raise_inv in Hops. injection Hrun as <- _. auto.
    + apply embed_loop_raises in Hloop. injection Hrun as <- _. auto.
  - destruct (get_collection_quiet _ _ _ _ Hcol) as (_ & _ & He).
    rewrite (upsert_chunks_unconnected env doc_id doc_name chunks st st1 e0 Hcol) in Hrun.
    injection Hrun as <- _. left. now apply He.
Qed.

(** X18. A file in which no page has text (no text extracted, or white
    space only) is ingested as nothing, whatever the sizes and the memory,
    and also without an API key: [ingest_pdf] obtains the collection, which
    sends no request, and returns 0 without any request to the embedding
    collaborator or to the store; it raises only when the client of the
    store cannot be constructed. *)
Theorem ingest_pdf_blank_document
  (mem : nat) (env : Env) (pdf : list (option str)) (doc_id doc_name : str)
  (chunk_size overlap : Z) (st : state) :
  Forall (fun raw => blank (match raw with Some x => x | None => [] end)) pdf ->
  ingest_pdf mem env pdf doc_id doc_name chunk_size overlap st
  = (match fst (get_collection env st) with
     | Ok _ => Ok 0%Z
     | Raise e => Raise e
     end, snd (get_collection env st))
  /\ collection (snd (get_collection env st)) = collection st
  /\ log (snd (get_collection env st)) = log st
  /\ (forall e, fst (get_collection env st) = Raise e -> e = ConfigurationError).
Proof.
  intros Hblank. unfold ingest_pdf, extract_pdf_text.
  rewrite collect_chunks_blank.
  - destruct (get_collection env st) as [[col|e] st1] eqn:Hcol;
      destruct (get_collection_quiet _ _ _ _ Hcol) as (Hc1 & Hl1 & He); cbn [fst snd].
    + rewrite (upsert_chunks_no_chunks env doc_id doc_name st st1 col Hcol). auto.
    + rewrite (upsert_chunks_unconnected env doc_id doc_name [] st st1 e Hcol). auto.
  - eapply Forall_impl; [|exact Hblank].
    intros raw Hraw. unfold page_text. now apply blank_clean_text.
Qed.

Lemma ingest_pdf_blank_document_witness :
  ingest_pdf 0 env_no_key [None; Some (lit "  "); Some []] (lit "doc") (lit "a.pdf") 5 9
    st_fresh
  = (Ok 0%Z,
     {| collection := []; log := [];
        db := {| _client := Some client0; clients_made := 1 |} |}).
Proof.
  refine (proj1 (ingest_pdf_blank_document 0 env_no_key [None; Some (lit "  "); Some []]
                   (lit "doc") (lit "a.pdf") 5 9 st_fresh _)).
  repeat constructor.
Defined.

(* ================================================================== *)
(** * ingest_pdf: when it returns                                      *)
(* ================================================================== *)

Lemma ws_sub_length (s : str) (b : bool) :
  (length (ws_sub b (lit " ") s) <= length s)%nat.
Proof.
  revert b. induction s as [|c r IH]; intros b; simpl; [lia|].
  destruct (isspace c).
  - destruct b; [specialize (IH true); lia|].
    change (lit " " ++ ?x) with (space :: x). simpl. specialize (IH true). lia.
  - simpl. specialize (IH false). lia.
Qed.

Lemma clean_text_length (x : str) : (length (clean_text x) <= length x)%nat.
Proof.
  unfold clean_text, WHITESPACE_RE_sub.
  pose proof (strip_length (ws_sub false (lit " ") x)).
  pose proof (ws_sub_length x false). lia.
Qed.

Lemma enumerate_pages_length_bound (fuel : nat) (pdf : list (option str)) :
  Forall (fun raw => (length (match raw with Some x => x | None => [] end) <= fuel)%nat) pdf ->
  forall i, Forall (fun p => (length (pg_text p) <= fuel)%nat) (enumerate_pages i pdf).
Proof.
  induction 1 as [|raw pdf Hraw _ IH]; intros i; [constructor|].
  rewrite enumerate_pages_cons. constructor; [|apply IH].
  simpl. unfold page_text.
  destruct raw as [x|]; [pose proof (clean_text_length x)|pose proof (clean_text_length [])];
    simpl in *; lia.
Qed.

Lemma ingest_pdf_chunking_ends
  (mem : nat) (env : Env) (pdf : list (option str)) (doc_id doc_name : str)
  (chunk_size overlap : Z) (st : state) :
  (0 <= overlap < chunk_size)%Z ->
  Forall (fun raw => (length (match raw with Some x => x | None => [] end) <= mem)%nat) pdf ->
  exists all_chunks,
    collect_chunks mem (extract_pdf_text pdf) chunk_size overlap [] = Some all_chunks
    /\ ingest_pdf mem env pdf doc_id doc_name chunk_size overlap st
       = upsert_chunks env doc_id doc_name all_chunks st
    /\ fst (ingest_pdf mem env pdf doc_id doc_name chunk_size overlap st)
       <> Raise MemoryError.
Proof.
  intros Hov Hlen. unfold ingest_pdf.
  destruct (collect_chunks_returns mem chunk_size overlap (extract_pdf_text pdf) Hov
              (enumerate_pages_length_bound mem pdf Hlen 1) [])
    as (all_chunks & Hc).
  exists all_chunks. rewrite Hc. split; [reflexivity|]. split; [reflexivity|].
  destruct (upsert_chunks env doc_id doc_name all_chunks st) as [[n|e] st'] eqn:Hrun;
    [discriminate|].
  destruct (upsert_chunks_exceptions _ _ _ _ _ _ _ Hrun) as [->|[->|[->|[->| ->]]]];
    discriminate.
Qed.

(** X19. For [0 <= overlap < chunk_size], the chunking of [ingest_pdf]
    ends on every file: with room for as many chunks as the longest
    extracted page text has characters, no page exhausts the memory, and
    [ingest_pdf] does what [upsert_chunks] does on the chunks collected. *)
Theorem ingest_pdf_returns
  (mem : nat) (env : Env) (pdf : list (option str)) (doc_id doc_name : str)
  (chunk_size overlap : Z) (st : state) :
  (0 <= overlap < chunk_size)%Z ->
  Forall (fun raw => (length (match raw with Some x => x | None => [] end) <= mem)%nat) pdf ->
  exists all_chunks,
    collect_chunks mem (extract_pdf_text pdf) chunk_size overlap [] = Some all_chunks
    /\ ingest_pdf mem env pdf doc_id doc_name chunk_size overlap st
       = upsert_chunks env doc_id doc_name all_chunks st
    /\ fst (ingest_pdf mem env pdf doc_id doc_name chunk_size overlap st)
       <> Raise MemoryError.
Proof. apply ingest_pdf_chunking_ends. Qed.

Lemma ingest_pdf_returns_witness :
  exists all_chunks,
    collect_chunks 12 (extract_pdf_text [Some (lit "hello  world")])
      default_chunk_size default_overlap [] = Some all_chunks
    /\ ingest_pdf 12 env_ok [Some (lit "hello  world")] (lit "doc") (lit "a.pdf")
         default_chunk_size default_overlap st0
       = upsert_chunks env_ok (lit "doc") (lit "a.pdf") all_chunks st0
    /\ fst (ingest_pdf 12 env_ok [Some (lit "hello  world")] (lit "doc") (lit "a.pdf")
              default_chunk_size default_overlap st0)
       <> Raise MemoryError.
Proof.
  apply ingest_pdf_returns; [unfold default_chunk_size, default_overlap; lia|].
  repeat constructor.
Defined.





(* ================================================================== *)
(** * rag_query: how retrieval and synthesis compose                   *)
(* ================================================================== *)

(** The outcomes of [rag_query] once the collection is obtained, with what
    was requested in each. *)
Lemma rag_query_connected
  (env : Env) (question : str) (k : Z) (st st1 : state) (col : collection_handle) :
  get_collection env st = (Ok col, st1) ->
  rag_query env question k st
  = match GEMINI_API_KEY env with
    | [] => (Raise (RuntimeError missing_key_message), st1)
    | key =>
        let embed := EmbedContent (EMBED_MODEL env) (clean_text question) in
        match genai_embed_content env (EMBED_MODEL env) (clean_text question) with
        | None => (Raise (ServiceError Embedding), logged st1 [GenaiConfigure key; embed])
        | Some qvec =>
            let search := Aggregate qvec (Z.max 50 (k * 10)) k in
            match atlas_vector_search env (collection st) qvec (Z.max 50 (k * 10)) k with
            | None =>
                (Raise (ServiceError Store), logged st1 [GenaiConfigure key; embed; search])
            | Some hits =>
                let prompt := rag_prompt question (build_context hits) in
                (match genai_generate_content env (GEN_MODEL env) prompt with
                 | None => Raise (ServiceError Generation)
                 | Some resp =>
                     match text_or_empty resp with
                     | Raise e => Raise e
                     | Ok a => Ok {| answer := a; sources := map source_of hits |}
                     end
                 end,
                 logged st1 [GenaiConfigure key; embed; search;
                             GenaiConfigure key; GenerateContent (GEN_MODEL env) prompt])
            end
        end
    end.
Proof.
  intros Hcol. unfold rag_query, bind.
  rewrite (vector_search_connected env question k st st1 col Hcol).
  destruct (GEMINI_API_KEY env) as [|c key] eqn:Hkey; [reflexivity|]. cbv zeta.
  destruct (genai_embed_content env (EMBED_MODEL env) (clean_text question)) as [qvec|];
    [|reflexivity].
  destruct (atlas_vector_search env (collection st) qvec (Z.max 50 (k * 10)) k) as [hits|];
    [|reflexivity].
  rewrite synthesize_answer_run, Hkey. cbv zeta. rewrite logged_logged. reflexivity.
Qed.

Lemma rag_query_unconnected
  (env : Env) (question : str) (k : Z) (st st1 : state) (e : exn) :
  get_collection env st = (Raise e, st1) ->
  rag_query env question k st = (Raise e, st1).
Proof.
  intros H. unfold rag_query, bind.
  now rewrite (vector_search_unconnected env question k st st1 e H).
Qed.

(** The requests of a run of [rag_query]: none writes, and an embedding
    request carries the normalised question. *)
Lemma rag_query_requests
  (env : Env) (question : str) (k : Z) (st st' : state) (r : result answer_dict) :
  rag_query env question k st = (r, st') ->
  collection st' = collection st
  /\ exists evs,
       log st' = log st ++ evs
       /\ Forall (fun ev => ~ is_write ev) evs
       /\ (forall model content, In (EmbedContent model content) evs ->
                                 content = clean_text question).
Proof.
  destruct (get_collection env st) as [[col|e] st1] eqn:Hcol;
    destruct (get_collection_quiet _ _ _ _ Hcol) as (Hc1 & Hl1 & _).
  2:{ rewrite (rag_query_unconnected env question k st st1 e Hcol).
      intros [= <- <-]. split; [exact Hc1|]. exists []. rewrite app_nil_r.
      split; [exact Hl1|]. split; [constructor|]. intros model content []. }
  rewrite (rag_query_connected env question k st st1 col Hcol).
  assert (Hgen : forall evs,
            Forall (fun ev => ~ is_write ev) evs ->
            (forall model content, In (EmbedContent model content) evs ->
                                   content = clean_text question) ->
            forall r0, (r0, logged st1 evs) = (r, st') ->
            collection st' = collection st
            /\ exists evs,
                 log st' = log st ++ evs
                 /\ Forall (fun ev => ~ is_write ev) evs
                 /\ (forall model content, In (EmbedContent model content) evs ->
                                           content = clean_text question)).
  { intros evs Hw He r0 [= <- <-]. split; [exact Hc1|]. exists evs. simpl.
    rewrite Hl1. auto. }
  destruct (GEMINI_API_KEY env) as [|c key].
  - intros H. apply (Hgen [] (Forall_nil _)) with (r0 := Raise (RuntimeError missing_key_message));
      [intros model content []|now rewrite logged_nil].
  - cbv zeta.
    destruct (genai_embed_content env (EMBED_MODEL env) (clean_text question)) as [qvec|];
      [destruct (atlas_vector_search env (collection st) qvec (Z.max 50 (k * 10)) k)
         as [hits|]|];
      apply Hgen;
      try (repeat constructor; simpl; tauto);
      intros model content Hin; simpl in Hin;
      repeat (destruct Hin as [Hin|Hin]; [try discriminate; now injection Hin as _ <-|]);
      destruct Hin.
Qed.

(** X21. The query path only reads: whatever the outcome of [rag_query],
    the collection is what it was and no write is among the requests it
    issued. *)
Theorem rag_query_never_writes
  (env : Env) (question : str) (k : Z) (st st' : state) (r : result answer_dict) :
  rag_query env question k st = (r, st') ->
  collection st' = collection st
  /\ exists evs, log st' = log st ++ evs /\ Forall (fun ev => ~ is_write ev) evs.
Proof.
  intros Hrun.
  destruct (rag_query_requests _ _ _ _ _ _ Hrun) as (Hc & evs & Hl & Hw & _). eauto.
Qed.

Lemma rag_query_never_writes_witness :
  collection (snd (rag_query env_ok (lit "what?") 5 st_other)) = collection st_other
  /\ exists evs,
       log (snd (rag_query env_ok (lit "what?") 5 st_other)) = log st_other ++ evs
       /\ Forall (fun ev => ~ is_write ev) evs.
Proof.
  apply (rag_query_never_writes env_ok (lit "what?") 5 st_other _
           (Ok {| answer := lit "ok"; sources := [] |})).
  vm_compute. reflexivity.
Defined.

(** X22. With the collection obtained, when every collaborator answers and
    the generated response carries a text, [rag_query] returns that text
    with one source per hit of the store, after exactly these requests, in
    this order: the embedding of the normalised question, the vector search
    with [numCandidates = max(50, 10 k)] and [limit = k], and one generation
    on the prompt built from the question and the context of the hits. *)
Theorem rag_query_success
  (env : Env) (question : str) (k : Z) (st st1 : state) (col : collection_handle)
  (qvec : vector) (hits : list hit) (answer_text : str) :
  get_collection env st = (Ok col, st1) ->
  GEMINI_API_KEY env <> [] ->
  genai_embed_content env (EMBED_MODEL env) (clean_text question) = Some qvec ->
  atlas_vector_search env (collection st) qvec (Z.max 50 (k * 10)) k = Some hits ->
  genai_generate_content env (GEN_MODEL env) (rag_prompt question (build_context hits))
  = Some (Text answer_text) ->
  rag_query env question k st
  = (Ok {| answer := answer_text; sources := map source_of hits |},
     logged st1 [GenaiConfigure (GEMINI_API_KEY env);
                 EmbedContent (EMBED_MODEL env) (clean_text question);
                 Aggregate qvec (Z.max 50 (k * 10)) k;
                 GenaiConfigure (GEMINI_API_KEY env);
                 GenerateContent (GEN_MODEL env)
                   (rag_prompt question (build_context hits))]).
Proof.
  intros Hcol Hkey Hq Hhits Hresp.
  rewrite (rag_query_connected env question k st st1 col Hcol).
  destruct (GEMINI_API_KEY env) as [|c key]; [congruence|].
  cbv zeta. now rewrite Hq, Hhits, Hresp.
Qed.

Lemma rag_query_success_witness :
  rag_query env_ok (lit "what?") 5 st0
  = (Ok {| answer := lit "ok"; sources := map source_of [] |},
     logged st0 [GenaiConfigure (GEMINI_API_KEY env_ok);
                 EmbedContent (EMBED_MODEL env_ok) (clean_text (lit "what?"));
                 Aggregate [] (Z.max 50 (5 * 10)) 5;
                 GenaiConfigure (GEMINI_API_KEY env_ok);
                 GenerateContent (GEN_MODEL env_ok)
                   (rag_prompt (lit "what?") (build_context []))]).
Proof.
  apply (rag_query_success env_ok (lit "what?") 5 st0 st0 handle0);
    [reflexivity|discriminate|reflexivity..].
Defined.

(** X23. When [rag_query] raises, the exception tells the stage that
    failed, and the later stages were not requested: when the client of the
    store cannot be constructed, or without a key, nothing is requested;
    when the embedding fails the store is not queried; when the store fails
    nothing is generated; the generative collaborator is called only after
    the store has returned its hits, and then the call fails in the
    generation or in reading the text of the response. *)
Theorem rag_query_errors
  (env : Env) (question : str) (k : Z) (st st' : state) (e : exn) :
  rag_query env question k st = (Raise e, st') ->
  let key := GEMINI_API_KEY env in
  let embed := EmbedContent (EMBED_MODEL env) (clean_text question) in
  (e = ConfigurationError /\ get_collection env st = (Raise e, st') /\ log st' = log st)
  \/ (exists col st1,
        get_collection env st = (Ok col, st1)
        /\ ((e = RuntimeError missing_key_message /\ key = [] /\ st' = st1)
            \/ (e = ServiceError Embedding
                /\ genai_embed_content env (EMBED_MODEL env) (clean_text question) = None
                /\ st' = logged st1 [GenaiConfigure key; embed])
            \/ (exists qvec,
                  e = ServiceError Store
                  /\ genai_embed_content env (EMBED_MODEL env) (clean_text question)
                     = Some qvec
                  /\ atlas_vector_search env (collection st) qvec (Z.max 50 (k * 10)) k
                     = None
                  /\ st' = logged st1 [GenaiConfigure key; embed;
                                       Aggregate qvec (Z.max 50 (k * 10)) k])
            \/ (exists qvec hits,
                  genai_embed_content env (EMBED_MODEL env) (clean_text question)
                  = Some qvec
                  /\ atlas_vector_search env (collection st) qvec (Z.max 50 (k * 10)) k
                     = Some hits
                  /\ (e = ServiceError Generation
                      /\ genai_generate_content env (GEN_MODEL env)
                           (rag_prompt question (build_context hits)) = None
                      \/ e = ValueError
                         /\ genai_generate_content env (GEN_MODEL env)
                              (rag_prompt question (build_context hits))
                            = Some TextRaises)
                  /\ st' = logged st1 [GenaiConfigure key; embed;
                                       Aggregate qvec (Z.max 50 (k * 10)) k;
                                       GenaiConfigure key;
                                       GenerateContent (GEN_MODEL env)
                                         (rag_prompt question (build_context hits))]))).
Proof.
  cbv zeta.
  destruct (get_collection env st) as [[col|e0] st1] eqn:Hcol;
    destruct (get_collection_quiet _ _ _ _ Hcol) as (_ & Hl1 & He).
  2:{ rewrite (rag_query_unconnected env question k st st1 e0 Hcol).
      intros [= <- <-]. left. rewrite (He e0 eq_refl). auto. }
  rewrite (rag_query_connected env question k st st1 col Hcol). cbv zeta.
  intros Hrun. right. exists col, st1. split; [reflexivity|].
  destruct (GEMINI_API_KEY env) as [|c key] eqn:Hkey.
  - injection Hrun as <- <-. left. auto.
  - destruct (genai_embed_content env (EMBED_MODEL env) (clean_text question))
      as [qvec|] eqn:Hq.
    + destruct (atlas_vector_search env (collection st) qvec (Z.max 50 (k * 10)) k)
        as [hits|] eqn:Hhits.
      * right. right. right. exists qvec, hits.
        destruct (genai_generate_content env (GEN_MODEL env)
                    (rag_prompt question (build_context hits))) as [resp|] eqn:Hresp.
        -- destruct resp; simpl in Hrun; try discriminate.
           injection Hrun as <- <-. auto 6.
        -- injection Hrun as <- <-. auto 6.
      * injection Hrun as <- <-. right. right. left. exists qvec. auto.
    + injection Hrun as <- <-. right. left. auto.
Qed.

Lemma rag_query_errors_witness :
  ConfigurationError = ConfigurationError
  /\ get_collection env_bad_uri st_fresh
     = (Raise ConfigurationError, snd (rag_query env_bad_uri (lit "q") 5 st_fresh))
  /\ log (snd (rag_query env_bad_uri (lit "q") 5 st_fresh)) = log st_fresh.
Proof.
  destruct (rag_query_errors env_bad_uri (lit "q") 5 st_fresh
              (snd (rag_query env_bad_uri (lit "q") 5 st_fresh)) ConfigurationError eq_refl)
    as [H|(col & st1 & Hcol & _)]; [exact H|discriminate Hcol].
Defined.

(* ================================================================== *)
(** * app/db.py: the client is made once                               *)
(* ================================================================== *)





(* ================================================================== *)
(** * app/api.py and frontend/streamlit_app.py                         *)
(* ================================================================== *)

(** X25. The upload endpoint ingests with the default sizes (1200 and 200),
    so its chunking always ends: with room for as many chunks as the longest
    page has characters, it does not end in [MemoryError]. When the file
    name cannot be encoded it raises [UnicodeEncodeError] before anything is
    extracted, embedded or written; when it answers with a [doc_id], that is
    the identifier of the file name alone, 16 characters long. *)
Theorem ingest_endpoint_returns
  (mem : nat) (env : Env) (filename : str) (pdf : list (option str)) (st : state) :
  Forall (fun raw => (length (match raw with Some x => x | None => [] end) <= mem)%nat) pdf ->
  fst (ingest_endpoint mem env filename pdf st) <> Raise MemoryError
  /\ (~ encodable filename ->
      ingest_endpoint mem env filename pdf st = (Raise UnicodeEncodeError, st))
  /\ (forall doc_id count st',
        ingest_endpoint mem env filename pdf st = (Ok (doc_id, count), st') ->
        deterministic_id [filename] = Ok doc_id /\ length doc_id = 16%nat).
Proof.
  intros Hlen. unfold ingest_endpoint, bind, lift.
  destruct (deterministic_id_result [filename]) as [(id & Hid & Henc)|(Hid & Henc)];
    rewrite Hid.
  - destruct (ingest_pdf_chunking_ends mem env pdf id filename default_chunk_size
                default_overlap st)
      as (all_chunks & _ & _ & Hmem);
      [unfold default_chunk_size, default_overlap; lia|exact Hlen|].
    destruct (ingest_pdf mem env pdf id filename default_chunk_size default_overlap st)
      as [[count|e] st1].
    + split; [discriminate|]. split.
      * intros Hbad. apply Forall_cons_iff in Henc. tauto.
      * intros doc_id n st' [= <- <- <-]. split; [reflexivity|].
        unfold deterministic_id in Hid.
        destruct (feed_parts hashlib_sha256 [filename]) as [m|]; [|discriminate].
        injection Hid as <-. apply hexdigest_prefix.
    + split; [simpl in *; congruence|]. split.
      * intros Hbad. apply Forall_cons_iff in Henc. tauto.
      * discriminate.
  - split; [discriminate|]. split; [reflexivity|discriminate].
Qed.

Lemma ingest_endpoint_returns_witness :
  fst (ingest_endpoint 12 env_ok (lit "a.pdf") [Some (lit "hello  world")] st0)
  <> Raise MemoryError
  /\ (~ encodable (lit "a.pdf") ->
      ingest_endpoint 12 env_ok (lit "a.pdf") [Some (lit "hello  world")] st0
      = (Raise UnicodeEncodeError, st0))
  /\ (forall doc_id count st',
        ingest_endpoint 12 env_ok (lit "a.pdf") [Some (lit "hello  world")] st0
        = (Ok (doc_id, count), st') ->
        deterministic_id [lit "a.pdf"] = Ok doc_id /\ length doc_id = 16%nat).
Proof.
  apply ingest_endpoint_returns. repeat constructor.
Defined.

Lemma clean_text_nil_blank (x : str) : clean_text x = [] -> blank x.
Proof.
  intros H. apply visible_nil_blank. rewrite <- visible_clean_text, H. reflexivity.
Qed.

(** X26. The "Search & Synthesize" button never sends an empty text to the
    embedding collaborator: a question that is empty or white space only is
    answered by the error message, with no request and the session as it
    was; for any other question the text embedded is the normalised
    question, which is not empty. *)
Theorem on_search_guards_blank
  (env : Env) (q : str) (k : Z) (last_out : option answer_dict) (st : state) :
  (blank q ->
   on_search env q k last_out st
   = ((last_out, [UiError (lit "Please enter a question.")]), st))
  /\ (forall evs model content,
        log (snd (on_search env q k last_out st)) = log st ++ evs ->
        In (EmbedContent model content) evs ->
        content = clean_text q /\ content <> []).
Proof.
  unfold on_search. split.
  - intros Hq. apply strip_nil_blank in Hq. now rewrite Hq.
  - intros evs model content. destruct (strip q) as [|c0 r] eqn:Hs.
    + simpl. intros Hlog. rewrite <- (app_nil_r (log st)) in Hlog at 1.
      apply app_inv_head in Hlog. subst evs. intros [].
    + assert (Hne : clean_text q <> []).
      { intros H. apply clean_text_nil_blank, strip_nil_blank in H. congruence. }
      destruct (rag_query env q k st) as [r0 st'] eqn:Hrun.
      destruct (rag_query_requests _ _ _ _ _ _ Hrun) as (_ & evs' & Hl & _ & Hemb).
      assert (Hlog' : log (snd (match r0 with
                                | Ok out => (Some out, @nil ui_message, st')
                                | Raise e =>
                                    (last_out,
                                     [UiError (lit "Something went wrong while answering. See details below.");
                                      UiTraceback e], st')
                                end)) = log st')
        by (destruct r0; reflexivity).
      rewrite Hlog', Hl. intros Hlog. apply app_inv_head in Hlog. subst evs'.
      intros Hin. rewrite (Hemb _ _ Hin). auto.
Qed.

Lemma on_search_guards_blank_witness :
  on_search env_ok (lit "   ") 5 None st0
  = ((None, [UiError (lit "Please enter a question.")]), st0).
Proof.
  apply (proj1 (on_search_guards_blank env_ok (lit "   ") 5 None st0)).
  repeat constructor.
Defined.

Lemma index_loop_messages
  (mem : nat) (env : Env) (chunk_size overlap : Z) (files : list (str * list (option str))) :
  (0 <= overlap < chunk_size)%Z ->
  Forall (fun f =>
            Forall (fun raw =>
                      (length (match raw with Some x => x | None => [] end) <= mem)%nat)
                   (snd f)) files ->
  forall total shown st,
    fst (fst (index_loop mem env files chunk_size overlap total shown st)) <> Raise MemoryError
    /\ exists writes,
         snd (fst (index_loop mem env files chunk_size overlap total shown st))
         = shown ++ writes
         /\ Forall (fun m => exists s, m = UiWrite s) writes.
Proof.
  intros Hov. induction 1 as [|[name pdf] rest Hpdf _ IH]; intros total shown st; simpl.
  - split; [discriminate|]. exists []. rewrite app_nil_r. split; [reflexivity|constructor].
  - destruct (deterministic_id_result [name]) as [(id & -> & _)|(-> & _)].
    + destruct (ingest_pdf_chunking_ends mem env pdf id name chunk_size overlap st Hov Hpdf)
        as (all_chunks & _ & _ & Hmem).
      destruct (ingest_pdf mem env pdf id name chunk_size overlap st) as [[count|e] st1].
      * match goal with
        | |- context [index_loop mem env rest chunk_size overlap ?t ?s st1] =>
            destruct (IH t s st1) as (Hr & writes & -> & Hw)
        end.
        split; [exact Hr|]. eexists. rewrite <- !app_assoc. split; [reflexivity|].
        simpl. repeat constructor; eauto.
      * simpl in *. split; [congruence|]. eexists. split; [reflexivity|].
        repeat constructor; eauto.
    + simpl. split; [discriminate|]. eexists. split; [reflexivity|].
      repeat constructor; eauto.
Qed.

(** X27. Of the settings that the two sliders of the sidebar allow
    (chunk size 600 to 2400 by 100, overlap 0 to 600 by 50), every one but
    chunk size 600 with overlap 600 has [0 <= overlap < chunk_size], and with
    it "Build / Update Index" never fails for lack of memory in the
    chunking, on any files: with room for as many chunks as the longest page
    has characters, no [MemoryError] is shown. *)
Theorem on_build_index_returns
  (mem : nat) (env : Env) (files : list (str * list (option str)))
  (chunk_size overlap : Z) (st : state) :
  chunk_size_slider chunk_size -> overlap_slider overlap ->
  ~ (chunk_size = 600%Z /\ overlap = 600%Z) ->
  Forall (fun f =>
            Forall (fun raw =>
                      (length (match raw with Some x => x | None => [] end) <= mem)%nat)
                   (snd f)) files ->
  (0 <= overlap < chunk_size)%Z
  /\ ~ shows_exception MemoryError (fst (on_build_index mem env files chunk_size overlap st)).
Proof.
  unfold chunk_size_slider, overlap_slider, slider_value, shows_exception.
  intros (Hcs & _) (Hov & _) Hne Hfiles.
  assert (Hok : (0 <= overlap < chunk_size)%Z) by lia.
  split; [exact Hok|]. unfold on_build_index.
  destruct files as [|f rest]; [simpl; intros [H|[]]; discriminate|].
  destruct (index_loop_messages mem env chunk_size overlap (f :: rest) Hok Hfiles 0 [] st)
    as (Hr & writes & Hshown & Hw).
  destruct (index_loop mem env (f :: rest) chunk_size overlap 0 [] st)
    as [[[total|e] shown] st1]; simpl in Hr, Hshown; subst shown; simpl fst;
    intros Hin; apply in_app_or in Hin; destruct Hin as [Hin|Hin].
  - apply (proj1 (Forall_forall _ _) Hw) in Hin. destruct Hin as (s & Hs). discriminate.
  - destruct Hin as [H|[]]. discriminate.
  - apply (proj1 (Forall_forall _ _) Hw) in Hin. destruct Hin as (s & Hs). discriminate.
  - destruct Hin as [H|[H|[H|[]]]]; try discriminate. congruence.
Qed.

Lemma on_build_index_returns_witness :
  (0 <= 600 < 700)%Z
  /\ ~ shows_exception MemoryError
        (fst (on_build_index 12 env_ok [(lit "a.pdf", [Some (lit "hello  world")])]
                700 600 st0)).
Proof.
  apply on_build_index_returns.
  - unfold chunk_size_slider, slider_value. split; [lia|reflexivity].
  - unfold overlap_slider, slider_value. split; [lia|reflexivity].
  - lia.
  - repeat constructor.
Defined.


